(** * Kronecker-structured Laplace inference: [kronecker.py] in Rocq

    A shallow embedding of the solver and the properties proved of it.

    - The model follows the source file: the TensorFlow values the solver
      works on (tensors of rank 0 and 1, matrices, Python exceptions), the
      Kronecker algebra [kron], [kron_list], [kron_mvp], the conjugate
      gradient optimizer [CGOptimizer], and the Newton solver
      [KroneckerSolver] with its line search, marginal likelihood and
      predictive mean.
    - The vocabulary names what the properties speak of, and the closed
      examples give solvers to run.
    - The properties come last, each statement about the model above.

    Scalars are kept abstract behind the interface [Scalar]: the operations
    on floating-point numbers that the source calls on TensorFlow.  Two
    instances are given, IEEE binary64 numbers (Rocq's primitive floats,
    with infinities and NaN) and exact rationals (no rounding, no NaN).
    Every theorem that names no instance holds for all of them. *)

From Stdlib Require Import List ZArith Bool Lia PeanoNat.
From Stdlib Require Import QArith Qcanon.
From Stdlib Require Import Floats.
Import ListNotations.

Close Scope Qc_scope.
Close Scope Q_scope.

(** ** Python exceptions and fallible computations *)

Inductive exn : Type :=
| TypeError              (* calling [None] *)
| IndexError             (* list or shape index out of range *)
| ZeroDivisionError      (* integer division of a dimension by zero *)
| ValueError             (* [tf.boolean_mask] on incompatible shapes *)
| InvalidArgumentError.  (* a TensorFlow kernel refusing its operand shapes *)

Inductive result (A : Type) : Type :=
| Ok (a : A)
| Err (e : exn).

Arguments Ok {A} a.
Arguments Err {A} e.

Definition bind {A B : Type} (c : result A) (k : A -> result B) : result B :=
  match c with
  | Ok a => k a
  | Err e => Err e
  end.

Declare Scope result_scope.
Delimit Scope result_scope with result.
Notation "x <- c ;; k" := (bind c (fun x => k))
  (at level 61, c at next level, right associativity) : result_scope.
Notation "' p <- c ;; k" := (bind c (fun x => let p := x in k))
  (at level 61, p pattern, c at next level, right associativity) : result_scope.
Local Open Scope result_scope.

(** [for x in xs: s = body(x, s)], stopping at the first exception. *)
Fixpoint for_each {X S : Type} (xs : list X) (body : X -> S -> result S) (s : S)
  : result S :=
  match xs with
  | [] => Ok s
  | x :: xs' => s' <- body x s ;; for_each xs' body s'
  end.

(** [tf.while_loop(cond, body, s)] in eager mode is Python's
    [while cond(s): s = body(s)].  Each loop of the source is bounded by a
    counter kept in its state; [measure] reads that bound, so the recursion
    is structural on it and no run is cut short (see [while_loop_unfold]). *)
Fixpoint while_iter {S : Type} (n : nat) (cond : S -> bool)
  (body : S -> result S) (s : S) : result S :=
  match n with
  | O => Ok s
  | Datatypes.S n' =>
      if cond s then s' <- body s ;; while_iter n' cond body s' else Ok s
  end.

Definition while_loop {S : Type} (measure : S -> nat) (cond : S -> bool)
  (body : S -> result S) (s : S) : result S :=
  while_iter (measure s) cond body s.

(** [xs[i]] on a Python list. *)
Definition getitem {A : Type} (xs : list A) (i : nat) : result A :=
  match nth_error xs i with
  | Some a => Ok a
  | None => Err IndexError
  end.

(** ** Scalars *)

(** The floating-point operations the source uses, with the literals it
    writes: [0.5], [5.0], [1e-5], [1e-9] and [sys.float_info.max]. *)
Class Scalar (F : Type) : Type := {
  fzero : F;
  fone : F;
  fadd : F -> F -> F;
  fsub : F -> F -> F;
  fmul : F -> F -> F;
  fdiv : F -> F -> F;
  fneg : F -> F;
  fsqrt : F -> F;
  flt : F -> F -> bool;
  fgt : F -> F -> bool;
  fis_nan : F -> bool;
  of_int : Z -> F;
  lit_0_5 : F;
  lit_5_0 : F;
  lit_1e_5 : F;
  lit_1e_9 : F;
  float_info_max : F
}.

Declare Scope scalar_scope.
Delimit Scope scalar_scope with F.
Infix "+" := fadd : scalar_scope.
Infix "-" := fsub : scalar_scope.
Infix "*" := fmul : scalar_scope.
Infix "/" := fdiv : scalar_scope.
Notation "- x" := (fneg x) : scalar_scope.

Section Tensors.

Context {F : Type} `{Scalar F}.

(** ** Tensors *)

(** A tensor of rank 0 or 1.  The distinction matters: [tf.squeeze] turns a
    one-element vector into a rank-0 tensor, which has no [shape[0]] and
    cannot be masked. *)
Inductive tensor : Type :=
| T0 (x : F)
| T1 (v : list F).

(** A rank-2 tensor: its static shape and its row-major buffer. *)
Record matrix : Type := mk_matrix {
  nrows : nat;
  ncols : nat;
  mdata : list F
}.

Definition mget (m : matrix) (i j : nat) : F :=
  nth (i * ncols m + j) (mdata m) fzero.

Definition mrow (m : matrix) (i : nat) : list F :=
  map (mget m i) (seq 0 (ncols m)).

Definition matrix_of (r c : nat) (g : nat -> nat -> F) : matrix :=
  mk_matrix r c (flat_map (fun i => map (g i) (seq 0 c)) (seq 0 r)).

(** [tf.zeros([r, c])] *)
Definition tf_zeros2 (r c : nat) : matrix :=
  mk_matrix r c (repeat fzero (r * c)).

(** [tf.zeros(shape=[n])] *)
Definition tf_zeros (n : nat) : tensor := T1 (repeat fzero n).

(** [tf.transpose] *)
Definition tf_transpose (m : matrix) : matrix :=
  matrix_of (ncols m) (nrows m) (fun j i => mget m i j).

(** [tf.reduce_sum] over a list of scalars, left to right. *)
Definition sum_list (xs : list F) : F := fold_left fadd xs fzero.

(** [tf.matmul(a, b)] *)
Definition tf_matmul (a b : matrix) : result matrix :=
  if Nat.eqb (ncols a) (nrows b) then
    Ok (matrix_of (nrows a) (ncols b)
          (fun i j => sum_list (map (fun k => (mget a i k * mget b k j)%F)
                                    (seq 0 (ncols a)))))
  else Err InvalidArgumentError.

(** [tf.reshape(t, (r, c))] on a buffer. *)
Definition tf_reshape2 (buf : list F) (r c : nat) : result matrix :=
  if Nat.eqb (r * c) (length buf) then Ok (mk_matrix r c buf)
  else Err InvalidArgumentError.

(** [tf.concat([a, b], 1)] *)
Definition tf_concat1 (a b : matrix) : result matrix :=
  if Nat.eqb (nrows a) (nrows b) then
    Ok (mk_matrix (nrows a) (ncols a + ncols b)
          (flat_map (fun i => mrow a i ++ mrow b i) (seq 0 (nrows a))))
  else Err InvalidArgumentError.

(** [tf.concat([a, b], 0)] *)
Definition tf_concat0 (a b : matrix) : result matrix :=
  if Nat.eqb (ncols a) (ncols b) then
    Ok (mk_matrix (nrows a + nrows b) (ncols a) (mdata a ++ mdata b))
  else Err InvalidArgumentError.

(** [x * B] for a rank-0 [x]. *)
Definition mscale (x : F) (B : matrix) : matrix :=
  mk_matrix (nrows B) (ncols B) (map (fmul x) (mdata B)).

(** [tf.squeeze] of a buffer of shape [[1, n]] or [[n, 1]] or [[n]]: every
    dimension of size 1 goes away. *)
Definition tf_squeeze (buf : list F) : tensor :=
  match buf with
  | [x] => T0 x
  | _ => T1 buf
  end.

(** [tf.squeeze] of a tensor of rank at most 1. *)
Definition tf_squeeze_t (t : tensor) : tensor :=
  match t with
  | T0 x => T0 x
  | T1 v => tf_squeeze v
  end.

(** [tf.expand_dims(e, 1)]: a vector as a column. *)
Definition tf_expand_dims1 (v : list F) : matrix := mk_matrix (length v) 1 v.

(** [t.shape[0]] *)
Definition shape0 (t : tensor) : result nat :=
  match t with
  | T0 _ => Err IndexError
  | T1 v => Ok (length v)
  end.

(** ** Element-wise operations, with broadcasting *)

Fixpoint zip_with (op : F -> F -> F) (u v : list F) : list F :=
  match u, v with
  | a :: u', b :: v' => op a b :: zip_with op u' v'
  | _, _ => []
  end.

Definition broadcast (op : F -> F -> F) (a b : tensor) : result tensor :=
  match a, b with
  | T0 x, T0 y => Ok (T0 (op x y))
  | T0 x, T1 v => Ok (T1 (map (op x) v))
  | T1 u, T0 y => Ok (T1 (map (fun a => op a y) u))
  | T1 u, T1 v =>
      if Nat.eqb (length u) (length v) then Ok (T1 (zip_with op u v))
      else match u, v with
           | [x], _ => Ok (T1 (map (op x) v))
           | _, [y] => Ok (T1 (map (fun a => op a y) u))
           | _, _ => Err InvalidArgumentError
           end
  end.

Definition tadd := broadcast fadd.
Definition tsub := broadcast fsub.
Definition tmul := broadcast fmul.   (* [tf.multiply], and [*] *)
Definition tdiv := broadcast fdiv.

Definition tmap (g : F -> F) (t : tensor) : tensor :=
  match t with
  | T0 x => T0 (g x)
  | T1 v => T1 (map g v)
  end.

(** [tf.reduce_sum(t)] *)
Definition tf_reduce_sum (t : tensor) : F :=
  match t with
  | T0 x => x
  | T1 v => sum_list v
  end.

Fixpoint mask_select (v : list F) (m : list bool) : list F :=
  match v, m with
  | x :: v', b :: m' => if b then x :: mask_select v' m' else mask_select v' m'
  | _, _ => []
  end.

(** [tf.boolean_mask(t, mask)] for a rank-1 [mask]. *)
Definition tf_boolean_mask (t : tensor) (m : list bool) : result tensor :=
  match t with
  | T0 _ => Err ValueError
  | T1 v =>
      if Nat.eqb (length v) (length m) then Ok (T1 (mask_select v m))
      else Err ValueError
  end.

(** ** Kronecker algebra *)

(** [kron(A, B)], lines 493-516. *)
Definition kron (A B : matrix) : result matrix :=
  let n_col := (ncols A * ncols B)%nat in
  for_each (seq 0 (nrows A))
    (fun i out =>
       row <- for_each (seq 0 (ncols A))
                (fun j row => tf_concat1 row (mscale (mget A i j) B))
                (tf_zeros2 (nrows B) 0) ;;
       tf_concat0 out row)
    (tf_zeros2 0 n_col).

(** [kron_list(matrices)], lines 518-532. *)
Definition kron_list (matrices : list matrix) : result matrix :=
  m0 <- getitem matrices 0 ;;
  m1 <- getitem matrices 1 ;;
  out <- kron m0 m1 ;;
  for_each (seq 2 (length matrices - 2))
    (fun i out => mi <- getitem matrices i ;; kron out mi)
    out.

(** [a / b] on two [Dimension]s (Python 2: floor division). *)
Definition dim_div (a b : nat) : result nat :=
  match b with
  | O => Err ZeroDivisionError
  | _ => Ok (a / b)%nat
  end.

(** [kron_mvp(Ks, v)], lines 534-554. *)
Definition kron_mvp (Ks : list matrix) (v : tensor) : result tensor :=
  K0 <- getitem Ks 0 ;;
  let V_rows := nrows K0 in
  n <- shape0 v ;;
  V_cols <- dim_div n V_rows ;;
  R <- tf_reshape2 (match v with T1 l => l | T0 x => [x] end) V_rows V_cols ;;
  let V := tf_transpose R in
  mvp <- for_each (rev Ks)
           (fun k mvp =>
              p <- tf_matmul k mvp ;;
              tf_reshape2 (mdata (tf_transpose p)) V_rows V_cols)
           V ;;
  Ok (tf_squeeze (mdata (tf_transpose mvp))).

(** [tf.matmul(K, v)] for a vector read as a column: the dense product the
    Kronecker product is meant to avoid. *)
Definition dense_mvp (K : matrix) (v : list F) : result (list F) :=
  p <- tf_matmul K (tf_expand_dims1 v) ;; Ok (mdata p).

End Tensors.

Arguments tensor F : clear implicits.
Arguments matrix F : clear implicits.

(** ** Two instances of [Scalar] *)

(** IEEE binary64 numbers. *)
Definition float_of_Z (z : Z) : float :=
  match z with
  | Z0 => 0%float
  | Zpos _ => PrimFloat.of_uint63 (Uint63.of_Z z)
  | Zneg p => PrimFloat.opp (PrimFloat.of_uint63 (Uint63.of_Z (Zpos p)))
  end.

#[export] Instance float_Scalar : Scalar float := {|
  fzero := 0%float;
  fone := 1%float;
  fadd := PrimFloat.add;
  fsub := PrimFloat.sub;
  fmul := PrimFloat.mul;
  fdiv := PrimFloat.div;
  fneg := PrimFloat.opp;
  fsqrt := PrimFloat.sqrt;
  flt := PrimFloat.ltb;
  fgt := fun a b => PrimFloat.ltb b a;
  fis_nan := PrimFloat.is_nan;
  of_int := float_of_Z;
  lit_0_5 := 0.5%float;
  lit_5_0 := 5%float;
  lit_1e_5 := 0x1.4f8b588e368f1p-17%float;
  lit_1e_9 := 0x1.12e0be826d695p-30%float;
  float_info_max := 0x1.fffffffffffffp+1023%float
|}.

(** Exact rationals: no rounding, no infinities, no NaN.  [fsqrt] is the
    square root rounded down to a multiple of the operand's denominator
    (exact on squares of rationals); division by zero yields zero. *)
Definition Qc_sqrt (q : Qc) : Qc :=
  Q2Qc (Z.sqrt (Qnum q * Zpos (Qden q)) # Qden q)%Q.

Definition Qc_ltb (a b : Qc) : bool :=
  match (a ?= b)%Qc with
  | Lt => true
  | _ => false
  end.

#[export] Instance Qc_Scalar : Scalar Qc := {|
  fzero := Q2Qc 0%Q;
  fone := Q2Qc 1%Q;
  fadd := Qcplus;
  fsub := Qcminus;
  fmul := Qcmult;
  fdiv := Qcdiv;
  fneg := Qcopp;
  fsqrt := Qc_sqrt;
  flt := Qc_ltb;
  fgt := fun a b => Qc_ltb b a;
  fis_nan := fun _ => false;
  of_int := fun z => Q2Qc (inject_Z z);
  lit_0_5 := Q2Qc (1 # 2)%Q;
  lit_5_0 := Q2Qc (5 # 1)%Q;
  lit_1e_5 := Q2Qc (1 # 100000)%Q;
  lit_1e_9 := Q2Qc (1 # 1000000000)%Q;
  float_info_max := Q2Qc (inject_Z (2 ^ 1024 - 2 ^ 971)%Z)
|}.

Section Solver.

Context {F : Type} `{Scalar F}.

Local Abbreviation tensor := (tensor F).
Local Abbreviation matrix := (matrix F).

(** ** CGOptimizer *)

(** [cg_prod] is the callable given to the constructor; its default is
    [None]. *)
Record CGOptimizer : Type := mk_CGOptimizer {
  cg_prod : option (tensor -> result tensor)
}.

(** [CGOptimizer.__init__(self, cg_prod = None)] *)
Definition CGOptimizer_init (cg_prod : option (tensor -> result tensor))
  : CGOptimizer := mk_CGOptimizer cg_prod.

(** [self.cg_prod(p)] *)
Definition call_cg_prod (self : CGOptimizer) (p : tensor) : result tensor :=
  match cg_prod self with
  | Some prod => prod p
  | None => Err TypeError
  end.

(** The loop variables of [cg]: [[p, count, x, r, max_it, precondition, z]]. *)
Record cg_vars : Type := mk_cg_vars {
  cg_p : tensor;
  cg_count : Z;
  cg_x : tensor;
  cg_r : tensor;
  cg_max_it : Z;
  cg_precondition : option tensor;
  cg_z : option tensor
}.

(** [tf.reduce_sum(tf.multiply(a, b))] *)
Definition dot (a b : tensor) : result F :=
  ab <- tmul a b ;; Ok (tf_reduce_sum ab).

(** The squared residual sum [tf.reduce_sum(tf.multiply(r, r))]; the
    product of a tensor with itself has no shape to mismatch. *)
Definition sum_sq (r : tensor) : F := tf_reduce_sum (tmap (fun a => a * a)%F r).

(** [cg_converged], lines 348-363: true while the loop goes on. *)
Definition cg_converged (v : cg_vars) : bool :=
  fgt (sum_sq (cg_r v)) lit_1e_5 && Z.ltb (cg_count v) (cg_max_it v).

(** A [None] operand of [tf.multiply]. *)
Definition require_tensor (o : option tensor) : result tensor :=
  match o with
  | Some t => Ok t
  | None => Err ValueError
  end.

(** [cg_body], lines 365-406. *)
Definition cg_body (self : CGOptimizer) (v : cg_vars) : result cg_vars :=
  let count := (cg_count v + 1)%Z in
  Bp <- call_cg_prod self (cg_p v) ;;
  norm_k <- match cg_precondition v with
            | Some _ => z <- require_tensor (cg_z v) ;; dot (cg_r v) z
            | None => dot (cg_r v) (cg_r v)
            end ;;
  denom <- dot Bp (cg_p v) ;;
  let alpha := (norm_k / denom)%F in
  ap <- tmul (T0 alpha) (cg_p v) ;;
  x <- tadd (cg_x v) ap ;;
  aBp <- tmul (T0 alpha) Bp ;;
  r <- tsub (cg_r v) aBp ;;
  '(z, norm_next) <-
     match cg_precondition v with
     | Some pre =>
         ipre <- tdiv (T0 fone) pre ;;
         z <- tmul ipre r ;;
         n <- dot z r ;;
         Ok (Some z, n)
     | None => n <- dot r r ;; Ok (cg_z v, n)
     end ;;
  let beta := (norm_next / norm_k)%F in
  bp <- tmul (T0 beta) (cg_p v) ;;
  p <- match cg_precondition v with
       | Some _ => z' <- require_tensor z ;; tadd z' bp
       | None => tadd r bp
       end ;;
  Ok (mk_cg_vars p count x r (cg_max_it v) (cg_precondition v) z).

(** The iterations [cg]'s loop can still take. *)
Definition cg_measure (v : cg_vars) : nat :=
  Z.to_nat (cg_max_it v - cg_count v).

(** Lines 420-433 of [cg]: the initial loop variables.  The arguments
    [x], [A] and [z] keep their default [None], as in every call of the
    repository. *)
Definition cg_init (self : CGOptimizer) (b : tensor)
  (precondition : option tensor) : result cg_vars :=
  let count := 0%Z in
  n <- shape0 b ;;
  let x := tf_zeros n in
  Mx <- call_cg_prod self x ;;
  r <- tsub b Mx ;;
  '(p, z) <- match precondition with
             | Some pre =>
                 ipre <- tdiv (T0 fone) pre ;;
                 z <- tmul ipre r ;;
                 Ok (z, Some z)
             | None => Ok (r, None)
             end ;;
  Ok (mk_cg_vars p count x r (2 * Z.of_nat n) precondition z).

(** [cg], lines 408-438: the loop, then [fin[2]]. *)
Definition cg (self : CGOptimizer) (b : tensor) (precondition : option tensor)
  : result tensor :=
  v0 <- cg_init self b precondition ;;
  fin <- while_loop cg_measure cg_converged (cg_body self) v0 ;;
  Ok (cg_x fin).

(** ** KroneckerSolver *)

(** The two collaborators of the solver.  Their modules ([kernels],
    [likelihoods]) are not part of the repository: a kernel is its [eval]
    method, a likelihood its [log_like] method. *)
Record Kernel : Type := mk_Kernel {
  kernel_eval : matrix -> option matrix -> result matrix
}.

Record Likelihood : Type := mk_Likelihood {
  log_like : tensor -> tensor -> result tensor
}.

(** The fields of a solver, as [__init__] names them.  [grad_func] and
    [hess_func] are the functions [tfe.gradients_function] returns: each
    yields the list of gradients it was asked for. *)
Record KroneckerSolver : Type := mk_KroneckerSolver {
  kernel : Kernel;
  mu : tensor;
  likelihood : Likelihood;
  Ks : list matrix;
  k_diag : option tensor;
  mask : option (list bool);
  X : matrix;
  y : tensor;
  alpha : tensor;
  W : tensor;
  grads : tensor;
  opt : CGOptimizer;
  f : tensor;
  tau : F;
  grad_func : tensor -> tensor -> result (list tensor);
  hess_func : tensor -> tensor -> result (list tensor)
}.

Definition set_f (self : KroneckerSolver) (v : tensor) : KroneckerSolver :=
  mk_KroneckerSolver (kernel self) (mu self) (likelihood self) (Ks self)
    (k_diag self) (mask self) (X self) (y self) (alpha self) (W self)
    (grads self) (opt self) v (tau self) (grad_func self) (hess_func self).

Definition set_grads (self : KroneckerSolver) (v : tensor) : KroneckerSolver :=
  mk_KroneckerSolver (kernel self) (mu self) (likelihood self) (Ks self)
    (k_diag self) (mask self) (X self) (y self) (alpha self) (W self)
    v (opt self) (f self) (tau self) (grad_func self) (hess_func self).

Definition set_W (self : KroneckerSolver) (v : tensor) : KroneckerSolver :=
  mk_KroneckerSolver (kernel self) (mu self) (likelihood self) (Ks self)
    (k_diag self) (mask self) (X self) (y self) (alpha self) v
    (grads self) (opt self) (f self) (tau self) (grad_func self)
    (hess_func self).

Definition set_alpha (self : KroneckerSolver) (v : tensor) : KroneckerSolver :=
  mk_KroneckerSolver (kernel self) (mu self) (likelihood self) (Ks self)
    (k_diag self) (mask self) (X self) (y self) v (W self)
    (grads self) (opt self) (f self) (tau self) (grad_func self)
    (hess_func self).

(** [-tf.reduce_sum(log_like(y, f))
     + 0.5 * tf.reduce_sum(tf.multiply(a, f - m))],
    the expression of lines 93-97 and 214-219. *)
Definition psi_of (lik : Likelihood) (y_ f_ a_ m_ : tensor) : result F :=
  ll <- log_like lik y_ f_ ;;
  d <- tsub f_ m_ ;;
  ad <- tmul a_ d ;;
  Ok (- tf_reduce_sum ll + lit_0_5 * tf_reduce_sum ad)%F.

(** Lines 83-86 of [step]: the latent values of an iteration. *)
Definition step_f (self : KroneckerSolver) : result tensor :=
  Ka <- kron_mvp (Ks self) (alpha self) ;;
  f0 <- tadd Ka (mu self) ;;
  match k_diag self with
  | Some d => ad <- tmul (alpha self) d ;; tadd f0 ad
  | None => Ok f0
  end.

(** Lines 88-97 of [step]: the objective of an iteration, at [self.f]. *)
Definition step_psi (self : KroneckerSolver) : result F :=
  match mask self with
  | Some m =>
      y_lim <- tf_boolean_mask (y self) m ;;
      f_lim <- tf_boolean_mask (f self) m ;;
      alpha_lim <- tf_boolean_mask (alpha self) m ;;
      mu_lim <- tf_boolean_mask (mu self) m ;;
      psi_of (likelihood self) y_lim f_lim alpha_lim mu_lim
  | None => psi_of (likelihood self) (y self) (f self) (alpha self) (mu self)
  end.

(** The loop variables of [line_search], in the order of line 268. *)
Record ls_vars : Type := mk_ls_vars {
  ls_obj_prev : F;
  ls_obj_search : F;
  ls_min_obj : F;
  ls_alpha : tensor;
  ls_delta_alpha : tensor;
  ls_y : tensor;
  ls_step_size : F;
  ls_grad_norm : F;
  ls_max_it : Z;
  ls_t : Z;
  ls_mu : tensor;
  ls_opt_step : F
}.

(** Lines 202-219 of [search_step]: the objective at the candidate
    [alpha + step_size * delta_alpha]. *)
Definition search_objective (self : KroneckerSolver)
  (alpha_ delta_alpha y_ mu_ : tensor) (step_size : F) : result F :=
  sd <- tmul (T0 step_size) delta_alpha ;;
  a_sd <- tadd alpha_ sd ;;
  let alpha_search := tf_squeeze_t a_sd in
  Ka <- kron_mvp (Ks self) alpha_search ;;
  f0 <- tadd (tf_squeeze_t Ka) mu_ ;;
  f_search <- match k_diag self with
              | Some d => da <- tmul d alpha_search ;; tadd f0 da
              | None => Ok f0
              end ;;
  match mask self with
  | Some m =>
      y_lim <- tf_boolean_mask (y self) m ;;
      f_lim <- tf_boolean_mask f_search m ;;
      alpha_lim <- tf_boolean_mask alpha_search m ;;
      mu_lim <- tf_boolean_mask (mu self) m ;;
      psi_of (likelihood self) y_lim f_lim alpha_lim mu_lim
  | None => psi_of (likelihood self) y_ f_search alpha_search mu_
  end.

(** [search_step], lines 181-229. *)
Definition search_step (self : KroneckerSolver) (v : ls_vars)
  : result ls_vars :=
  obj_search <- search_objective self (ls_alpha v) (ls_delta_alpha v) (ls_y v)
                  (ls_mu v) (ls_step_size v) ;;
  let opt_step :=
    if fgt (ls_min_obj v) obj_search then ls_step_size v else ls_opt_step v in
  let min_obj :=
    if fgt (ls_min_obj v) obj_search then obj_search else ls_min_obj v in
  let step_size := (tau self * ls_step_size v)%F in
  let t := (ls_t v + 1)%Z in
  Ok (mk_ls_vars (ls_obj_prev v) obj_search min_obj (ls_alpha v)
        (ls_delta_alpha v) (ls_y v) step_size (ls_grad_norm v) (ls_max_it v) t
        (ls_mu v) opt_step).

(** [converge_cond], lines 232-240: true while the search goes on. *)
Definition converge_cond (v : ls_vars) : bool :=
  Z.ltb (ls_t v) (ls_max_it v)
  && flt (ls_obj_prev v - ls_obj_search v)%F
         (ls_step_size v * of_int (ls_t v))%F.

(** The iterations the line search can still take. *)
Definition ls_measure (v : ls_vars) : nat := Z.to_nat (ls_max_it v - ls_t v).

(** The initial loop variables of [line_search], lines 258-265. *)
Definition ls_init (alpha_ delta_alpha y_ : tensor) (obj_prev : F) (max_it : Z)
  (mu_ : tensor) : ls_vars :=
  let obj_search := float_info_max in
  let min_obj := obj_prev in
  let step_size := lit_5_0 in
  let opt_step := fzero in
  let grad_norm := sum_sq alpha_ in
  let t := 1%Z in
  mk_ls_vars obj_prev obj_search min_obj alpha_ delta_alpha y_ step_size
    grad_norm max_it t mu_ opt_step.

(** [line_search], lines 244-271: [(res[2], res[-1])]. *)
Definition line_search (self : KroneckerSolver)
  (alpha_ delta_alpha y_ : tensor) (obj_prev : F) (max_it : Z) (mu_ : tensor)
  : result (F * F) :=
  res <- while_loop ls_measure converge_cond (search_step self)
           (ls_init alpha_ delta_alpha y_ obj_prev max_it mu_) ;;
  Ok (ls_min_obj res, ls_opt_step res).

(** [tf.where(tf.is_nan(a), tf.ones_like(a) * 1e-9, a)], line 128. *)
Definition nan_floor (a : tensor) : tensor :=
  tmap (fun x => if fis_nan x then (fone * lit_1e_9)%F else x) a.

(** The loop variables of [run]: [[max_it, it, prev, delta]], with the
    solver they act on. *)
Record newton_vars : Type := mk_newton_vars {
  nv_self : KroneckerSolver;
  nv_max_it : Z;
  nv_it : Z;
  nv_prev : F;
  nv_delta : F
}.

(** Lines 104-119 of [step]: gradient, curvature, the Newton direction by
    conjugate gradients, and the step size by line search.  Returns the
    solver with [grads] and [W] assigned, [delta_alpha] and [step_size]. *)
Definition step_direction (self : KroneckerSolver) (psi : F)
  : result (KroneckerSolver * tensor * F) :=
  gs <- grad_func self (y self) (f self) ;;
  g <- getitem gs 0 ;;
  let self := set_grads self g in
  hs <- hess_func self (y self) (f self) ;;
  hess <- getitem hs 0 ;;
  let self := set_W self (tmap fneg hess) in
  fm <- tsub (f self) (mu self) ;;
  Wfm <- tmul (W self) fm ;;
  b <- tadd Wfm (grads self) ;;
  isw <- tdiv (T0 fone) (tmap fsqrt (W self)) ;;
  rhs <- tmul isw b ;;
  z <- cg (opt self) rhs (k_diag self) ;;
  swz <- tmul (tmap fsqrt (W self)) z ;;
  delta_alpha <- tsub swz (alpha self) ;;
  ls <- line_search self (alpha self) delta_alpha (y self) psi 20 (mu self) ;;
  Ok (self, delta_alpha, snd ls).

(** Line 127: the guarded update of [alpha]. *)
Definition accept (self : KroneckerSolver) (delta : F) (delta_alpha : tensor)
  (step_size : F) : result tensor :=
  if fgt delta lit_1e_5 then
    ds <- tmul delta_alpha (T0 step_size) ;; tadd (alpha self) ds
  else Ok (alpha self).

(** [step], lines 69-131. *)
Definition step (v : newton_vars) : result newton_vars :=
  let self := nv_self v in
  f_ <- step_f self ;;
  let self := set_f self f_ in
  psi <- step_psi self ;;
  '(self, delta_alpha, step_size) <- step_direction self psi ;;
  let delta := (nv_prev v - psi)%F in
  let prev := psi in
  a <- accept self delta delta_alpha step_size ;;
  let self := set_alpha self (nan_floor a) in
  let it := (nv_it v + 1)%Z in
  Ok (mk_newton_vars self (nv_max_it v) it prev delta).

(** [conv], lines 134-147: true while the Newton loop goes on. *)
Definition conv (v : newton_vars) : bool :=
  Z.ltb (nv_it v) (nv_max_it v) && fgt (nv_delta v) lit_1e_5.

Definition newton_measure (v : newton_vars) : nat :=
  Z.to_nat (nv_max_it v - nv_it v).

(** [run], lines 150-169: the loop variables [out] and the solver after the
    two assignments that follow the loop. *)
Definition run (self : KroneckerSolver) (max_it : Z) : result newton_vars :=
  let delta := float_info_max in
  let prev := float_info_max in
  let it := 0%Z in
  out <- while_loop newton_measure conv step
           (mk_newton_vars self max_it it prev delta) ;;
  let self := nv_self out in
  Ka <- kron_mvp (Ks self) (alpha self) ;;
  f_ <- tadd Ka (mu self) ;;
  let self := set_f self f_ in
  gs <- grad_func self (y self) (f self) ;;
  g <- getitem gs 0 ;;
  let self := set_grads self g in
  Ok (mk_newton_vars self (nv_max_it out) (nv_it out) (nv_prev out)
        (nv_delta out)).

(** [cg_prod], lines 172-179: the operator of the Newton system. *)
Definition KroneckerSolver_cg_prod (self : KroneckerSolver) (p : tensor)
  : result tensor :=
  match k_diag self with
  | None =>
      Wp <- tmul (tmap fsqrt (W self)) p ;;
      KWp <- kron_mvp (Ks self) Wp ;;
      WKWp <- tmul (tmap fsqrt (W self)) KWp ;;
      tadd p WKWp
  | Some d =>
      Wp <- tmul (tmap fsqrt (W self)) p ;;
      KWp <- kron_mvp (Ks self) Wp ;;
      dWp <- tmul d Wp ;;
      s <- tadd KWp dWp ;;
      WKWp <- tmul (tmap fsqrt (W self)) s ;;
      tadd p WKWp
  end.

(** *** Marginal likelihood and prediction *)

(** Library functions of TensorFlow and NumPy that the solver calls and
    that have no counterpart among the scalar operations: the element-wise
    logarithm, the eigen-decomposition of a symmetric matrix (eigenvalues
    first) and the sorted distinct values of an array. *)
Variable tf_log : F -> F.
Variable tf_self_adjoint_eig : matrix -> result (list F * matrix).
Variable np_unique : list F -> list F.

(** [[g(x) for x in xs]], stopping at the first exception. *)
Fixpoint comprehension {A B : Type} (g : A -> result B) (xs : list A)
  : result (list B) :=
  match xs with
  | [] => Ok []
  | x :: xs' => b <- g x ;; bs <- comprehension g xs' ;; Ok (b :: bs)
  end.

(** [tf.squeeze] of a matrix that is a single column or a single row, the
    shape of a Kronecker product of columns. *)
Definition tf_squeeze_m (m : matrix) : tensor := tf_squeeze (mdata m).

(** The three sums of [marginal], lines 303-305 and 307-309. *)
Definition marginal_sums (lik : Likelihood) (y_ f_ a_ m_ W_ eig_K : tensor)
  : result F :=
  d <- tsub f_ m_ ;;
  ad <- tmul a_ d ;;
  eW <- tmul eig_K W_ ;;
  one_eW <- tadd (T0 fone) eW ;;
  ll <- log_like lik y_ f_ ;;
  Ok (- lit_0_5 * tf_reduce_sum ad
      - lit_0_5 * tf_reduce_sum (tmap tf_log one_eW)
      + tf_reduce_sum ll)%F.

(** The eigenvalues of [K], line 291-292: one column per factor, combined
    by [kron_list]. *)
Definition marginal_eig_K (Ks_ : list matrix) : result tensor :=
  eigs <- comprehension
            (fun K =>
               e <- tf_self_adjoint_eig K ;; Ok (tf_expand_dims1 (fst e)))
            Ks_ ;;
  kl <- kron_list eigs ;;
  Ok (tf_squeeze_m kl).

(** [marginal], lines 274-309. *)
Definition marginal (self : KroneckerSolver) (Ks_new : option (list matrix))
  : result F :=
  let Ks_ := match Ks_new with
             | None => Ks self
             | Some Ks' => Ks'
             end in
  eig_K <- marginal_eig_K Ks_ ;;
  match mask self with
  | Some m =>
      y_lim <- tf_boolean_mask (y self) m ;;
      f_lim <- tf_boolean_mask (f self) m ;;
      alpha_lim <- tf_boolean_mask (alpha self) m ;;
      mu_lim <- tf_boolean_mask (mu self) m ;;
      W_lim <- tf_boolean_mask (W self) m ;;
      eig_k_lim <- tf_boolean_mask eig_K m ;;
      marginal_sums (likelihood self) y_lim f_lim alpha_lim mu_lim W_lim
        eig_k_lim
  | None =>
      marginal_sums (likelihood self) (y self) (f self) (alpha self) (mu self)
        (W self) eig_K
  end.

(** What a [for] statement or a comprehension is asked to iterate over:
    the integer [X.shape[1]] itself, or [range] of it. *)
Inductive iterable : Type :=
| PyInt (n : nat)
| PyRange (n : nat).

(** [iter(o)]: an [int] is not iterable. *)
Definition py_iter (o : iterable) : result (list nat) :=
  match o with
  | PyInt _ => Err TypeError
  | PyRange n => Ok (seq 0 n)
  end.

(** [X[:, d]] *)
Definition mcol (m : matrix) (d : nat) : list F :=
  map (fun i => mget m i d) (seq 0 (nrows m)).

(** [t[0]] *)
Definition tensor_head (t : tensor) : result F :=
  match t with
  | T1 (x :: _) => Ok x
  | _ => Err IndexError
  end.

(** [construct_Ks], lines 52-67. *)
Definition construct_Ks (self : KroneckerSolver) (kernel_ : option Kernel)
  : result (list matrix) :=
  let k := match kernel_ with
           | None => kernel self
           | Some k' => k'
           end in
  ds <- py_iter (PyRange (ncols (X self))) ;;
  comprehension
    (fun i =>
       kernel_eval k (tf_expand_dims1 (np_unique (mcol (X self) i))) None)
    ds.

(** [predict_mean], lines 328-337. *)
Definition predict_mean (self : KroneckerSolver) (x_new : matrix) : result F :=
  ds <- py_iter (PyInt (ncols (X self))) ;;
  k_dims <- comprehension
              (fun d => kernel_eval (kernel self)
                          (tf_expand_dims1 (np_unique (mcol (X self) d)))
                          (Some (tf_expand_dims1 (mcol x_new d))))
              ds ;;
  kl <- kron_list k_dims ;;
  let kx := tf_squeeze_m kl in
  ka <- tmul kx (alpha self) ;;
  m0 <- tensor_head (mu self) ;;
  Ok (tf_reduce_sum ka + m0)%F.

End Solver.

(** ** Construction of solvers *)

(** The exceptions of the code that builds a solver: those of the solver
    itself, and the one that reading an attribute before its assignment
    raises. *)
Inductive py_exn : Type :=
| AttributeError
| Raised (e : exn).

Inductive outcome (A : Type) : Type :=
| Returns (a : A)
| Raises (e : py_exn).

Arguments Returns {A} a.
Arguments Raises {A} e.

Definition outcome_bind {A B : Type} (c : outcome A) (k : A -> outcome B)
  : outcome B :=
  match c with
  | Returns a => k a
  | Raises e => Raises e
  end.

(** A computation of the solver, run by the code that builds it. *)
Definition lift {A : Type} (c : result A) : outcome A :=
  match c with
  | Ok a => Returns a
  | Err e => Raises (Raised e)
  end.

Declare Scope outcome_scope.
Delimit Scope outcome_scope with outcome.
Notation "x <- c ;; k" := (outcome_bind c (fun x => k))
  (at level 61, c at next level, right associativity) : outcome_scope.

(** The attributes [KroneckerSolver.__init__] assigns, lines 28-48. *)
Inductive attribute : Type :=
| a_kernel | a_mu | a_likelihood | a_Ks | a_K_eigs | a_k_diag | a_mask
| a_X | a_y | a_verbose | a_alpha | a_W | a_grads | a_opt | a_f | a_tau
| a_grad_func | a_hess_func.

Definition attribute_eq_dec (a b : attribute) : {a = b} + {a <> b}.
Proof. decide equality. Defined.

Section Construction.

Context {F : Type} `{Scalar F}.

Local Abbreviation tensor := (tensor F).
Local Abbreviation matrix := (matrix F).
Local Abbreviation KroneckerSolver := (@KroneckerSolver F).
Local Abbreviation Kernel := (@Kernel F).
Local Abbreviation Likelihood := (@Likelihood F).
Local Abbreviation CGOptimizer := (@CGOptimizer F).

Local Open Scope outcome_scope.

(** What each attribute holds. *)
Definition attribute_type (a : attribute) : Type :=
  match a with
  | a_kernel => Kernel
  | a_likelihood => Likelihood
  | a_Ks => list matrix
  | a_K_eigs => list (list F * matrix)
  | a_k_diag => option tensor
  | a_mask => option (list bool)
  | a_X => matrix
  | a_verbose => bool
  | a_opt => CGOptimizer
  | a_tau => F
  | a_grad_func | a_hess_func => tensor -> tensor -> result (list tensor)
  | a_mu | a_y | a_alpha | a_W | a_grads | a_f => tensor
  end.

(** The instance dictionary of an object under construction: an attribute
    has a value once it has been assigned. *)
Definition instance_dict : Type :=
  forall a : attribute, option (attribute_type a).

Definition new_instance : instance_dict := fun _ => None.

(** [self.a = v] *)
Definition setattr (self : instance_dict) (a : attribute)
  (v : attribute_type a) : instance_dict :=
  fun b =>
    match attribute_eq_dec a b with
    | left e => Some (eq_rect a attribute_type v b e)
    | right _ => self b
    end.

(** [self.a] *)
Definition getattr (self : instance_dict) (a : attribute)
  : outcome (attribute_type a) :=
  match self a with
  | Some v => Returns v
  | None => Raises AttributeError
  end.

Fixpoint outcome_comprehension {A B : Type} (g : A -> outcome B) (xs : list A)
  : outcome (list B) :=
  match xs with
  | [] => Returns []
  | x :: xs' =>
      b <- g x ;; bs <- outcome_comprehension g xs' ;; Returns (b :: bs)
  end.

Fixpoint outcome_for_each {X S : Type} (xs : list X)
  (body : X -> S -> outcome S) (s : S) : outcome S :=
  match xs with
  | [] => Returns s
  | x :: xs' => s' <- body x s ;; outcome_for_each xs' body s'
  end.

Variable tf_log : F -> F.
Variable tf_self_adjoint_eig : matrix -> result (list F * matrix).
Variable np_unique : list F -> list F.

(** [tfe.gradients_function(g, [1])], of a function that returns a tensor
    and of one that returns a list of tensors. *)
Variable tfe_gradients_function :
  (tensor -> tensor -> result tensor) ->
  tensor -> tensor -> result (list tensor).
Variable tfe_gradients_function_of_list :
  (tensor -> tensor -> result (list tensor)) ->
  tensor -> tensor -> result (list tensor).

(** [construct_Ks], lines 52-67, as a method of an object under
    construction: [self.kernel] and [self.X] are attribute reads. *)
Definition construct_Ks_method (self : instance_dict) (kernel_ : option Kernel)
  : outcome (list matrix) :=
  k <- match kernel_ with
       | None => getattr self a_kernel
       | Some k' => Returns k'
       end ;;
  X_ <- getattr self a_X ;;
  ds <- lift (py_iter (PyRange (ncols X_))) ;;
  outcome_comprehension
    (fun i =>
       X_i <- getattr self a_X ;;
       lift (kernel_eval k (tf_expand_dims1 (np_unique (mcol X_i i))) None))
    ds.

(** [KroneckerSolver.__init__], lines 17-48. *)
Definition KroneckerSolver_init (mu_ : tensor) (kernel_ : Kernel)
  (likelihood_ : Likelihood) (X_ : matrix) (y_ : tensor) (tau_ : F)
  (k_diag_ : option tensor) (mask_ : option (list bool)) (verbose_ : bool)
  : outcome instance_dict :=
  let self := setattr new_instance a_kernel kernel_ in
  let self := setattr self a_mu mu_ in
  let self := setattr self a_likelihood likelihood_ in
  Ks_ <- construct_Ks_method self None ;;
  let self := setattr self a_Ks Ks_ in
  Ks' <- getattr self a_Ks ;;
  eigs <- lift (comprehension tf_self_adjoint_eig Ks') ;;
  let self := setattr self a_K_eigs eigs in
  let self := setattr self a_k_diag k_diag_ in
  let self := setattr self a_mask mask_ in
  let self := setattr self a_X X_ in
  let self := setattr self a_y y_ in
  let self := setattr self a_verbose verbose_ in
  let self := setattr self a_alpha (tf_zeros (nrows X_)) in
  let self := setattr self a_W (tf_zeros (nrows X_)) in
  let self := setattr self a_grads (tf_zeros (nrows X_)) in
  let self := setattr self a_opt (CGOptimizer_init None) in
  m <- getattr self a_mu ;;
  let self := setattr self a_f m in
  let self := setattr self a_tau tau_ in
  lik <- getattr self a_likelihood ;;
  let self :=
    setattr self a_grad_func (tfe_gradients_function (log_like lik)) in
  g <- getattr self a_grad_func ;;
  let self := setattr self a_hess_func (tfe_gradients_function_of_list g) in
  Returns self.

(** The solver as its methods read it: every attribute they use, looked up
    in the instance dictionary. *)
Definition solver_of (self : instance_dict) : outcome KroneckerSolver :=
  kernel_ <- getattr self a_kernel ;;
  mu_ <- getattr self a_mu ;;
  likelihood_ <- getattr self a_likelihood ;;
  Ks_ <- getattr self a_Ks ;;
  k_diag_ <- getattr self a_k_diag ;;
  mask_ <- getattr self a_mask ;;
  X_ <- getattr self a_X ;;
  y_ <- getattr self a_y ;;
  alpha_ <- getattr self a_alpha ;;
  W_ <- getattr self a_W ;;
  grads_ <- getattr self a_grads ;;
  opt_ <- getattr self a_opt ;;
  f_ <- getattr self a_f ;;
  tau_ <- getattr self a_tau ;;
  grad_func_ <- getattr self a_grad_func ;;
  hess_func_ <- getattr self a_hess_func ;;
  Returns (mk_KroneckerSolver kernel_ mu_ likelihood_ Ks_ k_diag_ mask_ X_ y_
             alpha_ W_ grads_ opt_ f_ tau_ grad_func_ hess_func_).

(** ** KernelLearner *)

(** The fields [KernelLearner.__init__] assigns, lines 444-455.  [kernel]
    is a kernel class: calling it on parameters builds a kernel. *)
Record KernelLearner : Type := mk_KernelLearner {
  kl_kernel : list F -> result Kernel;
  kl_mu : tensor;
  kl_likelihood : Likelihood;
  kl_X : matrix;
  kl_y : tensor;
  kl_tau : F;
  kl_k_diag : option tensor;
  kl_mask : option (list bool);
  kl_eps : list F
}.

(** [optimize_marginal], lines 457-459. *)
Definition optimize_marginal (self : KernelLearner) (init_params : list F)
  : Z := 0.

(** [get_marginal], lines 483-490. *)
Definition get_marginal (self : KernelLearner) (params : list F) : outcome F :=
  kernel_ <- lift (kl_kernel self params) ;;
  solver <- KroneckerSolver_init (kl_mu self) kernel_ (kl_likelihood self)
              (kl_X self) (kl_y self) (kl_tau self) (kl_k_diag self)
              (kl_mask self) false ;;
  s <- solver_of solver ;;
  out <- lift (run s 10) ;;
  lift (marginal tf_log tf_self_adjoint_eig (nv_self out) None).

(** [xs[i] = v] on a list that has an index [i]. *)
Fixpoint setitem {A : Type} (xs : list A) (i : nat) (v : A) : list A :=
  match xs, i with
  | [], _ => []
  | _ :: xs', O => v :: xs'
  | x :: xs', S i' => x :: setitem xs' i' v
  end.

(** [finite_difference], lines 469-481.  [deepcopy] of a list of floats is
    the list. *)
Definition finite_difference (self : KernelLearner) (epsilon : F)
  (params : list F) (i : nat) : outcome F :=
  let param_step := params in
  p_i <- lift (getitem param_step i) ;;
  e_i <- lift (getitem (kl_eps self) i) ;;
  let param_step := setitem param_step i (p_i + e_i)%F in
  marg_plus <- get_marginal self param_step ;;
  p_i <- lift (getitem param_step i) ;;
  e_i <- lift (getitem (kl_eps self) i) ;;
  let param_step := setitem param_step i (p_i - of_int 2 * e_i)%F in
  marg_minus <- get_marginal self param_step ;;
  e_i <- lift (getitem (kl_eps self) i) ;;
  Returns ((marg_plus - marg_minus) / (of_int 2 * e_i))%F.

(** [gradient_step], lines 461-467: the loop keeps the last [fin_diff],
    and the method returns [0]. *)
Definition gradient_step (self : KernelLearner) (params : list F) : outcome Z :=
  _ <- outcome_for_each (seq 0 (length params))
         (fun i _ =>
            e_i <- lift (getitem (kl_eps self) i) ;;
            fin_diff <- finite_difference self e_i params i ;;
            Returns (Some fin_diff))
         None ;;
  Returns 0%Z.

End Construction.

(** * Vocabulary of the properties *)

(** ** Runs of a loop *)

Section Runs.

Context {S : Type}.
Variable cond : S -> bool.
Variable body : S -> result S.

(** [k] rounds of the body, one after another. *)
Fixpoint iterate (k : nat) (s : S) : result S :=
  match k with
  | O => Ok s
  | Datatypes.S k' => s' <- body s ;; iterate k' s'
  end.

(** The loop leaves [s] after exactly [k] rounds, in [s']: the test held
    before each round and fails in [s']. *)
Inductive while_run : S -> nat -> S -> Prop :=
| while_stop s : cond s = false -> while_run s 0 s
| while_round s s1 k s' :
    cond s = true -> body s = Ok s1 -> while_run s1 k s' ->
    while_run s (Datatypes.S k) s'.

End Runs.

(** ** Laws of the scalars *)

(** What the descent argument asks of the scalars: a commutative
    multiplication and a strict order.  IEEE numbers have both; the
    rationals are shown to below. *)
Class ScalarLaws (F : Type) `{Scalar F} : Prop := {
  fmul_comm : forall a b : F, (a * b)%F = (b * a)%F;
  fgt_irrefl : forall a : F, fgt a a = false;
  fgt_trans :
    forall a b c : F, fgt a b = true -> fgt b c = true -> fgt a c = true
}.

Section Vocabulary.

Context {F : Type} `{Scalar F}.

Local Abbreviation tensor := (tensor F).
Local Abbreviation matrix := (matrix F).
Local Abbreviation KroneckerSolver := (@KroneckerSolver F).
Local Abbreviation cg_vars := (@cg_vars F).
Local Abbreviation ls_vars := (@ls_vars F).

(** ** Tensors *)

(** The scalars of a tensor, in order. *)
Definition entries (t : tensor) : list F :=
  match t with
  | T0 x => [x]
  | T1 v => v
  end.

Definition no_nan (t : tensor) : Prop :=
  Forall (fun x => fis_nan x = false) (entries t).

(** A rank-1 tensor of length [n]. *)
Definition is_vec (n : nat) (t : tensor) : Prop :=
  exists l, t = T1 l /\ length l = n.

(** ** The Newton iteration *)

(** The objective of an iteration: lines 83-97 of [step], the latent
    values at the current [alpha] and the objective there. *)
Definition objective (self : KroneckerSolver) : result F :=
  f_ <- step_f self ;; step_psi (set_f self f_).

(** The direction and the step size that [step] computes, lines 83-119. *)
Definition step_search (self : KroneckerSolver) : result (tensor * F) :=
  f_ <- step_f self ;;
  psi <- step_psi (set_f self f_) ;;
  r <- step_direction (set_f self f_) psi ;;
  Ok (snd (fst r), snd r).

(** Two solvers with the same factors, mean, diagonal, mask, observations
    and likelihood. *)
Definition same_config (s1 s2 : KroneckerSolver) : Prop :=
  Ks s1 = Ks s2 /\ mu s1 = mu s2 /\ k_diag s1 = k_diag s2
  /\ mask s1 = mask s2 /\ y s1 = y s2 /\ likelihood s1 = likelihood s2.

(** ** Conjugate gradients *)

(** The shapes [cg] keeps: every loop variable is a vector of the length of
    [b], and [z] is set whenever a preconditioner is. *)
Definition cg_shapes (n : nat) (v : cg_vars) : Prop :=
  is_vec n (cg_p v) /\ is_vec n (cg_x v) /\ is_vec n (cg_r v)
  /\ match cg_precondition v with
     | Some pre => is_vec n pre /\ exists z, cg_z v = Some z /\ is_vec n z
     | None => True
     end.

(** An operator that maps vectors of length [n] to vectors of length [n]. *)
Definition maps_vec (n : nat) (prod : tensor -> result tensor) : Prop :=
  forall p, is_vec n p -> exists q, prod p = Ok q /\ is_vec n q.

(** ** Line search *)

(** The candidate step size of round [j]: [5.0], multiplied [j] times by
    [tau]. *)
Definition ls_step (self : KroneckerSolver) (j : nat) : F :=
  Nat.iter j (fmul (tau self)) lit_5_0.

(** [obj_search] as round [j] finds it, when the objective of the
    candidate of round [i] is [obj i]: the previous candidate's objective,
    [sys.float_info.max] before the first round. *)
Definition ls_last (obj : nat -> F) (j : nat) : F :=
  match j with
  | O => float_info_max
  | S i => obj i
  end.

(** The continuation rule, read before round [j] (the iteration counter
    [t] is then [j + 1]). *)
Definition ls_goes_on (self : KroneckerSolver) (obj_prev : F) (obj : nat -> F)
  (max_it : Z) (j : nat) : bool :=
  Z.ltb (Z.of_nat j + 1) max_it
  && flt (obj_prev - ls_last obj j)%F
         (ls_step self j * of_int (Z.of_nat j + 1))%F.

(** The running minimum over the first [k] candidates and the step size
    that reached it; a candidate replaces the minimum only when strictly
    below it. *)
Fixpoint ls_best (self : KroneckerSolver) (obj_prev : F) (obj : nat -> F)
  (k : nat) : F * F :=
  match k with
  | O => (obj_prev, fzero)
  | S j =>
      if fgt (fst (ls_best self obj_prev obj j)) (obj j)
      then (obj j, ls_step self j)
      else ls_best self obj_prev obj j
  end.

(** The loop variables before round [j]. *)
Definition ls_state (self : KroneckerSolver)
  (alpha_ delta_alpha y_ mu_ : tensor) (obj_prev : F) (obj : nat -> F)
  (max_it : Z) (j : nat) : ls_vars :=
  mk_ls_vars obj_prev (ls_last obj j) (fst (ls_best self obj_prev obj j))
    alpha_ delta_alpha y_ (ls_step self j) (sum_sq alpha_) max_it
    (Z.of_nat j + 1) mu_ (snd (ls_best self obj_prev obj j)).

(** What the line search keeps: a minimum not above the starting
    objective, which is the starting objective itself with the step size
    [0.0], or the objective of the candidate at the step size kept. *)
Definition ls_post (self : KroneckerSolver) (alpha_ delta_alpha y_ mu_ : tensor)
  (obj_prev : F) (v : ls_vars) : Prop :=
  ls_alpha v = alpha_ /\ ls_delta_alpha v = delta_alpha /\ ls_y v = y_
  /\ ls_mu v = mu_ /\ ls_obj_prev v = obj_prev
  /\ fgt (ls_min_obj v) obj_prev = false
  /\ ((ls_opt_step v = fzero /\ ls_min_obj v = obj_prev)
      \/ search_objective self alpha_ delta_alpha y_ mu_ (ls_opt_step v)
         = Ok (ls_min_obj v)).

(** ** Marginal likelihood *)

(** The products of every entry of [u] with every entry of [v], the
    entries of [u] varying slowest: the Kronecker product of two columns. *)
Definition outer (u v : list F) : list F :=
  flat_map (fun a => map (fmul a) v) u.

(** The eigenvalues of [K], factor by factor from the left. *)
Definition eig_product (e0 e1 : list F) (rest : list (list F)) : list F :=
  fold_left outer rest (outer e0 e1).

(** The factors [Ks_] have the eigenvalues [es], in order. *)
Definition eigenvalues_of
  (tf_self_adjoint_eig : matrix -> result (list F * matrix))
  (Ks_ : list matrix) (es : list (list F)) : Prop :=
  Forall2 (fun K e => exists V, tf_self_adjoint_eig K = Ok (e, V)) Ks_ es.

(** The entries a mask keeps; all of them when there is no mask. *)
Definition sel (m : option (list bool)) (l : list F) : list F :=
  match m with
  | None => l
  | Some b => mask_select l b
  end.

(** The formula of the Laplace marginal likelihood on vectors: three sums
    over the same entries. *)
Definition laplace_formula (tf_log : F -> F) (av fv mv ev Wv : list F)
  (ll : tensor) (m : option (list bool)) : F :=
  (- lit_0_5 * sum_list (sel m (zip_with fmul av (zip_with fsub fv mv)))
   - lit_0_5 * sum_list
                 (sel m (map tf_log (map (fadd fone) (zip_with fmul ev Wv))))
   + tf_reduce_sum ll)%F.

End Vocabulary.

(** ** Shapes, tables and invariants *)

Section Shapes.

Context {F : Type} `{Scalar F}.

Local Abbreviation tensor := (tensor F).
Local Abbreviation matrix := (matrix F).
Local Abbreviation KroneckerSolver := (@KroneckerSolver F).
Local Abbreviation newton_vars := (@newton_vars F).
Local Abbreviation ls_vars := (@ls_vars F).
Local Abbreviation cg_vars := (@cg_vars F).

(** A matrix whose buffer has as many entries as its shape says, as every
    TensorFlow tensor has. *)
Definition wf_matrix (m : matrix) : Prop :=
  length (mdata m) = nrows m * ncols m.

(** The Kronecker product as a table: block [(i, j)] is [A[i, j] * B]. *)
Definition kron_table (A B : matrix) (s t : nat) : F :=
  (mget A (s / nrows B) (t / ncols B)
   * mget B (s mod nrows B) (t mod ncols B))%F.

(** The product of one dimension over a list of matrices. *)
Definition dims_product (dim : matrix -> nat) (ms : list matrix) : nat :=
  fold_right Nat.mul 1 (map dim ms).

(** A square factor of size at least two. *)
Definition proper_factor (K : matrix) : Prop :=
  ncols K = nrows K /\ 2 <= nrows K.

(** One pass of the loop of [kron_mvp], line 552. *)
Definition kron_mvp_pass (V_rows V_cols : nat) (k mvp : matrix)
  : result matrix :=
  p <- tf_matmul k mvp ;;
  tf_reshape2 (mdata (tf_transpose p)) V_rows V_cols.

(** The shapes the passes of [kron_mvp] accept, for an [mvp] of shape
    [[r, c]]: a factor has as many columns as [mvp] has rows, and the
    transposed product has [V_rows * V_cols] entries; after a pass [mvp]
    has the shape [[V_rows, V_cols]]. *)
Fixpoint passes_fit (V_rows V_cols r c : nat) (ks : list matrix) : bool :=
  match ks with
  | [] => true
  | k :: ks' =>
      Nat.eqb (ncols k) r && Nat.eqb (V_rows * V_cols) (c * nrows k)
      && passes_fit V_rows V_cols V_rows V_cols ks'
  end.

(** What the shapes have to satisfy for [kron_mvp] to return: a first
    factor with rows, a rank-1 [v] whose length is a multiple of their
    number, and passes that fit, the last factor first. *)
Definition kron_mvp_fits (Ks_ : list matrix) (v : tensor) : Prop :=
  exists K0 l,
    nth_error Ks_ 0 = Some K0 /\ v = T1 l
    /\ nrows K0 <> 0
    /\ nrows K0 * (length l / nrows K0) = length l
    /\ passes_fit (nrows K0) (length l / nrows K0)
         (length l / nrows K0) (nrows K0) (rev Ks_) = true.

(** Entry [(i, j)] of the product of the Kronecker product of [A] and [B]
    with [v], for [v] read as a table of [ncols B] columns:
    [sum_i' A[i, i'] * (sum_j' B[j, j'] * v[i', j'])], each sum in the
    order of [tf.matmul]. *)
Definition kron_mvp_entry (A B : matrix) (l : list F) (i j : nat) : F :=
  sum_list
    (map (fun i' =>
            (mget A i i'
             * sum_list
                 (map (fun j' =>
                         (mget B j j' * nth (i' * ncols B + j') l fzero)%F)
                      (seq 0 (ncols B))))%F)
         (seq 0 (ncols A))).

(** The loop variables [run] starts from, lines 161-163. *)
Definition newton_init (self : KroneckerSolver) (max_it : Z) : newton_vars :=
  mk_newton_vars self max_it 0 float_info_max float_info_max.

(** Two solvers that differ at most in [alpha], [f], [grads] and [W], the
    attributes an iteration assigns. *)
Definition same_setup (s1 s2 : KroneckerSolver) : Prop :=
  same_config s1 s2
  /\ kernel s1 = kernel s2 /\ X s1 = X s2 /\ opt s1 = opt s2
  /\ tau s1 = tau s2 /\ grad_func s1 = grad_func s2
  /\ hess_func s1 = hess_func s2.

(** What the loop of [line_search] keeps, whatever the candidates do: the
    round it is in, and a best step that is [0.0] or the step size of an
    earlier round, with the objective of that candidate. *)
Definition ls_tracks (self : KroneckerSolver)
  (alpha_ delta_alpha y_ mu_ : tensor) (obj_prev : F) (max_it : Z)
  (v : ls_vars) : Prop :=
  ls_alpha v = alpha_ /\ ls_delta_alpha v = delta_alpha /\ ls_y v = y_
  /\ ls_mu v = mu_ /\ ls_max_it v = max_it
  /\ exists j,
       ls_t v = (Z.of_nat j + 1)%Z
       /\ ls_step_size v = ls_step self j
       /\ ((ls_opt_step v = fzero /\ ls_min_obj v = obj_prev)
           \/ exists i,
                (Z.of_nat i + 1 < max_it)%Z
                /\ ls_opt_step v = ls_step self i
                /\ search_objective self alpha_ delta_alpha y_ mu_
                     (ls_step self i) = Ok (ls_min_obj v)).

(** An operator on vectors of length [n] that is linear along a line:
    [M (x + a p) = M x + a (M p)]. *)
Definition linear_on (n : nat) (prod : tensor -> result tensor) : Prop :=
  forall xl pl Mx Mp a,
    length xl = n -> length pl = n ->
    prod (T1 xl) = Ok (T1 Mx) -> prod (T1 pl) = Ok (T1 Mp) ->
    prod (T1 (zip_with fadd xl (map (fmul a) pl)))
    = Ok (T1 (zip_with fadd Mx (map (fmul a) Mp))).

(** The residual that [cg] carries is the residual of the iterate that it
    carries: [r = b - M x]. *)
Definition cg_true_residual (prod : tensor -> result tensor) (b : tensor)
  (v : cg_vars) : Prop :=
  exists Mx, prod (cg_x v) = Ok Mx /\ tsub b Mx = Ok (cg_r v).

End Shapes.

(** * Closed examples *)

(** ** Identity factors *)

Module KronExamples.

Local Open Scope float_scope.

Definition eye2 : matrix float := mk_matrix 2 2 [1; 0; 0; 1].
Definition eye3 : matrix float := mk_matrix 3 3 [1; 0; 0; 0; 1; 0; 0; 0; 1].
Definition v6 : list float := [0; 1; 2; 3; 4; 5].
Definition v8 : list float := [0; 1; 2; 3; 4; 5; 6; 7].

End KronExamples.

(** ** A 2 x 2 grid on binary64 numbers *)

Module FloatExamples.

Local Open Scope float_scope.

(** Two factors of size 2, four latent values. *)
Definition K2 : matrix float := mk_matrix 2 2 [1; 0.5; 0.5; 1].
Definition grid : matrix float := mk_matrix 4 2 [0; 0; 0; 1; 1; 0; 1; 1].
Definition zeros4 : tensor float := T1 [0; 0; 0; 0].
Definition ones4 : tensor float := T1 [1; 1; 1; 1].
Definition y4 : tensor float := T1 [1; 2; 3; 4].

Definition rbf : Kernel (F := float) := mk_Kernel (fun a _ => Ok a).

(** A Gaussian likelihood of unit variance, with its two derivatives. *)
Definition gaussian : Likelihood (F := float) :=
  mk_Likelihood
    (fun y_ f_ => d <- tsub y_ f_ ;; dd <- tmul d d ;; tmul (T0 (-0.5)) dd).
Definition gaussian_grad (y_ f_ : tensor float)
  : result (list (tensor float)) :=
  d <- tsub y_ f_ ;; Ok [d].
Definition gaussian_hess (y_ f_ : tensor float)
  : result (list (tensor float)) :=
  Ok [tmap (fun _ => -1) f_].

(** A likelihood that is linear in [f], [log_like(y, f) = y * f]: its
    gradient is [y] and it has no curvature anywhere. *)
Definition linear : Likelihood (F := float) :=
  mk_Likelihood (fun y_ f_ => tmul y_ f_).
Definition linear_grad (y_ f_ : tensor float) : result (list (tensor float)) :=
  Ok [y_].
Definition linear_hess (y_ f_ : tensor float) : result (list (tensor float)) :=
  Ok [tmap (fun _ => 0) f_].

(** A solver at [alpha = 0], with [CGOptimizer()] as the constructor
    leaves it. *)
Definition bare (lik : Likelihood (F := float)) (y_ : tensor float)
  (d : option (tensor float))
  (grad hess : tensor float -> tensor float -> result (list (tensor float)))
  : KroneckerSolver (F := float) :=
  mk_KroneckerSolver rbf zeros4 lik [K2; K2] d None grid y_ zeros4 ones4
    zeros4 (mk_CGOptimizer None) zeros4 0.5 grad hess.

(** The solver [s] with its own method [cg_prod] given to its optimizer,
    read at the curvature weight [w]. *)
Definition with_cg_prod (s : KroneckerSolver (F := float)) (w : tensor float)
  : KroneckerSolver (F := float) :=
  mk_KroneckerSolver (kernel s) (mu s) (likelihood s) (Ks s) (k_diag s)
    (mask s) (X s) (y s) (alpha s) (W s) (grads s)
    (mk_CGOptimizer (Some (KroneckerSolver_cg_prod (set_W s w)))) (f s)
    (tau s) (grad_func s) (hess_func s).

Definition start (s : KroneckerSolver (F := float)) : newton_vars :=
  mk_newton_vars s 10 0 float_info_max float_info_max.

Definition after (r : result (newton_vars (F := float)))
  (v : newton_vars (F := float)) : newton_vars :=
  match r with
  | Ok v' => v'
  | Err _ => v
  end.

Definition plain : KroneckerSolver (F := float) :=
  with_cg_prod (bare gaussian y4 None gaussian_grad gaussian_hess) ones4.
Definition plain1 : newton_vars := after (step (start plain)) (start plain).

Definition lin : KroneckerSolver (F := float) :=
  with_cg_prod (bare linear (T1 [-1; -1; -1; -1]) None linear_grad linear_hess)
    (T1 [-0; -0; -0; -0]).
Definition lin1 : newton_vars := after (step (start lin)) (start lin).

Definition nugget : tensor float := T1 [0.5; 0.5; 0.5; 0.5].
Definition diag : KroneckerSolver (F := float) :=
  with_cg_prod (bare gaussian y4 (Some nugget) gaussian_grad gaussian_hess)
    ones4.
Definition diag_out : newton_vars := after (run diag 10) (start diag).

(** Two operators for [cg]: twice the identity, and zero. *)
Definition twice (p : tensor float) : result (tensor float) := tmul (T0 2) p.

(** The objectives of the candidates of the first line search of [plain]. *)
Definition plain_direction : tensor float :=
  match step_search plain with
  | Ok r => fst r
  | Err _ => zeros4
  end.
Definition plain_candidate (j : nat) : float :=
  match search_objective plain zeros4 plain_direction y4 zeros4
          (ls_step plain j) with
  | Ok c => c
  | Err _ => 0
  end.

(** A mask on the grid, the eigenvalues of a symmetric 2 x 2 matrix with a
    constant diagonal, and three terms of the series of the logarithm:
    stand-ins for [tf.self_adjoint_eig] and [tf.log] in the examples. *)
Definition held_out : list bool := [true; false; true; true].
Definition eig2 (K : matrix float) : result (list float * matrix float) :=
  Ok ([mget K 0 0 - mget K 0 1; mget K 0 0 + mget K 0 1],
      mk_matrix 2 2 [sqrt 0.5; sqrt 0.5; - sqrt 0.5; sqrt 0.5]).
Definition log3 (x : float) : float :=
  let t := (x - 1) / (x + 1) in
  2 * (t + t * t * t / 3 + t * t * t * t * t / 5).

Definition masked : KroneckerSolver (F := float) :=
  mk_KroneckerSolver rbf zeros4 gaussian [K2; K2] None (Some held_out) grid y4
    (T1 [0.5; 0.25; 0; 1]) ones4 zeros4 (mk_CGOptimizer None)
    (T1 [1; 0.5; 0.75; 2]) 0.5 gaussian_grad gaussian_hess.
Definition masked_ll : tensor float :=
  match log_like gaussian (T1 [1; 3; 4]) (T1 [1; 0.75; 2]) with
  | Ok t => t
  | Err _ => zeros4
  end.

(** One factor only. *)
Definition single : KroneckerSolver (F := float) :=
  mk_KroneckerSolver rbf (T1 [0; 0]) gaussian [K2] None None
    (mk_matrix 2 1 [0; 1]) (T1 [1; 2]) (T1 [0; 0]) (T1 [1; 1]) (T1 [0; 0])
    (mk_CGOptimizer None) (T1 [0; 0]) 0.5 gaussian_grad gaussian_hess.

End FloatExamples.

(** ** The same grid on rationals *)

Module RationalExamples.

Definition q (n : Z) (d : positive) : Qc := Q2Qc (n # d)%Q.

Definition K2 : matrix Qc := mk_matrix 2 2 [q 1 1; q 1 2; q 1 2; q 1 1].
Definition grid : matrix Qc :=
  mk_matrix 4 2 [q 0 1; q 0 1; q 0 1; q 1 1; q 1 1; q 0 1; q 1 1; q 1 1].
Definition zeros4 : tensor Qc := T1 [q 0 1; q 0 1; q 0 1; q 0 1].
Definition ones4 : tensor Qc := T1 [q 1 1; q 1 1; q 1 1; q 1 1].
Definition y4 : tensor Qc := T1 [q 1 1; q 2 1; q 3 1; q 4 1].

Definition rbf : Kernel (F := Qc) := mk_Kernel (fun a _ => Ok a).

Definition gaussian : Likelihood (F := Qc) :=
  mk_Likelihood
    (fun y_ f_ => d <- tsub y_ f_ ;; dd <- tmul d d ;; tmul (T0 (q (-1) 2)) dd).
Definition gaussian_grad (y_ f_ : tensor Qc) : result (list (tensor Qc)) :=
  d <- tsub y_ f_ ;; Ok [d].
Definition gaussian_hess (y_ f_ : tensor Qc) : result (list (tensor Qc)) :=
  Ok [tmap (fun _ => q (-1) 1) f_].

Definition solver (cg_operator : option (tensor Qc -> result (tensor Qc)))
  : KroneckerSolver (F := Qc) :=
  mk_KroneckerSolver rbf zeros4 gaussian [K2; K2] None None grid y4 zeros4
    ones4 zeros4 (mk_CGOptimizer cg_operator) zeros4 (q 1 2) gaussian_grad
    gaussian_hess.

(** The solver with its own [cg_prod] given to its optimizer, at [W = 1]. *)
Definition plain : KroneckerSolver (F := Qc) :=
  solver (Some (KroneckerSolver_cg_prod (solver None))).

Definition start : newton_vars (F := Qc) :=
  mk_newton_vars plain 10 0 float_info_max float_info_max.

Definition after (r : result (newton_vars (F := Qc)))
  (v : newton_vars (F := Qc)) : newton_vars :=
  match r with
  | Ok v' => v'
  | Err _ => v
  end.

Definition plain1 : newton_vars (F := Qc) := after (step start) start.

Definition search1 : tensor Qc * Qc :=
  match step_search plain with
  | Ok r => r
  | Err _ => (zeros4, q 0 1)
  end.

End RationalExamples.

(** ** A grid of one point, and an operator on rationals *)

Module OnePointExamples.

Local Open Scope float_scope.

(** Two factors of size 1 and the mask that keeps the one latent value. *)
Definition K1 : matrix float := mk_matrix 1 1 [2].
Definition eig1 (K : matrix float) : result (list float * matrix float) :=
  Ok ([mget K 0 0], mk_matrix 1 1 [1]).
Definition tiny : KroneckerSolver (F := float) :=
  mk_KroneckerSolver FloatExamples.rbf (T1 [0]) FloatExamples.gaussian
    [K1; K1] None (Some [true]) (mk_matrix 1 2 [0; 0]) (T1 [1]) (T1 [0.5])
    (T1 [1]) (T1 [0]) (mk_CGOptimizer None) (T1 [2]) 0.5
    FloatExamples.gaussian_grad FloatExamples.gaussian_hess.

End OnePointExamples.

Module ExactExamples.

(** Twice the identity, on rationals. *)
Definition twice (p : tensor Qc) : result (tensor Qc) :=
  tmul (T0 (RationalExamples.q 2 1)) p.

Definition b2 : tensor Qc :=
  T1 [RationalExamples.q 1 1; RationalExamples.q 2 1].

Definition v4 : list Qc :=
  [RationalExamples.q 1 1; RationalExamples.q 2 1; RationalExamples.q 3 1;
   RationalExamples.q 4 1].

End ExactExamples.

(** * Properties *)

(** ** The error monad and the loops *)

Lemma bind_Ok {A B : Type} (c : result A) (k : A -> result B) (b : B) :
  bind c k = Ok b <-> exists a, c = Ok a /\ k a = Ok b.
Proof.
  destruct c as [a|e]; simpl; split.
  - intros Hk. exists a. split; [reflexivity | exact Hk].
  - intros (a' & Ha & Hk). injection Ha as ->. exact Hk.
  - discriminate.
  - intros (a' & Ha & _). discriminate.
Qed.

Ltac bind_inv Hb :=
  let a := fresh "a" in
  let Ha := fresh "H" a in
  apply bind_Ok in Hb; destruct Hb as (a & Ha & Hb).

Section WhileLoop.

Context {S : Type}.
Variable measure : S -> nat.
Variable cond : S -> bool.
Variable body : S -> result S.

Hypothesis cond_measure : forall s, cond s = true -> measure s <> O.
Hypothesis body_measure :
  forall s s', cond s = true -> body s = Ok s' -> measure s' < measure s.

Lemma while_iter_enough (n m : nat) :
  forall s, measure s <= n -> measure s <= m ->
  while_iter n cond body s = while_iter m cond body s.
Proof.
  revert m. induction n as [|n IH]; intros m s Hn Hm.
  - assert (Hc : cond s = false).
    { destruct (cond s) eqn:E; [|reflexivity].
      apply cond_measure in E. lia. }
    destruct m; simpl; rewrite ?Hc; reflexivity.
  - destruct m as [|m]; simpl.
    + destruct (cond s) eqn:E; [|reflexivity].
      apply cond_measure in E. lia.
    + destruct (cond s) eqn:E; [|reflexivity].
      destruct (body s) as [s1|e] eqn:Eb; simpl; [|reflexivity].
      pose proof (body_measure _ _ E Eb).
      apply IH; lia.
Qed.

(** The equation of [while cond(s): s = body(s)]. *)
Lemma while_loop_unfold (s : S) :
  while_loop measure cond body s =
  if cond s then s' <- body s ;; while_loop measure cond body s' else Ok s.
Proof.
  unfold while_loop.
  destruct (measure s) as [|n] eqn:En; simpl.
  - destruct (cond s) eqn:E; [|reflexivity].
    apply cond_measure in E. lia.
  - destruct (cond s) eqn:E; [|reflexivity].
    destruct (body s) as [s1|e] eqn:Eb; simpl; [|reflexivity].
    pose proof (body_measure _ _ E Eb).
    apply while_iter_enough; lia.
Qed.

Lemma while_loop_run (s s' : S) :
  while_loop measure cond body s = Ok s' ->
  exists k, while_run cond body s k s'.
Proof.
  remember (measure s) as n eqn:En.
  revert s s' En.
  induction n as [n IH] using (well_founded_induction lt_wf).
  intros s s' En Hw.
  rewrite while_loop_unfold in Hw.
  destruct (cond s) eqn:E.
  - bind_inv Hw.
    pose proof (body_measure _ _ E Ha) as Hlt.
    destruct (IH (measure a) ltac:(lia) a s' eq_refl Hw) as (k & Hk).
    exists (Datatypes.S k). eapply while_round; eassumption.
  - injection Hw as <-. exists 0. apply while_stop. exact E.
Qed.

Lemma while_run_loop (s s' : S) (k : nat) :
  while_run cond body s k s' -> while_loop measure cond body s = Ok s'.
Proof.
  induction 1 as [s E | s s1 k s' E Eb _ IH]; rewrite while_loop_unfold, E.
  - reflexivity.
  - rewrite Eb. exact IH.
Qed.

(** A run of [k] rounds is [iterate body k], stops on a failed test, and met a
    successful test before each of its rounds. *)
Lemma while_run_iterate (s s' : S) (k : nat) :
  while_run cond body s k s' ->
  iterate body k s = Ok s' /\ cond s' = false /\
  forall j, j < k -> exists sj, iterate body j s = Ok sj /\ cond sj = true.
Proof.
  induction 1 as [s E | s s1 k s' E Eb _ (IH1 & IH2 & IH3)].
  - repeat split; [exact E | intros j Hj; lia].
  - repeat split.
    + simpl. rewrite Eb. exact IH1.
    + exact IH2.
    + intros [|j] Hj.
      * exists s. split; [reflexivity | exact E].
      * destruct (IH3 j ltac:(lia)) as (sj & H1 & H2).
        exists sj. simpl. rewrite Eb. split; assumption.
Qed.

(** An invariant of the body holds when the loop is left. *)
Lemma while_run_invariant (P : S -> Prop) :
  (forall s s1, cond s = true -> body s = Ok s1 -> P s -> P s1) ->
  forall s k s', while_run cond body s k s' -> P s -> P s'.
Proof.
  intros Hstep s k s' Hrun.
  induction Hrun as [s E | s s1 k s' E Eb _ IH]; intros HP.
  - exact HP.
  - apply IH. eapply Hstep; eassumption.
Qed.

End WhileLoop.

(** ** Kronecker matrix-vector product *)

(** C1, evaluated where it fails.  With the identity factors of sizes 2 and
    3 the dense product [kron_list(Ks) . v] is [v], but [kron_mvp] returns a
    permutation of [v]: every pass reshapes to the one shape
    [[V_rows, V_cols]] fixed by the first factor, whatever the size of the
    factor at hand.  With three factors of size 2 the first [tf.matmul]
    already refuses its operands. *)
Theorem kron_mvp_unequal_factors :
  kron_mvp [KronExamples.eye2; KronExamples.eye3] (T1 KronExamples.v6)
  = Ok (T1 [0; 4; 3; 2; 1; 5]%float)
  /\ (K <- kron_list [KronExamples.eye2; KronExamples.eye3] ;;
      dense_mvp K KronExamples.v6) = Ok KronExamples.v6
  /\ kron_mvp [KronExamples.eye2; KronExamples.eye2; KronExamples.eye2]
       (T1 KronExamples.v8) = Err InvalidArgumentError.
Proof.
  repeat split; vm_compute; reflexivity.
Qed.

(** ** Newton iteration *)

Section NewtonStep.

Context {F : Type} `{Scalar F}.

Local Abbreviation tensor := (tensor F).
Local Abbreviation KroneckerSolver := (@KroneckerSolver F).
Local Abbreviation newton_vars := (@newton_vars F).

(** [step_direction] assigns [grads] and [W] and nothing else. *)
Lemma step_direction_fields (self self1 : KroneckerSolver) (psi : F)
  (delta_alpha : tensor) (step_size : F) :
  step_direction self psi = Ok (self1, delta_alpha, step_size) ->
  exists g w, self1 = set_W (set_grads self g) w.
Proof.
  unfold step_direction. intros Hd.
  repeat bind_inv Hd.
  injection Hd as <- _ _.
  eexists _, _. reflexivity.
Qed.

(** The stages of one [step], in order. *)
Lemma step_inv (v v' : newton_vars) :
  step v = Ok v' ->
  exists f_ psi self1 delta_alpha step_size a,
    step_f (nv_self v) = Ok f_
    /\ step_psi (set_f (nv_self v) f_) = Ok psi
    /\ step_direction (set_f (nv_self v) f_) psi
       = Ok (self1, delta_alpha, step_size)
    /\ accept self1 (nv_prev v - psi)%F delta_alpha step_size = Ok a
    /\ v' = mk_newton_vars (set_alpha self1 (nan_floor a)) (nv_max_it v)
              (nv_it v + 1)%Z psi (nv_prev v - psi)%F.
Proof.
  unfold step. intros Hs.
  bind_inv Hs. bind_inv Hs. bind_inv Hs.
  destruct a1 as [[self1 delta_alpha] step_size].
  bind_inv Hs. injection Hs as <-.
  exists a, a0, self1, delta_alpha, step_size, a1.
  repeat split; assumption.
Qed.

Lemma nan_floor_entries (a : tensor) :
  entries (nan_floor a)
  = map (fun x => if fis_nan x then (fone * lit_1e_9)%F else x) (entries a).
Proof. destruct a; reflexivity. Qed.

Lemma nan_floor_no_nan (a : tensor) : no_nan a -> nan_floor a = a.
Proof.
  unfold no_nan. destruct a as [x|l]; simpl; intros Hn.
  - inversion Hn as [|? ? Hx _]; subst. rewrite Hx. reflexivity.
  - f_equal. induction Hn as [|x l Hx _ IH]; simpl; [reflexivity|].
    rewrite Hx, IH. reflexivity.
Qed.

(** C3. In every [step] that returns, with [delta = prev - psi] the
    improvement it reports: if [delta > 1e-5] then [alpha] becomes
    [alpha + delta_alpha * step_size] (followed by the NaN floor of line
    128), for the direction and the step size that [step] computed;
    otherwise the update is not applied, and an [alpha] without NaN is left
    exactly as it was.  Either way [step] returns its loop variables. *)
Theorem step_updates_alpha_iff_improved (v v' : newton_vars) :
  step v = Ok v' ->
  exists psi self1 delta_alpha step_size,
    objective (nv_self v) = Ok psi
    /\ (f_ <- step_f (nv_self v) ;;
        step_direction (set_f (nv_self v) f_) psi)
       = Ok (self1, delta_alpha, step_size)
    /\ nv_delta v' = (nv_prev v - psi)%F
    /\ nv_prev v' = psi
    /\ (fgt (nv_delta v') lit_1e_5 = true ->
        exists ds a,
          tmul delta_alpha (T0 step_size) = Ok ds
          /\ tadd (alpha (nv_self v)) ds = Ok a
          /\ alpha (nv_self v') = nan_floor a)
    /\ (fgt (nv_delta v') lit_1e_5 = false ->
        alpha (nv_self v') = nan_floor (alpha (nv_self v))
        /\ (no_nan (alpha (nv_self v)) ->
            alpha (nv_self v') = alpha (nv_self v))).
Proof.
  intros Hs.
  destruct (step_inv _ _ Hs)
    as (f_ & psi & self1 & da & st & a & Hf & Hpsi & Hd & Ha & ->).
  exists psi, self1, da, st.
  destruct (step_direction_fields _ _ _ _ _ Hd) as (g & w & ->).
  unfold objective. rewrite Hf. simpl.
  repeat split; try assumption.
  - intros Hgt. unfold accept in Ha. rewrite Hgt in Ha.
    bind_inv Ha. exists a0, a. repeat split; assumption.
  - unfold accept in Ha. rewrite H0 in Ha. injection Ha as <-. reflexivity.
  - intros Hn. unfold accept in Ha. rewrite H0 in Ha. injection Ha as <-.
    simpl. apply nan_floor_no_nan. exact Hn.
Qed.

(** C7. In every [step] that returns, take the objective [psi], the
    direction [delta_alpha] and the step size [step_size] that this step
    computed, and [a], the [alpha] of line 127: the update
    [alpha + delta_alpha * step_size] when [delta = prev - psi] is above
    [1e-5], the [alpha] before otherwise.  The [alpha] that [step] stores
    is [a] with each NaN entry replaced by [1.0 * 1e-9] (which is [1e-9]
    where multiplying by one is exact) and every other entry kept, so that
    no NaN is left.  The replacement raises nothing and leaves the loop
    variables alone: the next test of the Newton loop reads the counter
    and [delta] only. *)
Theorem step_floors_nan_locally (v v' : newton_vars) :
  step v = Ok v' ->
  exists psi self1 delta_alpha step_size a,
    objective (nv_self v) = Ok psi
    /\ (f_ <- step_f (nv_self v) ;;
        step_direction (set_f (nv_self v) f_) psi)
       = Ok (self1, delta_alpha, step_size)
    /\ nv_delta v' = (nv_prev v - psi)%F
    /\ alpha self1 = alpha (nv_self v)
    /\ (if fgt (nv_delta v') lit_1e_5
        then ds <- tmul delta_alpha (T0 step_size) ;;
             tadd (alpha (nv_self v)) ds
        else Ok (alpha (nv_self v))) = Ok a
    /\ accept self1 (nv_delta v') delta_alpha step_size = Ok a
    /\ alpha (nv_self v') = nan_floor a
    /\ entries (alpha (nv_self v'))
       = map (fun x => if fis_nan x then (fone * lit_1e_9)%F else x)
           (entries a)
    /\ ((fone * lit_1e_9)%F = lit_1e_9 ->
        entries (alpha (nv_self v'))
        = map (fun x => if fis_nan x then lit_1e_9 else x) (entries a))
    /\ (fis_nan (fone * lit_1e_9)%F = false -> no_nan (alpha (nv_self v')))
    /\ nv_it v' = (nv_it v + 1)%Z
    /\ nv_max_it v' = nv_max_it v
    /\ conv v' = Z.ltb (nv_it v + 1) (nv_max_it v)
                 && fgt (nv_delta v') lit_1e_5.
Proof.
  intros Hs.
  destruct (step_inv _ _ Hs)
    as (f_ & psi & self1 & da & st & a & Hf & Hpsi & Hd & Ha & ->).
  exists psi, self1, da, st, a.
  destruct (step_direction_fields _ _ _ _ _ Hd) as (g & w & Hself1).
  assert (Halpha : alpha self1 = alpha (nv_self v))
    by (rewrite Hself1; reflexivity).
  cbn [nv_self nv_it nv_max_it nv_prev nv_delta alpha set_alpha].
  split; [unfold objective; rewrite Hf; exact Hpsi|].
  split; [rewrite Hf; exact Hd|].
  split; [reflexivity|].
  split; [exact Halpha|].
  split; [unfold accept in Ha; rewrite Halpha in Ha; exact Ha|].
  split; [exact Ha|].
  split; [reflexivity|].
  split; [apply nan_floor_entries|].
  split; [intros H1; rewrite nan_floor_entries, H1; reflexivity|].
  split.
  - intros H1. unfold no_nan. rewrite nan_floor_entries.
    apply Forall_forall. intros x Hx.
    apply in_map_iff in Hx. destruct Hx as (x0 & <- & _).
    destruct (fis_nan x0) eqn:E; [exact H1 | exact E].
  - split; [reflexivity|]. split; reflexivity.
Qed.

(** *** The Newton loop *)

Lemma conv_measure (v : newton_vars) : conv v = true -> newton_measure v <> O.
Proof.
  unfold conv, newton_measure. intros Hc.
  apply andb_prop in Hc. destruct Hc as [Hlt _].
  apply Z.ltb_lt in Hlt. lia.
Qed.

Lemma step_measure (v v' : newton_vars) :
  conv v = true -> step v = Ok v' -> newton_measure v' < newton_measure v.
Proof.
  unfold conv, newton_measure. intros Hc Hs.
  apply andb_prop in Hc. destruct Hc as [Hlt _]. apply Z.ltb_lt in Hlt.
  destruct (step_inv _ _ Hs) as (? & ? & ? & ? & ? & ? & _ & _ & _ & _ & ->).
  simpl. lia.
Qed.

(** [step] never assigns [Ks], [mu] or [k_diag]. *)
Lemma step_keeps_configuration (v v' : newton_vars) :
  step v = Ok v' ->
  Ks (nv_self v') = Ks (nv_self v)
  /\ mu (nv_self v') = mu (nv_self v)
  /\ k_diag (nv_self v') = k_diag (nv_self v).
Proof.
  intros Hs.
  destruct (step_inv _ _ Hs)
    as (f_ & psi & self1 & da & st & a & _ & _ & Hd & _ & ->).
  destruct (step_direction_fields _ _ _ _ _ Hd) as (g & w & ->).
  simpl. repeat split.
Qed.

(** C10. When [run] returns, the latent vector it stores is
    [kron_mvp(Ks, alpha) + mu] for the final [alpha], whether or not
    [k_diag] is configured.  With [k_diag] configured, the latent vector an
    iteration computes at that same [alpha] (lines 83-86), and evaluates its
    objective and derivatives at, is the stored one plus
    [alpha * k_diag]. *)
Theorem run_final_f_omits_k_diag (self : KroneckerSolver) (max_it : Z)
  (out : newton_vars) :
  run self max_it = Ok out ->
  (Ka <- kron_mvp (Ks (nv_self out)) (alpha (nv_self out)) ;;
   tadd Ka (mu (nv_self out))) = Ok (f (nv_self out))
  /\ k_diag (nv_self out) = k_diag self
  /\ forall d, k_diag self = Some d ->
       step_f (nv_self out)
       = (ad <- tmul (alpha (nv_self out)) d ;; tadd (f (nv_self out)) ad).
Proof.
  unfold run. intros Hr.
  bind_inv Hr. bind_inv Hr. bind_inv Hr. bind_inv Hr. bind_inv Hr.
  injection Hr as <-. simpl.
  assert (Hk : k_diag (nv_self a) = k_diag self).
  { destruct (while_loop_run _ _ _ conv_measure step_measure _ _ Ha)
      as (k & Hrun).
    refine (while_run_invariant conv step
              (fun v => k_diag (nv_self v) = k_diag self) _ _ _ _ Hrun eq_refl).
    intros s s1 _ Hs HP.
    destruct (step_keeps_configuration _ _ Hs) as (_ & _ & ->). exact HP. }
  repeat split.
  - rewrite Ha0. simpl. exact Ha1.
  - exact Hk.
  - intros d Hd. unfold step_f. simpl.
    rewrite Ha0. simpl. rewrite Ha1. simpl. rewrite Hk, Hd. reflexivity.
Qed.

End NewtonStep.

(** ** Prediction *)

(** C9, evaluated on every input.  [predict_mean] iterates over the integer
    [self.X.shape[1]] itself, where [construct_Ks] iterates over [range] of
    it: the comprehension raises [TypeError] before any kernel is
    evaluated, for every solver and every [x_new]. *)
Theorem predict_mean_raises_TypeError {F : Type} `{Scalar F}
  (np_unique : list F -> list F) (self : @KroneckerSolver F)
  (x_new : matrix F) :
  predict_mean np_unique self x_new = Err TypeError
  /\ construct_Ks np_unique self None
     = comprehension
         (fun i =>
            kernel_eval (kernel self)
              (tf_expand_dims1 (np_unique (mcol (X self) i))) None)
         (seq 0 (ncols (X self))).
Proof.
  split.
  - unfold predict_mean. simpl. reflexivity.
  - unfold construct_Ks. simpl. reflexivity.
Qed.

(** ** Conjugate gradients *)

Section ConjugateGradients.

Context {F : Type} `{Scalar F}.

Local Abbreviation tensor := (tensor F).
Local Abbreviation CGOptimizer := (@CGOptimizer F).
Local Abbreviation cg_vars := (@cg_vars F).

Lemma zip_with_length (op : F -> F -> F) (u v : list F) :
  length u = length v -> length (zip_with op u v) = length u.
Proof.
  revert v. induction u as [|a u IH]; intros [|b v] Hl; simpl in *;
    try reflexivity; try discriminate.
  f_equal. apply IH. lia.
Qed.

Lemma broadcast_vec (op : F -> F -> F) (n : nat) (a b : tensor) :
  is_vec n a -> is_vec n b ->
  exists c, broadcast op a b = Ok c /\ is_vec n c.
Proof.
  intros (u & -> & Hu) (v & -> & Hv). simpl.
  replace (Nat.eqb (length u) (length v)) with true
    by (symmetry; apply Nat.eqb_eq; lia).
  eexists. split; [reflexivity|].
  eexists. split; [reflexivity|].
  rewrite zip_with_length; lia.
Qed.

Lemma broadcast_scalar_vec (op : F -> F -> F) (n : nat) (x : F) (b : tensor) :
  is_vec n b -> exists c, broadcast op (T0 x) b = Ok c /\ is_vec n c.
Proof.
  intros (v & -> & Hv). simpl.
  eexists. split; [reflexivity|].
  eexists. split; [reflexivity|]. rewrite length_map. exact Hv.
Qed.

Lemma dot_vec (n : nat) (a b : tensor) :
  is_vec n a -> is_vec n b -> exists d, dot a b = Ok d.
Proof.
  intros Ha Hb. unfold dot, tmul.
  destruct (broadcast_vec fmul n a b Ha Hb) as (c & -> & _).
  simpl. eexists. reflexivity.
Qed.

Ltac run_bind E :=
  let c := fresh "c" in
  let Hc := fresh "H" c in
  destruct E as (c & -> & Hc); cbn [bind].

Lemma cg_body_total (self : CGOptimizer) (prod : tensor -> result tensor)
  (n : nat) (v : cg_vars) :
  cg_prod self = Some prod -> maps_vec n prod -> cg_shapes n v ->
  exists v', cg_body self v = Ok v' /\ cg_shapes n v'
             /\ cg_count v' = (cg_count v + 1)%Z
             /\ cg_max_it v' = cg_max_it v.
Proof.
  intros Hprod Hmaps (Hp & Hx & Hr & Hpre).
  unfold cg_body, call_cg_prod. rewrite Hprod.
  run_bind (Hmaps _ Hp).
  destruct (cg_precondition v) as [pre|] eqn:Epre.
  - destruct Hpre as (Hpre & z & Hz & Hzv). rewrite Hz.
    cbn [require_tensor bind].
    destruct (dot_vec n _ _ Hr Hzv) as (nk & ->). cbn [bind].
    destruct (dot_vec n _ _ Hc Hp) as (dn & ->). cbn [bind].
    unfold tmul, tadd, tsub, tdiv.
    run_bind (broadcast_scalar_vec fmul n (nk / dn)%F _ Hp).
    run_bind (broadcast_vec fadd n _ _ Hx Hc0).
    run_bind (broadcast_scalar_vec fmul n (nk / dn)%F _ Hc).
    run_bind (broadcast_vec fsub n _ _ Hr Hc2).
    run_bind (broadcast_scalar_vec fdiv n fone _ Hpre).
    run_bind (broadcast_vec fmul n _ _ Hc4 Hc3).
    destruct (dot_vec n _ _ Hc5 Hc3) as (nn & Hnn).
    rewrite Hnn. cbn [bind].
    run_bind (broadcast_scalar_vec fmul n (nn / nk)%F _ Hp).
    cbn [require_tensor bind]. run_bind (broadcast_vec fadd n _ _ Hc5 Hc6).
    eexists. split; [reflexivity|].
    unfold cg_shapes. cbn.
    repeat split; try assumption. exists c5. split; [reflexivity | assumption].
  - destruct (dot_vec n _ _ Hr Hr) as (nk & ->). cbn [bind].
    destruct (dot_vec n _ _ Hc Hp) as (dn & ->). cbn [bind].
    unfold tmul, tadd, tsub, tdiv.
    run_bind (broadcast_scalar_vec fmul n (nk / dn)%F _ Hp).
    run_bind (broadcast_vec fadd n _ _ Hx Hc0).
    run_bind (broadcast_scalar_vec fmul n (nk / dn)%F _ Hc).
    run_bind (broadcast_vec fsub n _ _ Hr Hc2).
    destruct (dot_vec n _ _ Hc3 Hc3) as (nn & Hnn).
    rewrite Hnn. cbn [bind].
    run_bind (broadcast_scalar_vec fmul n (nn / nk)%F _ Hp).
    run_bind (broadcast_vec fadd n _ _ Hc3 Hc4).
    eexists. split; [reflexivity|].
    unfold cg_shapes. cbn.
    repeat split; assumption.
Qed.

Lemma cg_init_total (self : CGOptimizer) (prod : tensor -> result tensor)
  (n : nat) (b : tensor) (pre : option tensor) :
  cg_prod self = Some prod -> maps_vec n prod -> is_vec n b ->
  (forall d, pre = Some d -> is_vec n d) ->
  exists v0, cg_init self b pre = Ok v0 /\ cg_shapes n v0
             /\ cg_count v0 = 0%Z /\ cg_max_it v0 = (2 * Z.of_nat n)%Z.
Proof.
  intros Hprod Hmaps Hb Hpre.
  assert (Hz : is_vec n (tf_zeros n)).
  { eexists. split; [reflexivity|]. apply repeat_length. }
  unfold cg_init, call_cg_prod. rewrite Hprod.
  destruct Hb as (l & -> & Hl). cbn [shape0 bind]. rewrite Hl.
  assert (Hb : is_vec n (T1 l)) by (eexists; split; [reflexivity | exact Hl]).
  run_bind (Hmaps _ Hz).
  unfold tmul, tadd, tsub, tdiv.
  run_bind (broadcast_vec fsub n _ _ Hb Hc).
  destruct pre as [d|].
  - specialize (Hpre d eq_refl).
    run_bind (broadcast_scalar_vec fdiv n fone _ Hpre).
    run_bind (broadcast_vec fmul n _ _ Hc1 Hc0).
    eexists. split; [reflexivity|]. unfold cg_shapes. cbn.
    repeat split; try assumption. exists c2. split; [reflexivity | assumption].
  - cbn [bind]. eexists. split; [reflexivity|]. unfold cg_shapes. cbn.
    repeat split; assumption.
Qed.

Lemma cg_converged_measure (v : cg_vars) :
  cg_converged v = true -> cg_measure v <> O.
Proof.
  unfold cg_converged, cg_measure. intros Hc.
  apply andb_prop in Hc. destruct Hc as [_ Hlt]. apply Z.ltb_lt in Hlt. lia.
Qed.

(** One round, read off [cg_body]: the step length is the quotient of
    [norm_k] by the inner product of [Bp] and [p], whatever its value. *)
Lemma cg_body_inv (self : CGOptimizer) (v v' : cg_vars) :
  cg_body self v = Ok v' ->
  exists Bp norm_k denom ap aBp,
    call_cg_prod self (cg_p v) = Ok Bp
    /\ match cg_precondition v with
       | Some _ => z <- require_tensor (cg_z v) ;; dot (cg_r v) z
       | None => dot (cg_r v) (cg_r v)
       end = Ok norm_k
    /\ dot Bp (cg_p v) = Ok denom
    /\ tmul (T0 (norm_k / denom)%F) (cg_p v) = Ok ap
    /\ tadd (cg_x v) ap = Ok (cg_x v')
    /\ tmul (T0 (norm_k / denom)%F) Bp = Ok aBp
    /\ tsub (cg_r v) aBp = Ok (cg_r v')
    /\ cg_count v' = (cg_count v + 1)%Z
    /\ cg_max_it v' = cg_max_it v.
Proof.
  unfold cg_body. intros Hb.
  repeat bind_inv Hb.
  destruct a6 as [z nn]. repeat bind_inv Hb.
  injection Hb as <-. cbn.
  exists a, a0, a1, a2, a4. repeat split; assumption.
Qed.

Lemma cg_body_count (self : CGOptimizer) (v v' : cg_vars) :
  cg_body self v = Ok v' ->
  cg_count v' = (cg_count v + 1)%Z /\ cg_max_it v' = cg_max_it v.
Proof.
  intros Hb.
  destruct (cg_body_inv _ _ _ Hb)
    as (? & ? & ? & ? & ? & _ & _ & _ & _ & _ & _ & _ & Hc & Hm).
  split; assumption.
Qed.

Lemma cg_body_measure (self : CGOptimizer) (v v' : cg_vars) :
  cg_converged v = true -> cg_body self v = Ok v' ->
  cg_measure v' < cg_measure v.
Proof.
  unfold cg_converged, cg_measure. intros Hc Hb.
  apply andb_prop in Hc. destruct Hc as [_ Hlt]. apply Z.ltb_lt in Hlt.
  destruct (cg_body_count _ _ _ Hb) as (-> & ->). lia.
Qed.

(** A loop whose body cannot fail on an invariant does not fail. *)
Lemma while_iter_total {S : Type} (P : S -> Prop) (cond : S -> bool)
  (body : S -> result S) :
  (forall s, P s -> cond s = true -> exists s', body s = Ok s' /\ P s') ->
  forall n s, P s -> exists s', while_iter n cond body s = Ok s' /\ P s'.
Proof.
  intros Hbody. induction n as [|n IH]; intros s HP; simpl.
  - exists s. split; [reflexivity | exact HP].
  - destruct (cond s) eqn:E.
    + destruct (Hbody s HP E) as (s1 & -> & HP1). simpl. apply IH. exact HP1.
    + exists s. split; [reflexivity | exact HP].
Qed.

Lemma iterate_count (self : CGOptimizer) (k : nat) :
  forall v v', iterate (cg_body self) k v = Ok v' ->
  cg_count v' = (cg_count v + Z.of_nat k)%Z /\ cg_max_it v' = cg_max_it v.
Proof.
  induction k as [|k IH]; intros v v' Hi; simpl in Hi.
  - injection Hi as <-. split; [lia | reflexivity].
  - bind_inv Hi.
    destruct (cg_body_count _ _ _ Ha) as (Hc & Hm).
    destruct (IH _ _ Hi) as (-> & ->). rewrite Hc, Hm.
    split; [lia | reflexivity].
Qed.

(** The run of [cg] on consistent shapes: it starts, it leaves its loop
    after some number [k] of rounds, and nothing raises. *)
Lemma cg_run (self : CGOptimizer) (prod : tensor -> result tensor) (n : nat)
  (b : tensor) (pre : option tensor) :
  cg_prod self = Some prod -> maps_vec n prod -> is_vec n b ->
  (forall d, pre = Some d -> is_vec n d) ->
  exists v0 k fin,
    cg_init self b pre = Ok v0
    /\ cg_count v0 = 0%Z /\ cg_max_it v0 = (2 * Z.of_nat n)%Z
    /\ while_run cg_converged (cg_body self) v0 k fin
    /\ cg self b pre = Ok (cg_x fin).
Proof.
  intros Hprod Hmaps Hb Hpre.
  destruct (cg_init_total self prod n b pre Hprod Hmaps Hb Hpre)
    as (v0 & Hinit & Hsh & Hc0 & Hm0).
  destruct (while_iter_total (cg_shapes n) cg_converged (cg_body self)) with
    (n := cg_measure v0) (s := v0) as (fin & Hfin & _).
  { intros s Hs _.
    destruct (cg_body_total self prod n s Hprod Hmaps Hs)
      as (s' & Hs' & Hsh' & _).
    exists s'. split; assumption. }
  { exact Hsh. }
  destruct (while_loop_run cg_measure cg_converged (cg_body self)
              cg_converged_measure (cg_body_measure self) v0 fin Hfin)
    as (k & Hrun).
  exists v0, k, fin. repeat split; try assumption.
  unfold cg. rewrite Hinit. cbn [bind].
  unfold while_loop. rewrite Hfin. reflexivity.
Qed.

(** C5. On a vector [b] of length [N], with a product function that maps
    vectors of length [N] to vectors of length [N], [cg] returns, and what
    it returns is the iterate [x] of the round [k] at which its loop stops,
    nothing else.  The loop stops at the first round [k] where the squared
    residual sum is not above [1e-5] or the count has reached [2N]: before
    every earlier round the sum was above [1e-5] and the count below [2N].
    In particular (for a comparison in which [a < c] excludes [a > c]) no
    round is started once the sum is below [1e-5], and [k] is at most
    [2N]. *)
Theorem cg_stops_on_residual_or_cap (self : CGOptimizer)
  (prod : tensor -> result tensor) (n : nat) (b : tensor)
  (pre : option tensor) :
  cg_prod self = Some prod -> maps_vec n prod -> is_vec n b ->
  (forall d, pre = Some d -> is_vec n d) ->
  exists v0 k fin,
    cg_init self b pre = Ok v0
    /\ iterate (cg_body self) k v0 = Ok fin
    /\ cg self b pre = Ok (cg_x fin)
    /\ k <= 2 * n
    /\ cg_count fin = Z.of_nat k
    /\ (forall j, j < k ->
        exists vj, iterate (cg_body self) j v0 = Ok vj
                   /\ fgt (sum_sq (cg_r vj)) lit_1e_5 = true
                   /\ (cg_count vj < 2 * Z.of_nat n)%Z)
    /\ (fgt (sum_sq (cg_r fin)) lit_1e_5 = false
        \/ cg_count fin = (2 * Z.of_nat n)%Z)
    /\ ((forall a c, flt a c = true -> fgt a c = false) ->
        forall j vj, j <= k -> iterate (cg_body self) j v0 = Ok vj ->
                     flt (sum_sq (cg_r vj)) lit_1e_5 = true -> j = k).
Proof.
  intros Hprod Hmaps Hb Hpre.
  destruct (cg_run self prod n b pre Hprod Hmaps Hb Hpre)
    as (v0 & k & fin & Hinit & Hc0 & Hm0 & Hrun & Hcg).
  destruct (while_run_iterate cg_converged (cg_body self) v0 fin k Hrun)
    as (Hit & Hstop & Hbefore).
  destruct (iterate_count self k v0 fin Hit) as (Hck & Hmk).
  assert (Hearlier : forall j, j < k ->
            exists vj, iterate (cg_body self) j v0 = Ok vj
                       /\ fgt (sum_sq (cg_r vj)) lit_1e_5 = true
                       /\ (cg_count vj < 2 * Z.of_nat n)%Z
                       /\ cg_count vj = Z.of_nat j).
  { intros j Hj. destruct (Hbefore j Hj) as (vj & Hvj & Hcj).
    destruct (iterate_count self j v0 vj Hvj) as (Hcnt & Hmax).
    unfold cg_converged in Hcj. apply andb_prop in Hcj. destruct Hcj as [Hg Hl].
    apply Z.ltb_lt in Hl. exists vj. repeat split; try assumption; lia. }
  exists v0, k, fin. repeat split; try assumption.
  - destruct k as [|k]; [lia|].
    destruct (Hearlier k ltac:(lia)) as (vj & _ & _ & Hlt & Heq). lia.
  - lia.
  - intros j Hj. destruct (Hearlier j Hj) as (vj & H1 & H2 & H3 & _).
    exists vj. repeat split; assumption.
  - unfold cg_converged in Hstop. apply andb_false_iff in Hstop.
    destruct Hstop as [Hg | Hl]; [left; exact Hg | right].
    apply Z.ltb_ge in Hl.
    destruct k as [|k]; [lia|].
    destruct (Hearlier k ltac:(lia)) as (vj & _ & _ & Hlt & Heq). lia.
  - intros Hasym j vj Hj Hvj Hlt.
    destruct (Nat.eq_dec j k) as [E|E]; [exact E | exfalso].
    destruct (Hearlier j ltac:(lia)) as (vj' & Hvj' & Hg & _).
    rewrite Hvj in Hvj'. injection Hvj' as <-.
    rewrite (Hasym _ _ Hlt) in Hg. discriminate.
Qed.


End ConjugateGradients.

(** ** Line search *)

Section LineSearch.

Context {F : Type} `{Scalar F}.

Local Abbreviation tensor := (tensor F).
Local Abbreviation KroneckerSolver := (@KroneckerSolver F).
Local Abbreviation ls_vars := (@ls_vars F).

Variable self : KroneckerSolver.
Variables alpha_ delta_alpha y_ mu_ : tensor.
Variable obj_prev : F.

(** The objective of the candidate of round [j]. *)
Variable obj : nat -> F.

Local Abbreviation size := (ls_step self).
Local Abbreviation seen := (ls_last obj).
Local Abbreviation goes_on := (ls_goes_on self obj_prev obj).
Local Abbreviation best := (ls_best self obj_prev obj).
Local Abbreviation state :=
  (ls_state self alpha_ delta_alpha y_ mu_ obj_prev obj).

Lemma ls_state_init (max_it : Z) :
  ls_init alpha_ delta_alpha y_ obj_prev max_it mu_ = state max_it 0.
Proof. reflexivity. Qed.

Lemma converge_cond_state (max_it : Z) (j : nat) :
  converge_cond (state max_it j) = goes_on max_it j.
Proof. reflexivity. Qed.

Lemma search_step_state (max_it : Z) (j : nat) :
  search_objective self alpha_ delta_alpha y_ mu_ (size j) = Ok (obj j) ->
  search_step self (state max_it j) = Ok (state max_it (S j)).
Proof.
  intros Hobj. unfold search_step, ls_state. cbn [ls_alpha ls_delta_alpha ls_y
    ls_mu ls_step_size ls_min_obj ls_opt_step ls_obj_prev ls_grad_norm
    ls_max_it ls_t].
  rewrite Hobj. cbn [bind]. f_equal.
  replace (Z.of_nat (S j) + 1)%Z with (Z.of_nat j + 1 + 1)%Z by lia.
  cbn [ls_last ls_best ls_step Nat.iter].
  destruct (fgt (fst (best j)) (obj j)); reflexivity.
Qed.

Lemma converge_cond_measure (v : ls_vars) :
  converge_cond v = true -> ls_measure v <> O.
Proof.
  unfold converge_cond, ls_measure. intros Hc.
  apply andb_prop in Hc. destruct Hc as [Hlt _]. apply Z.ltb_lt in Hlt. lia.
Qed.

Lemma search_step_measure (v v' : ls_vars) :
  converge_cond v = true -> search_step self v = Ok v' ->
  ls_measure v' < ls_measure v.
Proof.
  unfold converge_cond, ls_measure, search_step. intros Hc Hs.
  apply andb_prop in Hc. destruct Hc as [Hlt _]. apply Z.ltb_lt in Hlt.
  bind_inv Hs. injection Hs as <-. cbn. lia.
Qed.

Hypothesis candidates :
  forall j, j < 19 ->
    search_objective self alpha_ delta_alpha y_ mu_ (size j) = Ok (obj j).

(** From round [j] on, the loop runs while the rule holds and stops at the
    first round [k] where it fails, at the latest [k = 19]. *)
Lemma ls_rounds (fuel : nat) :
  forall j, j + fuel = 19 ->
  exists k, j <= k <= 19
    /\ while_run converge_cond (search_step self) (state 20 j) (k - j)
         (state 20 k)
    /\ (forall i, j <= i < k -> goes_on 20 i = true)
    /\ goes_on 20 k = false.
Proof.
  induction fuel as [|fuel IH]; intros j Hj.
  - exists j. replace (j - j) with 0 by lia.
    assert (Hstop : goes_on 20 j = false).
    { unfold ls_goes_on.
      replace (Z.of_nat j + 1 <? 20)%Z with false; [reflexivity|].
      symmetry. apply Z.ltb_ge. lia. }
    repeat split; try lia.
    + apply while_stop. exact Hstop.
    + exact Hstop.
  - destruct (goes_on 20 j) eqn:E.
    + destruct (IH (S j) ltac:(lia)) as (k & Hk & Hrun & Hon & Hoff).
      exists k. repeat split; try lia.
      * replace (k - j) with (S (k - S j)) by lia.
        eapply while_round; [exact E | | exact Hrun].
        apply search_step_state. apply candidates. lia.
      * intros i Hi. destruct (Nat.eq_dec i j) as [->|Hne]; [exact E|].
        apply Hon. lia.
      * exact Hoff.
    + exists j. replace (j - j) with 0 by lia.
      repeat split; try lia.
      * apply while_stop. exact E.
      * exact E.
Qed.

(** The step size returned is the one of the candidate that reached the
    minimum returned, or [0.0] with the starting objective. *)
Lemma ls_best_achieved (k : nat) :
  best k = (obj_prev, fzero)
  \/ exists j, j < k /\ best k = (obj j, size j).
Proof.
  induction k as [|k IH]; simpl.
  - left. reflexivity.
  - destruct (fgt (fst (best k)) (obj k)).
    + right. exists k. split; [lia | reflexivity].
    + destruct IH as [IH | (j & Hj & IH)]; [left; exact IH | right].
      exists j. split; [lia | exact IH].
Qed.

Lemma ls_best_no_improvement (k : nat) :
  (forall j, j < k -> fgt obj_prev (obj j) = false) ->
  best k = (obj_prev, fzero).
Proof.
  induction k as [|k IH]; intros Hno; simpl.
  - reflexivity.
  - rewrite IH by (intros j Hj; apply Hno; lia). simpl.
    rewrite Hno by lia. reflexivity.
Qed.

(** For a strict order, the minimum returned is above neither the starting
    objective nor any candidate. *)
Lemma ls_best_minimal (k : nat) :
  (forall a, fgt a a = false) ->
  (forall a b c, fgt a b = true -> fgt b c = true -> fgt a c = true) ->
  fgt (fst (best k)) obj_prev = false
  /\ forall j, j < k -> fgt (fst (best k)) (obj j) = false.
Proof.
  intros Hirr Htrans.
  assert (Hle : forall a b c, fgt a b = true -> fgt a c = false ->
                              fgt b c = false).
  { intros a b c Hab Hac. destruct (fgt b c) eqn:E; [|reflexivity].
    rewrite (Htrans _ _ _ Hab E) in Hac. discriminate. }
  induction k as [|k (IH0 & IH)]; simpl.
  - split; [apply Hirr | intros j Hj; lia].
  - destruct (fgt (fst (best k)) (obj k)) eqn:E; simpl.
    + split; [exact (Hle _ _ _ E IH0)|].
      intros j Hj. destruct (Nat.eq_dec j k) as [->|Hne]; [apply Hirr|].
      apply (Hle _ _ _ E). apply IH. lia.
    + split; [exact IH0|].
      intros j Hj. destruct (Nat.eq_dec j k) as [->|Hne]; [exact E|].
      apply IH. lia.
Qed.

(** C2. A call of [line_search] with [max_it = 20], when the objective of
    the candidate of round [j] is [obj j]: the candidate step sizes are
    [5.0], [tau * 5.0], [tau * (tau * 5.0)], ...; the call returns after
    some number [k] of rounds, at most 19 (so within 20 iterations), where
    [k] is the first round before which the rule "[t < max_it] and
    [obj_prev - obj_search < step_size * t]" fails; and it returns the
    running minimum of [obj_prev] and the [k] candidates, with the step
    size of the candidate that reached it, or [0.0] when no candidate is
    strictly below [obj_prev]. *)
Theorem line_search_backtracks :
  exists k,
    k <= 19
    /\ line_search self alpha_ delta_alpha y_ obj_prev 20 mu_
       = Ok (ls_best self obj_prev obj k)
    /\ ls_step self 0 = lit_5_0
    /\ (forall j, ls_step self (S j) = (tau self * ls_step self j)%F)
    /\ (forall j, j < k -> ls_goes_on self obj_prev obj 20 j = true)
    /\ ls_goes_on self obj_prev obj 20 k = false
    /\ (ls_best self obj_prev obj k = (obj_prev, fzero)
        \/ exists j,
             j < k /\ ls_best self obj_prev obj k = (obj j, ls_step self j))
    /\ ((forall j, j < k -> fgt obj_prev (obj j) = false) ->
        ls_best self obj_prev obj k = (obj_prev, fzero))
    /\ ((forall a, fgt a a = false) ->
        (forall a b c, fgt a b = true -> fgt b c = true -> fgt a c = true) ->
        fgt (fst (ls_best self obj_prev obj k)) obj_prev = false
        /\ forall j,
             j < k -> fgt (fst (ls_best self obj_prev obj k)) (obj j) = false).
Proof.
  destruct (ls_rounds 19 0 eq_refl) as (k & Hk & Hrun & Hon & Hoff).
  exists k. repeat split.
  - lia.
  - unfold line_search. rewrite ls_state_init.
    rewrite (while_run_loop ls_measure converge_cond (search_step self)
               converge_cond_measure search_step_measure _ _ _ Hrun).
    cbn [bind ls_state ls_min_obj ls_opt_step].
    destruct (best k); reflexivity.
  - intros j Hj. apply Hon. lia.
  - exact Hoff.
  - apply ls_best_achieved.
  - apply ls_best_no_improvement.
  - apply ls_best_minimal; assumption.
  - apply ls_best_minimal; assumption.
Qed.

End LineSearch.

(** ** Descent of the objective *)

Section Descent.

Context {F : Type} `{ScalarLaws F}.

Local Abbreviation tensor := (tensor F).
Local Abbreviation KroneckerSolver := (@KroneckerSolver F).
Local Abbreviation newton_vars := (@newton_vars F).
Local Abbreviation ls_vars := (@ls_vars F).

Lemma zip_with_comm (op : F -> F -> F) (u v : list F) :
  (forall a b, op a b = op b a) -> zip_with op u v = zip_with op v u.
Proof.
  intros Hop. revert v. induction u as [|a u IH]; intros [|b v]; simpl;
    try reflexivity.
  rewrite Hop, IH. reflexivity.
Qed.

Lemma broadcast_comm (op : F -> F -> F) (a b : tensor) :
  (forall x y, op x y = op y x) -> broadcast op a b = broadcast op b a.
Proof.
  intros Hop.
  assert (Hmap : forall x l, map (op x) l = map (fun c => op c x) l).
  { intros x l. apply map_ext. intros c. apply Hop. }
  destruct a as [x|u], b as [y|v]; simpl.
  - rewrite Hop. reflexivity.
  - rewrite Hmap. reflexivity.
  - rewrite Hmap. reflexivity.
  - rewrite (Nat.eqb_sym (length v) (length u)).
    destruct (Nat.eqb (length u) (length v)) eqn:E.
    + rewrite (zip_with_comm op u v Hop). reflexivity.
    + destruct u as [|x [|x' u]], v as [|y [|y' v]];
        cbn [length Nat.eqb] in E; try discriminate E;
        lazy beta iota; rewrite ?Hmap; reflexivity.
Qed.

Lemma tmul_comm (a b : tensor) : tmul a b = tmul b a.
Proof. apply broadcast_comm. apply fmul_comm. Qed.

(** [kron_mvp] takes a rank-1 tensor and returns a squeezed one. *)
Lemma kron_mvp_shapes (Ks_ : list (matrix F)) (t r : tensor) :
  kron_mvp Ks_ t = Ok r ->
  (exists l, t = T1 l) /\ exists buf, r = tf_squeeze buf.
Proof.
  unfold kron_mvp. intros Hk.
  bind_inv Hk. bind_inv Hk. bind_inv Hk. bind_inv Hk. bind_inv Hk.
  injection Hk as <-. split.
  - destruct t as [x|l]; [discriminate | exists l; reflexivity].
  - eexists. reflexivity.
Qed.

Lemma tf_squeeze_idem (buf : list F) :
  tf_squeeze_t (tf_squeeze buf) = tf_squeeze buf.
Proof. destruct buf as [|x [|x' buf]]; reflexivity. Qed.

Lemma tf_squeeze_rank1 (a : tensor) (l : list F) :
  tf_squeeze_t a = T1 l -> a = T1 l.
Proof.
  destruct a as [x|[|x [|x' u]]]; simpl; intros E; try discriminate; exact E.
Qed.

Lemma search_step_post (self : KroneckerSolver)
  (alpha_ delta_alpha y_ mu_ : tensor) (obj_prev : F) (v v' : ls_vars) :
  search_step self v = Ok v' ->
  ls_post self alpha_ delta_alpha y_ mu_ obj_prev v ->
  ls_post self alpha_ delta_alpha y_ mu_ obj_prev v'.
Proof.
  unfold search_step. intros Hs (Ha & Hd & Hy & Hm & Hp & Hle & Hbest).
  rewrite Ha, Hd, Hy, Hm in Hs.
  bind_inv Hs. injection Hs as <-.
  unfold ls_post. cbn.
  repeat split; try assumption.
  - destruct (fgt (ls_min_obj v) a) eqn:E; [|exact Hle].
    destruct (fgt a obj_prev) eqn:E'; [|reflexivity].
    rewrite (fgt_trans _ _ _ E E') in Hle. discriminate.
  - destruct (fgt (ls_min_obj v) a) eqn:E; [right; exact Ha0 | exact Hbest].
Qed.

Lemma line_search_post (self : KroneckerSolver)
  (alpha_ delta_alpha y_ mu_ : tensor) (obj_prev : F) (max_it : Z) (m s : F) :
  line_search self alpha_ delta_alpha y_ obj_prev max_it mu_ = Ok (m, s) ->
  fgt m obj_prev = false
  /\ ((s = fzero /\ m = obj_prev)
      \/ search_objective self alpha_ delta_alpha y_ mu_ s = Ok m).
Proof.
  unfold line_search. intros Hl. bind_inv Hl. injection Hl as <- <-.
  destruct (while_loop_run ls_measure converge_cond (search_step self)
              (@converge_cond_measure F _) (search_step_measure self) _ _ Ha)
    as (k & Hrun).
  assert (Hpost : ls_post self alpha_ delta_alpha y_ mu_ obj_prev a).
  { refine (while_run_invariant converge_cond (search_step self) _ _ _ _ _
              Hrun _).
    - intros v v1 _ Hs HP. exact (search_step_post _ _ _ _ _ _ _ _ Hs HP).
    - unfold ls_post, ls_init. cbn.
      repeat split; [apply fgt_irrefl | left; split; reflexivity]. }
  destruct Hpost as (_ & _ & _ & _ & _ & Hle & Hbest).
  split; assumption.
Qed.

Lemma objective_same_config (s1 s2 : KroneckerSolver) :
  same_config s1 s2 -> alpha s1 = alpha s2 -> objective s1 = objective s2.
Proof.
  intros (HK & Hm & Hd & Hk & Hy & Hl) Ha.
  unfold objective, step_f, step_psi.
  cbn [Ks alpha mu k_diag mask y f likelihood set_f].
  rewrite HK, Hm, Hd, Hk, Hy, Hl, Ha. reflexivity.
Qed.

(** The objective the line search evaluates at a candidate is the
    objective the next iteration evaluates at the updated [alpha]. *)
Lemma search_objective_at_update (s1 s2 : KroneckerSolver)
  (alpha_ delta_alpha ds : tensor) (s m : F) :
  same_config s1 s2 ->
  search_objective s1 alpha_ delta_alpha (y s1) (mu s1) s = Ok m ->
  tmul delta_alpha (T0 s) = Ok ds ->
  tadd alpha_ ds = Ok (alpha s2) ->
  objective s2 = Ok m.
Proof.
  intros (HK & Hm & Hd & Hk & Hy & Hl).
  unfold search_objective, objective, step_f, step_psi.
  cbn [Ks alpha mu k_diag mask y f likelihood set_f].
  rewrite HK, Hm, Hd, Hk, Hy, Hl.
  intros Hs Hds Ha.
  rewrite tmul_comm, Hds in Hs. cbn [bind] in Hs. rewrite Ha in Hs.
  cbn [bind] in Hs. bind_inv Hs.
  destruct (kron_mvp_shapes _ _ _ Ha0) as ((l & Hl') & (buf & ->)).
  apply tf_squeeze_rank1 in Hl'. rewrite Hl' in *.
  change (tf_squeeze_t (T1 l)) with (tf_squeeze l) in *.
  assert (Hsq : tf_squeeze l = T1 l).
  { destruct l as [|x [|x' l]]; try reflexivity.
    unfold kron_mvp in Ha0. simpl in Ha0.
    destruct (getitem (Ks s2) 0); discriminate. }
  rewrite Hsq in *. rewrite Ha0. cbn [bind].
  rewrite tf_squeeze_idem in Hs.
  bind_inv Hs. rewrite Ha1. cbn [bind].
  bind_inv Hs.
  destruct (k_diag s2) as [d|].
  - rewrite (tmul_comm (T1 l) d). bind_inv Ha2. rewrite Ha3. cbn [bind].
    rewrite Ha2. cbn [bind]. exact Hs.
  - injection Ha2 as ->. exact Hs.
Qed.

Lemma step_direction_inv (self self1 : KroneckerSolver) (psi : F)
  (delta_alpha : tensor) (step_size : F) :
  step_direction self psi = Ok (self1, delta_alpha, step_size) ->
  exists g w m,
    self1 = set_W (set_grads self g) w
    /\ line_search self1 (alpha self) delta_alpha (y self) psi 20 (mu self)
       = Ok (m, step_size).
Proof.
  unfold step_direction. intros Hd.
  repeat bind_inv Hd.
  injection Hd as <- <- <-.
  exists a0, (tmap fneg a2), (fst a11). split; [reflexivity|].
  cbn [alpha y mu set_W set_grads] in Ha11. rewrite Ha11.
  destruct a11; reflexivity.
Qed.

(** C4, as the code has it.  Take a [step] that returns, with
    [delta_alpha] and [step_size] the direction and the step size it
    computed, and suppose the [alpha] it stores is the update
    [alpha + delta_alpha * step_size] itself (the NaN floor of line 128
    changed nothing) and that a step size of [0.0] leaves [alpha] as it was.
    Then the objective at the stored [alpha] is not above the objective at
    the [alpha] before. *)
Theorem update_does_not_raise_objective (v v' : newton_vars)
  (delta_alpha : tensor) (step_size : F) :
  step v = Ok v' ->
  step_search (nv_self v) = Ok (delta_alpha, step_size) ->
  (ds <- tmul delta_alpha (T0 step_size) ;; tadd (alpha (nv_self v)) ds)
  = Ok (alpha (nv_self v')) ->
  (step_size = fzero -> alpha (nv_self v') = alpha (nv_self v)) ->
  exists psi psi',
    objective (nv_self v) = Ok psi
    /\ objective (nv_self v') = Ok psi'
    /\ fgt psi' psi = false.
Proof.
  intros Hs Hsearch Hupd Hzero.
  destruct (step_inv _ _ Hs)
    as (f_ & psi & self1 & da & st & a & Hf & Hpsi & Hd & _ & Hv').
  unfold step_search in Hsearch. rewrite Hf in Hsearch. cbn [bind] in Hsearch.
  rewrite Hpsi in Hsearch. cbn [bind] in Hsearch.
  rewrite Hd in Hsearch. cbn [bind fst snd] in Hsearch.
  injection Hsearch as -> ->.
  destruct (step_direction_inv _ _ _ _ _ Hd) as (g & w & m & Hself1 & Hls).
  assert (Hcfg : same_config self1 (nv_self v')).
  { rewrite Hv', Hself1. repeat split. }
  assert (Hcfg0 : same_config (nv_self v) (nv_self v')).
  { rewrite Hv', Hself1. repeat split. }
  assert (Hobj : objective (nv_self v) = Ok psi).
  { unfold objective. rewrite Hf. exact Hpsi. }
  cbn [alpha y mu set_f] in Hls.
  destruct (line_search_post _ _ _ _ _ _ _ _ _ Hls)
    as (Hle & [(Hst & Hm) | Hcand]).
  - exists psi, psi. repeat split; [exact Hobj | | apply fgt_irrefl].
    rewrite <- (objective_same_config _ _ Hcfg0); [exact Hobj|].
    symmetry. apply Hzero. exact Hst.
  - bind_inv Hupd.
    exists psi, m. repeat split; [exact Hobj | | exact Hle].
    apply (search_objective_at_update self1 (nv_self v') (alpha (nv_self v))
             delta_alpha a0 step_size m Hcfg); try assumption.
    rewrite Hself1. cbn [y mu set_W set_grads set_f]. rewrite Hself1 in Hcand.
    exact Hcand.
Qed.

End Descent.

(** ** Marginal likelihood *)

Section Marginal.

Context {F : Type} `{Scalar F}.

Local Abbreviation tensor := (tensor F).
Local Abbreviation matrix := (matrix F).
Local Abbreviation KroneckerSolver := (@KroneckerSolver F).

Lemma outer_length (u v : list F) : length (outer u v) = length u * length v.
Proof.
  unfold outer. induction u as [|a u IH]; simpl; [reflexivity|].
  rewrite length_app, length_map, IH. reflexivity.
Qed.

Lemma map_nth_seq (l : list F) (d : F) :
  map (fun i => nth i l d) (seq 0 (length l)) = l.
Proof.
  induction l as [|a l IH]; simpl; [reflexivity|].
  f_equal. rewrite <- seq_shift, map_map. exact IH.
Qed.

Lemma skipn_cons_nth (l : list F) (k : nat) (d : F) :
  k < length l -> skipn k l = nth k l d :: skipn (S k) l.
Proof.
  revert k. induction l as [|a l IH]; intros [|k] Hk; simpl in *; try lia.
  - reflexivity.
  - apply IH. lia.
Qed.

Lemma for_each_nil {X S : Type} (body : X -> S -> result S) (s : S) :
  for_each [] body s = Ok s.
Proof. reflexivity. Qed.

Lemma for_each_cons {X S : Type} (x : X) (xs : list X)
  (body : X -> S -> result S) (s : S) :
  for_each (x :: xs) body s = (s' <- body x s ;; for_each xs body s').
Proof. reflexivity. Qed.

(** One block of [kron] on columns: [A[i, 0] * B] appended to an empty
    row. *)
Lemma kron_col_block (x : F) (v : list F) :
  tf_concat1 (tf_zeros2 (length v) 0) (mscale x (tf_expand_dims1 v))
  = Ok (mk_matrix (length v) 1 (map (fmul x) v)).
Proof.
  unfold tf_concat1, tf_zeros2, mscale, tf_expand_dims1, mrow, mget.
  cbn [nrows ncols mdata]. rewrite Nat.eqb_refl. f_equal. f_equal.
  transitivity (map (fun i => nth i (map (fmul x) v) fzero)
                  (seq 0 (length (map (fmul x) v)))).
  - rewrite length_map.
    rewrite (flat_map_ext _ (fun i => [nth i (map (fmul x) v) fzero])).
    + induction (seq 0 (length v)) as [|i l IH]; simpl; [reflexivity|].
      rewrite IH. reflexivity.
    + intros i. simpl. replace (i * 1 + 0) with i by lia. reflexivity.
  - apply map_nth_seq.
Qed.

Lemma kron_col_rows (u v : list F) (n : nat) :
  forall k r acc, k + n <= length u ->
  for_each (seq k n)
    (fun i out =>
       row <- for_each (seq 0 1)
                (fun j row =>
                   tf_concat1 row
                     (mscale (mget (tf_expand_dims1 u) i j)
                        (tf_expand_dims1 v)))
                (tf_zeros2 (length v) 0) ;;
       tf_concat0 out row)
    (mk_matrix r 1 acc)
  = Ok (mk_matrix (r + n * length v) 1
          (acc ++ outer (firstn n (skipn k u)) v)).
Proof.
  induction n as [|n IH]; intros k r acc Hk.
  - cbn [seq for_each firstn outer flat_map]. rewrite app_nil_r.
    f_equal. f_equal. lia.
  - cbn [seq] in IH |- *. rewrite for_each_cons. cbv beta.
    rewrite for_each_cons. cbv beta.
    rewrite kron_col_block. cbn [bind]. rewrite for_each_nil. cbn [bind].
    unfold tf_concat0 at 1. cbn [nrows ncols mdata Nat.eqb bind].
    rewrite IH by lia.
    rewrite (skipn_cons_nth u k fzero) by lia.
    cbn [firstn outer flat_map]. fold (outer (firstn n (skipn (S k) u)) v).
    unfold mget, tf_expand_dims1. cbn [ncols mdata].
    replace (k * 1 + 0) with k by lia.
    rewrite <- app_assoc. f_equal. f_equal. lia.
Qed.

(** [kron] of two columns is the column of their outer product. *)
Lemma kron_col (u v : list F) :
  kron (tf_expand_dims1 u) (tf_expand_dims1 v)
  = Ok (tf_expand_dims1 (outer u v)).
Proof.
  unfold kron.
  change (nrows (tf_expand_dims1 u)) with (length u).
  change (ncols (tf_expand_dims1 u)) with 1.
  change (nrows (tf_expand_dims1 v)) with (length v).
  change (tf_zeros2 0 (1 * ncols (tf_expand_dims1 v)))
    with (mk_matrix 0 1 (@nil F)).
  rewrite (kron_col_rows u v (length u) 0 0 [] (Nat.le_refl _)).
  cbn [skipn app]. rewrite firstn_all.
  unfold tf_expand_dims1. rewrite outer_length. reflexivity.
Qed.

Lemma skipn_nth_error {A : Type} (l : list A) (k : nat) (a : A) :
  nth_error l k = Some a -> skipn k l = a :: skipn (S k) l.
Proof.
  revert k. induction l as [|b l IH]; intros [|k] Hk; simpl in *;
    try discriminate.
  - injection Hk as ->. reflexivity.
  - apply IH. exact Hk.
Qed.

(** A loop over indices that only reads [l[i]] is a loop over the slice. *)
Lemma for_each_getitem {A S : Type} (l : list A) (g : S -> A -> result S)
  (n : nat) :
  forall k s, k + n <= length l ->
  for_each (seq k n) (fun i out => mi <- getitem l i ;; g out mi) s
  = for_each (firstn n (skipn k l)) (fun mi out => g out mi) s.
Proof.
  induction n as [|n IH]; intros k s Hk.
  - reflexivity.
  - destruct (nth_error l k) as [a|] eqn:E.
    + rewrite (skipn_nth_error l k a E).
      cbn [seq firstn]. rewrite !for_each_cons. unfold getitem at 1.
      rewrite E. cbn [bind].
      destruct (g s a) as [s1|e]; cbn [bind]; [|reflexivity].
      apply IH. lia.
    + apply nth_error_None in E. lia.
Qed.

Lemma kron_cols_fold (rest : list (list F)) :
  forall acc,
  for_each (map tf_expand_dims1 rest) (fun mi out => kron out mi)
    (tf_expand_dims1 acc)
  = Ok (tf_expand_dims1 (fold_left outer rest acc)).
Proof.
  induction rest as [|e rest IH]; intros acc; simpl.
  - reflexivity.
  - rewrite kron_col. simpl. apply IH.
Qed.

(** [kron_list] of two or more columns is the column of the product of
    their entries. *)
Lemma kron_list_cols (e0 e1 : list F) (rest : list (list F)) :
  kron_list (map tf_expand_dims1 (e0 :: e1 :: rest))
  = Ok (tf_expand_dims1 (eig_product e0 e1 rest)).
Proof.
  unfold kron_list, eig_product. cbn [map getitem nth_error bind].
  rewrite kron_col. cbn [bind length].
  replace (S (S (length (map tf_expand_dims1 rest))) - 2) with (length rest)
    by (rewrite length_map; lia).
  rewrite for_each_getitem by (cbn [length]; rewrite length_map; lia).
  cbn [skipn]. rewrite <- (length_map tf_expand_dims1 rest), firstn_all.
  apply kron_cols_fold.
Qed.

Variable tf_log : F -> F.
Variable tf_self_adjoint_eig : matrix -> result (list F * matrix).

Lemma eig_columns (Ks_ : list matrix) (es : list (list F)) :
  eigenvalues_of tf_self_adjoint_eig Ks_ es ->
  comprehension
    (fun K => e <- tf_self_adjoint_eig K ;; Ok (tf_expand_dims1 (fst e))) Ks_
  = Ok (map tf_expand_dims1 es).
Proof.
  induction 1 as [|K e Ks_ es (V & HK) _ IH]; simpl.
  - reflexivity.
  - rewrite HK. simpl. rewrite IH. reflexivity.
Qed.

Lemma marginal_eig_K_product (Ks_ : list matrix) (e0 e1 : list F)
  (rest : list (list F)) :
  eigenvalues_of tf_self_adjoint_eig Ks_ (e0 :: e1 :: rest) ->
  marginal_eig_K tf_self_adjoint_eig Ks_
  = Ok (tf_squeeze (eig_product e0 e1 rest)).
Proof.
  intros He. unfold marginal_eig_K.
  rewrite (eig_columns _ _ He). cbn [bind].
  rewrite kron_list_cols. reflexivity.
Qed.

(** *** Sums over the masked entries *)

Lemma mask_select_zip_with (op : F -> F -> F) (b : list bool) :
  forall u v, length u = length b -> length v = length b ->
  mask_select (zip_with op u v) b
  = zip_with op (mask_select u b) (mask_select v b).
Proof.
  induction b as [|c b IH]; intros [|x u] [|z v] Hu Hv; simpl in *;
    try discriminate; try reflexivity.
  destruct c; simpl; rewrite IH by lia; reflexivity.
Qed.

Lemma mask_select_map (g : F -> F) (b : list bool) :
  forall u, mask_select (map g u) b = map g (mask_select u b).
Proof.
  induction b as [|c b IH]; intros [|x u]; simpl; try reflexivity.
  destruct c; simpl; rewrite IH; reflexivity.
Qed.

Lemma mask_select_length (b : list bool) :
  forall u v : list F, length u = length b -> length v = length b ->
  length (mask_select u b) = length (mask_select v b).
Proof.
  induction b as [|c b IH]; intros [|x u] [|z v] Hu Hv; simpl in *;
    try discriminate; try reflexivity.
  destruct c; simpl; rewrite (IH u v) by lia; reflexivity.
Qed.

Lemma broadcast_same_length (op : F -> F -> F) (u v : list F) :
  length u = length v -> broadcast op (T1 u) (T1 v) = Ok (T1 (zip_with op u v)).
Proof.
  intros Hl. simpl. rewrite Hl, Nat.eqb_refl. reflexivity.
Qed.

Lemma marginal_sums_vectors (lik : Likelihood) (yv fv av mv Wv ev : list F)
  (ll : tensor) :
  length fv = length mv -> length av = length fv -> length ev = length Wv ->
  log_like lik (T1 yv) (T1 fv) = Ok ll ->
  marginal_sums tf_log lik (T1 yv) (T1 fv) (T1 av) (T1 mv) (T1 Wv) (T1 ev)
  = Ok (laplace_formula tf_log av fv mv ev Wv ll None).
Proof.
  intros H1 H2 H3 Hll. unfold marginal_sums, tsub, tmul, tadd.
  rewrite (broadcast_same_length fsub fv mv H1). cbn [bind].
  rewrite (broadcast_same_length fmul av _).
  2: { rewrite zip_with_length; assumption. }
  cbn [bind]. rewrite (broadcast_same_length fmul ev Wv H3).
  cbn [bind broadcast].
  rewrite Hll. reflexivity.
Qed.

Lemma tf_squeeze_vector (l : list F) : length l <> 1 -> tf_squeeze l = T1 l.
Proof.
  destruct l as [|x [|x' l]]; simpl; intros Hl; try reflexivity. lia.
Qed.

Lemma tf_boolean_mask_vector (l : list F) (b : list bool) :
  length l = length b -> tf_boolean_mask (T1 l) b = Ok (T1 (mask_select l b)).
Proof. intros Hl. simpl. rewrite Hl, Nat.eqb_refl. reflexivity. Qed.

(** C8, as the code has it.  For a solver with two or more factors whose
    eigenvalues are [e0], [e1], ..., with [N]-vectors [y], [f], [alpha],
    [mu], [W] for [N] the product of the factor sizes, and with a mask, if
    any, of length [N] (and then [N] other than 1): [marginal] returns
    [-0.5 * sum(alpha * (f - mu)) - 0.5 * sum(log(1 + eig_K * W)) +
    sum(log_like(y, f))], where [eig_K] is [kron_list] of the factors'
    eigenvalue columns, entry by entry the product of one eigenvalue per
    factor, and where under a mask the first two sums run over the masked
    entries and the likelihood is called on the masked [y] and [f]. *)
Theorem marginal_laplace_formula (self : KroneckerSolver)
  (Ks_new : option (list matrix)) (e0 e1 : list F) (rest : list (list F))
  (yv fv av mv Wv : list F) (ll : tensor) :
  eigenvalues_of tf_self_adjoint_eig (match Ks_new with
                  | None => Ks self
                  | Some Ks' => Ks'
                  end) (e0 :: e1 :: rest) ->
  y self = T1 yv -> f self = T1 fv -> alpha self = T1 av ->
  mu self = T1 mv -> W self = T1 Wv ->
  length yv = length (eig_product e0 e1 rest) ->
  length fv = length (eig_product e0 e1 rest) ->
  length av = length (eig_product e0 e1 rest) ->
  length mv = length (eig_product e0 e1 rest) ->
  length Wv = length (eig_product e0 e1 rest) ->
  (forall b, mask self = Some b ->
     length b = length (eig_product e0 e1 rest)
     /\ length (eig_product e0 e1 rest) <> 1) ->
  log_like (likelihood self) (T1 (sel (mask self) yv))
    (T1 (sel (mask self) fv)) = Ok ll ->
  marginal tf_log tf_self_adjoint_eig self Ks_new
  = Ok (laplace_formula tf_log av fv mv (eig_product e0 e1 rest) Wv ll
          (mask self)).
Proof.
  intros He Hy Hf Ha Hm HW Ly Lf La Lm LW Hmask Hll.
  unfold marginal. rewrite (marginal_eig_K_product _ _ _ _ He). cbn [bind].
  rewrite Hy, Hf, Ha, Hm, HW.
  set (ev := eig_product e0 e1 rest) in *.
  destruct (mask self) as [b|].
  - destruct (Hmask b eq_refl) as (Lb & Hne).
    rewrite (tf_squeeze_vector ev Hne).
    rewrite !tf_boolean_mask_vector by congruence. cbn [bind].
    cbn [sel] in Hll.
    rewrite (marginal_sums_vectors _ _ _ _ _ _ _ ll); try assumption;
      try (apply mask_select_length; congruence).
    unfold laplace_formula. cbn [sel].
    rewrite !mask_select_map.
    rewrite !mask_select_zip_with
      by (try rewrite zip_with_length; congruence).
    reflexivity.
  - cbn [sel] in Hll.
    destruct (Nat.eq_dec (length ev) 1) as [E1|Hne].
    + destruct ev as [|x [|x' ev']]; try discriminate E1.
      destruct yv as [|y0 [|? ?]]; try discriminate Ly.
      destruct fv as [|f0 [|? ?]]; try discriminate Lf.
      destruct av as [|a0 [|? ?]]; try discriminate La.
      destruct mv as [|m0 [|? ?]]; try discriminate Lm.
      destruct Wv as [|w0 [|? ?]]; try discriminate LW.
      unfold marginal_sums. simpl. simpl in Hll. rewrite Hll. reflexivity.
    + rewrite (tf_squeeze_vector ev Hne).
      apply marginal_sums_vectors; congruence.
Qed.

End Marginal.

(** ** The rationals satisfy the laws *)

Lemma Qc_ltb_lt (a b : Qc) : Qc_ltb a b = true <-> (a < b)%Qc.
Proof.
  unfold Qc_ltb, Qclt, Qccompare. rewrite Qlt_alt.
  destruct (this a ?= this b)%Q; split; intros E; try reflexivity;
    try discriminate.
Qed.

#[export] Instance Qc_ScalarLaws : ScalarLaws Qc.
Proof.
  split.
  - exact Qcmult_comm.
  - intros a. simpl. destruct (Qc_ltb a a) eqn:E; [|reflexivity].
    apply Qc_ltb_lt in E. exfalso. exact (Qclt_not_eq _ _ E eq_refl).
  - intros a b c Hab Hbc. simpl in *.
    apply Qc_ltb_lt. apply Qc_ltb_lt in Hab, Hbc.
    exact (Qclt_trans _ _ _ Hbc Hab).
Qed.

(** ** The theorems at work *)

Section Witnesses.

Import FloatExamples.
Local Open Scope float_scope.

Lemma step_updates_alpha_witness :
  step (start plain) = Ok plain1
  /\ exists psi,
       objective plain = Ok psi
       /\ nv_delta plain1 = (float_info_max - psi)%F
       /\ nv_prev plain1 = psi.
Proof.
  assert (Hs : step (start plain) = Ok plain1) by (vm_compute; reflexivity).
  split; [exact Hs|].
  destruct (step_updates_alpha_iff_improved _ _ Hs)
    as (psi & self1 & da & st & Hobj & _ & Hdelta & Hprev & _).
  exists psi. repeat split; assumption.
Defined.

Lemma step_floors_nan_witness :
  step (start lin) = Ok lin1
  /\ step_search lin = Ok (T1 [nan; nan; nan; nan], 0)
  /\ exists a,
       (ds <- tmul (T1 [nan; nan; nan; nan]) (T0 0) ;; tadd zeros4 ds) = Ok a
       /\ alpha (nv_self lin1) = nan_floor a
       /\ no_nan (alpha (nv_self lin1))
       /\ nv_it lin1 = 1%Z.
Proof.
  assert (Hs : step (start lin) = Ok lin1) by (vm_compute; reflexivity).
  assert (Hsearch : step_search lin = Ok (T1 [nan; nan; nan; nan], 0))
    by (vm_compute; reflexivity).
  split; [exact Hs|]. split; [exact Hsearch|].
  destruct (step_floors_nan_locally _ _ Hs)
    as (psi & self1 & da & st & a & Hobj & Hdir & _ & _ & Hupd & _ & Hfloor
        & _ & _ & Hnn & Hit & _).
  unfold objective in Hobj. cbn [nv_self start] in Hobj, Hdir, Hupd.
  bind_inv Hobj. rewrite Ha0 in Hdir. cbn [bind] in Hdir.
  unfold step_search in Hsearch.
  rewrite Ha0 in Hsearch. cbn [bind] in Hsearch.
  rewrite Hobj in Hsearch. cbn [bind] in Hsearch.
  rewrite Hdir in Hsearch. cbn [bind fst snd] in Hsearch.
  injection Hsearch as Hda Hst. rewrite Hda, Hst in Hupd.
  assert (Hg : fgt (nv_delta lin1) lit_1e_5 = true)
    by (vm_compute; reflexivity).
  rewrite Hg in Hupd.
  exists a. split; [exact Hupd|]. split; [exact Hfloor|].
  split; [apply Hnn; reflexivity | exact Hit].
Defined.

Lemma run_final_f_witness :
  run diag 10 = Ok diag_out
  /\ step_f (nv_self diag_out)
     = (ad <- tmul (alpha (nv_self diag_out)) nugget ;;
        tadd (f (nv_self diag_out)) ad)
  /\ step_f (nv_self diag_out) <> Ok (f (nv_self diag_out)).
Proof.
  assert (Hr : run diag 10 = Ok diag_out) by (vm_compute; reflexivity).
  split; [exact Hr|].
  destruct (run_final_f_omits_k_diag _ _ _ Hr) as (_ & _ & Hd).
  split; [apply Hd; reflexivity|].
  intros E.
  apply (f_equal (fun r => match r with
                           | Ok (T1 (_ :: x :: _)) => PrimFloat.ltb 1.5 x
                           | _ => false
                           end)) in E.
  vm_compute in E. discriminate E.
Defined.

Lemma twice_maps_vec (n : nat) : maps_vec n twice.
Proof.
  intros p (l & -> & Hl). eexists. split; [reflexivity|].
  eexists. split; [reflexivity|]. rewrite length_map. exact Hl.
Defined.


Lemma cg_stops_witness :
  exists v0 k fin,
    cg_init (mk_CGOptimizer (Some twice)) (T1 [1; 2]) None = Ok v0
    /\ iterate (cg_body (mk_CGOptimizer (Some twice))) k v0 = Ok fin
    /\ cg (mk_CGOptimizer (Some twice)) (T1 [1; 2]) None = Ok (cg_x fin)
    /\ k <= 2 * 2.
Proof.
  destruct (cg_stops_on_residual_or_cap (mk_CGOptimizer (Some twice)) twice 2
              (T1 [1; 2]) None eq_refl (twice_maps_vec 2))
    as (v0 & k & fin & H1 & H2 & H3 & H4 & _).
  - eexists. split; reflexivity.
  - discriminate.
  - exists v0, k, fin. repeat split; assumption.
Defined.



Lemma plain_candidates (j : nat) :
  j < 19 ->
  search_objective plain zeros4 plain_direction y4 zeros4 (ls_step plain j)
  = Ok (plain_candidate j).
Proof.
  intros Hj.
  do 19 (destruct j as [|j]; [vm_compute; reflexivity|]).
  exfalso. apply Nat.lt_nge in Hj. apply Hj.
  do 19 apply le_n_S. apply Nat.le_0_l.
Defined.

Lemma line_search_backtracks_witness :
  exists k,
    k <= 19
    /\ line_search plain zeros4 plain_direction y4 15 20 zeros4
       = Ok (ls_best plain 15 plain_candidate k)
    /\ ls_goes_on plain 15 plain_candidate 20 k = false.
Proof.
  destruct (line_search_backtracks plain zeros4 plain_direction y4 zeros4 15
              plain_candidate plain_candidates)
    as (k & H1 & H2 & _ & _ & _ & H6 & _).
  exists k. repeat split; assumption.
Defined.

(** C4 does not hold of the code: with a likelihood that has no curvature
    the curvature weight is zero, the Newton direction is NaN, the line
    search returns the step size [0.0], the update is applied
    ([delta > 1e-5]) and yields NaN, the floor stores [1e-9] everywhere, and
    the objective there is above the objective at the [alpha] before. *)
Lemma nan_floor_raises_objective :
  step (start lin) = Ok lin1
  /\ fgt (nv_delta lin1) lit_1e_5 = true
  /\ step_search lin = Ok (T1 [nan; nan; nan; nan], 0)
  /\ alpha (nv_self lin1) = nan_floor (T1 [nan; nan; nan; nan])
  /\ objective lin = Ok 0
  /\ exists psi', objective (nv_self lin1) = Ok psi' /\ fgt psi' 0 = true.
Proof.
  repeat split; try (vm_compute; reflexivity).
  eexists. split; vm_compute; reflexivity.
Qed.

Lemma marginal_formula_witness :
  marginal log3 eig2 masked None
  = Ok (laplace_formula log3 [0.5; 0.25; 0; 1] [1; 0.5; 0.75; 2] [0; 0; 0; 0]
          (eig_product [0.5; 1.5] [0.5; 1.5] []) [1; 1; 1; 1] masked_ll
          (Some held_out)).
Proof.
  apply (marginal_laplace_formula log3 eig2 masked None [0.5; 1.5] [0.5; 1.5]
           [] [1; 2; 3; 4]); try reflexivity.
  - repeat constructor; eexists; reflexivity.
  - intros b Hb. injection Hb as <-. split; [reflexivity | discriminate].
Defined.

(** C8 does not hold of the code for a single factor: [kron_list] reads
    [matrices[1]]. *)
Lemma marginal_single_factor_raises :
  marginal log3 eig2 single None = Err IndexError.
Proof.
  vm_compute. reflexivity.
Qed.

End Witnesses.

Lemma update_does_not_raise_objective_witness :
  step RationalExamples.start = Ok RationalExamples.plain1
  /\ exists psi psi',
       objective RationalExamples.plain = Ok psi
       /\ objective (nv_self RationalExamples.plain1) = Ok psi'
       /\ fgt psi' psi = false.
Proof.
  assert (Hs : step RationalExamples.start = Ok RationalExamples.plain1)
    by (vm_compute; reflexivity).
  split; [exact Hs|].
  apply (update_does_not_raise_objective RationalExamples.start
           RationalExamples.plain1 (fst RationalExamples.search1)
           (snd RationalExamples.search1) Hs).
  - vm_compute. reflexivity.
  - vm_compute. reflexivity.
  - intros E. apply (f_equal this) in E. vm_compute in E. discriminate E.
Defined.

(** * Further properties *)

(** ** Tables *)

Section Tables.

Context {F : Type} `{Scalar F}.

Local Abbreviation matrix := (matrix F).

Lemma rows_length (g : nat -> nat -> F) (c r a : nat) :
  length (flat_map (fun i => map (g i) (seq 0 c)) (seq a r)) = r * c.
Proof.
  revert a. induction r as [|r IH]; intros a; simpl; [reflexivity|].
  rewrite length_app, length_map, length_seq, IH. reflexivity.
Qed.

Lemma rows_nth (g : nat -> nat -> F) (c r : nat) (d : F) :
  forall a i j, i < r -> j < c ->
  nth (i * c + j) (flat_map (fun i => map (g i) (seq 0 c)) (seq a r)) d
  = g (a + i) j.
Proof.
  induction r as [|r IH]; intros a i j Hi Hj; [lia|].
  simpl. destruct i as [|i].
  - rewrite app_nth1 by (rewrite length_map, length_seq; simpl; lia).
    simpl.
    rewrite (nth_indep _ d (g a 0)) by (rewrite length_map, length_seq; lia).
    rewrite map_nth, seq_nth by lia. rewrite Nat.add_0_r. reflexivity.
  - rewrite app_nth2 by (rewrite length_map, length_seq; simpl; lia).
    rewrite length_map, length_seq.
    replace (S i * c + j - c) with (i * c + j) by (simpl; lia).
    rewrite IH by lia. f_equal. lia.
Qed.

Lemma mget_matrix_of (r c : nat) (g : nat -> nat -> F) (i j : nat) :
  i < r -> j < c -> mget (matrix_of r c g) i j = g i j.
Proof.
  intros Hi Hj. unfold mget, matrix_of. cbn [ncols mdata].
  apply (rows_nth g c r fzero 0 i j Hi Hj).
Qed.

Lemma matrix_of_wf (r c : nat) (g : nat -> nat -> F) :
  wf_matrix (matrix_of r c g).
Proof. unfold wf_matrix, matrix_of. cbn. apply rows_length. Qed.

Lemma rows_ext (c : nat) (g g' : nat -> nat -> F) (r : nat) :
  forall a,
  (forall i j, a <= i < a + r -> j < c -> g i j = g' i j) ->
  flat_map (fun i => map (g i) (seq 0 c)) (seq a r)
  = flat_map (fun i => map (g' i) (seq 0 c)) (seq a r).
Proof.
  induction r as [|r IH]; intros a E; simpl; [reflexivity|].
  rewrite IH by (intros i j Hi Hj; apply E; lia). f_equal.
  apply map_ext_in. intros j Hj. apply in_seq in Hj. apply E; lia.
Qed.

Lemma matrix_of_ext (r c : nat) (g g' : nat -> nat -> F) :
  (forall i j, i < r -> j < c -> g i j = g' i j) ->
  matrix_of r c g = matrix_of r c g'.
Proof.
  intros E. unfold matrix_of. f_equal. apply rows_ext.
  intros i j Hi Hj. apply E; lia.
Qed.

(** The buffer of a table, read at a flat index. *)
Lemma matrix_of_nth (r c : nat) (g : nat -> nat -> F) (m : nat) (d : F) :
  m < r * c -> nth m (mdata (matrix_of r c g)) d = g (m / c) (m mod c).
Proof.
  intros Hm. assert (Hc : c <> 0) by (intros ->; lia).
  rewrite (Nat.div_mod m c Hc) at 1. rewrite (Nat.mul_comm c).
  unfold matrix_of. cbn [mdata].
  apply (rows_nth g c r d 0).
  - apply Nat.Div0.div_lt_upper_bound. lia.
  - apply Nat.mod_upper_bound. exact Hc.
Qed.

(** A well-formed matrix is the table of its entries. *)
Lemma matrix_of_mget (m : matrix) :
  wf_matrix m -> matrix_of (nrows m) (ncols m) (mget m) = m.
Proof.
  destruct m as [r c l]. unfold wf_matrix. cbn [nrows ncols mdata]. intros Hl.
  unfold matrix_of. f_equal.
  apply (nth_ext _ _ fzero fzero).
  - rewrite rows_length. symmetry. exact Hl.
  - intros n Hn. rewrite rows_length in Hn.
    pose proof (matrix_of_nth r c (mget (mk_matrix r c l)) n fzero Hn) as E.
    unfold matrix_of in E. cbn [mdata] in E. rewrite E.
    unfold mget. cbn [ncols mdata]. f_equal.
    assert (Hc : c <> 0) by (intros ->; lia).
    rewrite (Nat.div_mod n c Hc) at 3. lia.
Qed.

Lemma mrow_matrix_of (r c : nat) (g : nat -> nat -> F) (k : nat) :
  k < r -> mrow (matrix_of r c g) k = map (g k) (seq 0 c).
Proof.
  intros Hk. unfold mrow. cbn [ncols matrix_of].
  apply map_ext_in. intros j Hj. apply in_seq in Hj.
  apply mget_matrix_of; lia.
Qed.

Lemma map_seq_shift {A : Type} (g : nat -> A) (w q : nat) :
  map g (seq w q) = map (fun t => g (w + t)) (seq 0 q).
Proof.
  revert g. induction w as [|w IH]; intros g.
  - reflexivity.
  - rewrite <- seq_shift, map_map, IH. reflexivity.
Qed.

Lemma flat_map_ext_in {A B : Type} (g g' : A -> list B) (l : list A) :
  (forall a, In a l -> g a = g' a) -> flat_map g l = flat_map g' l.
Proof.
  induction l as [|a l IH]; intros E; simpl; [reflexivity|].
  rewrite E by (left; reflexivity). rewrite IH; [reflexivity|].
  intros b Hb. apply E. right. exact Hb.
Qed.

Lemma flat_map_nil {A B : Type} (l : list A) :
  flat_map (fun _ => @nil B) l = [].
Proof. induction l as [|a l IH]; simpl; [reflexivity | exact IH]. Qed.

Lemma map_flat_map {A B C : Type} (g : B -> C) (h : A -> list B)
  (l : list A) :
  map g (flat_map h l) = flat_map (fun a => map g (h a)) l.
Proof.
  induction l as [|a l IH]; simpl; [reflexivity|].
  rewrite map_app, IH. reflexivity.
Qed.

(** [tf.concat(.., 1)] of two tables of the same height. *)
Lemma tf_concat1_matrix_of (p w q : nat) (g1 g2 : nat -> nat -> F) :
  tf_concat1 (matrix_of p w g1) (matrix_of p q g2)
  = Ok (matrix_of p (w + q)
          (fun k t => if Nat.ltb t w then g1 k t else g2 k (t - w))).
Proof.
  unfold tf_concat1. cbn [nrows ncols matrix_of]. rewrite Nat.eqb_refl.
  f_equal. unfold matrix_of at 3. f_equal.
  apply flat_map_ext_in. intros k Hk. apply in_seq in Hk.
  rewrite !mrow_matrix_of by lia.
  rewrite seq_app, map_app. f_equal.
  - apply map_ext_in. intros t Ht. apply in_seq in Ht.
    replace (Nat.ltb t w) with true; [reflexivity|].
    symmetry. apply Nat.ltb_lt. lia.
  - cbn [Nat.add]. rewrite (map_seq_shift _ w q).
    apply map_ext_in. intros t Ht.
    replace (Nat.ltb (w + t) w) with false
      by (symmetry; apply Nat.ltb_ge; lia).
    f_equal. lia.
Qed.

(** [tf.concat(.., 0)] of two tables of the same width. *)
Lemma tf_concat0_matrix_of (r1 r2 c : nat) (g1 g2 : nat -> nat -> F) :
  tf_concat0 (matrix_of r1 c g1) (matrix_of r2 c g2)
  = Ok (matrix_of (r1 + r2) c
          (fun s t => if Nat.ltb s r1 then g1 s t else g2 (s - r1) t)).
Proof.
  unfold tf_concat0. cbn [nrows ncols mdata matrix_of]. rewrite Nat.eqb_refl.
  f_equal. unfold matrix_of. f_equal.
  rewrite seq_app, flat_map_app. f_equal.
  - apply flat_map_ext_in. intros s Hs. apply in_seq in Hs.
    replace (Nat.ltb s r1) with true; [reflexivity|].
    symmetry. apply Nat.ltb_lt. lia.
  - cbn [Nat.add].
    rewrite (flat_map_concat_map _ (seq r1 r2)), map_seq_shift.
    rewrite (flat_map_concat_map _ (seq 0 r2)). f_equal.
    apply map_ext_in. intros s Hs.
    replace (Nat.ltb (r1 + s) r1) with false
      by (symmetry; apply Nat.ltb_ge; lia).
    replace (r1 + s - r1) with s by lia. reflexivity.
Qed.

Lemma tf_zeros2_no_columns (p : nat) (g : nat -> nat -> F) :
  tf_zeros2 p 0 = matrix_of p 0 g.
Proof.
  unfold tf_zeros2, matrix_of. f_equal.
  rewrite Nat.mul_0_r. cbn [repeat seq map].
  symmetry. apply flat_map_nil.
Qed.

Lemma mscale_matrix_of (x : F) (p q : nat) (g : nat -> nat -> F) :
  mscale x (matrix_of p q g) = matrix_of p q (fun k l => (x * g k l)%F).
Proof.
  unfold mscale, matrix_of. cbn [nrows ncols mdata]. f_equal.
  rewrite map_flat_map. apply flat_map_ext. intros k. apply map_map.
Qed.

Lemma mscale_table (x : F) (B : matrix) :
  wf_matrix B ->
  mscale x B
  = matrix_of (nrows B) (ncols B) (fun k l => (x * mget B k l)%F).
Proof.
  intros HB. rewrite <- mscale_matrix_of, (matrix_of_mget B HB). reflexivity.
Qed.

Lemma tf_transpose_matrix_of (r c : nat) (g : nat -> nat -> F) :
  tf_transpose (matrix_of r c g) = matrix_of c r (fun j i => g i j).
Proof.
  unfold tf_transpose. cbn [nrows ncols matrix_of].
  apply matrix_of_ext. intros j i Hj Hi.
  apply (mget_matrix_of r c g i j Hi Hj).
Qed.

Lemma sum_list_ext (g g' : nat -> F) (n : nat) :
  (forall k, k < n -> g k = g' k) ->
  sum_list (map g (seq 0 n)) = sum_list (map g' (seq 0 n)).
Proof.
  intros E. f_equal. apply map_ext_in. intros k Hk. apply in_seq in Hk.
  apply E. lia.
Qed.

Lemma tf_matmul_matrix_of (a b : matrix) :
  ncols a = nrows b ->
  tf_matmul a b
  = Ok (matrix_of (nrows a) (ncols b)
          (fun i j => sum_list (map (fun k => (mget a i k * mget b k j)%F)
                                    (seq 0 (ncols a))))).
Proof. intros E. unfold tf_matmul. rewrite E, Nat.eqb_refl. reflexivity. Qed.

Lemma tf_matmul_table (a : matrix) (r c : nat) (g : nat -> nat -> F) :
  ncols a = r ->
  tf_matmul a (matrix_of r c g)
  = Ok (matrix_of (nrows a) c
          (fun i j => sum_list (map (fun k => (mget a i k * g k j)%F)
                                    (seq 0 (ncols a))))).
Proof.
  intros E. rewrite tf_matmul_matrix_of by exact E.
  cbn [ncols matrix_of]. f_equal.
  apply matrix_of_ext. intros i j Hi Hj.
  apply sum_list_ext. intros k Hk.
  rewrite (mget_matrix_of r c g k j) by lia. reflexivity.
Qed.

Lemma tf_reshape2_same (r c : nat) (g : nat -> nat -> F) (r' c' : nat) :
  r' * c' = r * c ->
  tf_reshape2 (mdata (matrix_of r c g)) r' c'
  = Ok (mk_matrix r' c' (mdata (matrix_of r c g))).
Proof.
  intros E. unfold tf_reshape2. cbn [matrix_of mdata].
  rewrite rows_length, E, Nat.eqb_refl. reflexivity.
Qed.

End Tables.

(** ** Kronecker product *)

Section KroneckerProduct.

Context {F : Type} `{Scalar F}.

Local Abbreviation matrix := (matrix F).

Lemma kron_row (A B : matrix) (i n : nat) :
  wf_matrix B ->
  forall j,
  for_each (seq j n)
    (fun j row => tf_concat1 row (mscale (mget A i j) B))
    (matrix_of (nrows B) (j * ncols B)
       (fun k t => kron_table A B (i * nrows B + k) t))
  = Ok (matrix_of (nrows B) ((j + n) * ncols B)
          (fun k t => kron_table A B (i * nrows B + k) t)).
Proof.
  intros HB. induction n as [|n IH]; intros j.
  - cbn [seq for_each]. rewrite Nat.add_0_r. reflexivity.
  - cbn [seq]. rewrite for_each_cons.
    rewrite (mscale_table _ B HB), tf_concat1_matrix_of. cbn [bind].
    replace (j + S n) with (S j + n) by lia. rewrite <- IH.
    f_equal.
    replace (j * ncols B + ncols B) with (S j * ncols B) by (simpl; lia).
    apply matrix_of_ext. intros k t Hk Ht.
    destruct (Nat.ltb t (j * ncols B)) eqn:E; [reflexivity|].
    apply Nat.ltb_ge in E. unfold kron_table.
    assert (Hq : ncols B <> 0) by (intros E0; rewrite E0 in *; lia).
    assert (Hp : nrows B <> 0) by lia.
    replace (t / ncols B) with j
      by (apply Nat.div_unique with (t - j * ncols B); simpl in Ht; lia).
    replace (t mod ncols B) with (t - j * ncols B)
      by (apply Nat.mod_unique with j; simpl in Ht; lia).
    replace ((i * nrows B + k) / nrows B) with i
      by (apply Nat.div_unique with k; lia).
    replace ((i * nrows B + k) mod nrows B) with k
      by (apply Nat.mod_unique with i; lia).
    reflexivity.
Qed.

Lemma kron_rows (A B : matrix) (n : nat) :
  wf_matrix B ->
  forall i,
  for_each (seq i n)
    (fun i out =>
       row <- for_each (seq 0 (ncols A))
                (fun j row => tf_concat1 row (mscale (mget A i j) B))
                (tf_zeros2 (nrows B) 0) ;;
       tf_concat0 out row)
    (matrix_of (i * nrows B) (ncols A * ncols B) (kron_table A B))
  = Ok (matrix_of ((i + n) * nrows B) (ncols A * ncols B) (kron_table A B)).
Proof.
  intros HB. induction n as [|n IH]; intros i.
  - cbn [seq for_each]. rewrite Nat.add_0_r. reflexivity.
  - cbn [seq]. rewrite for_each_cons.
    rewrite (tf_zeros2_no_columns (nrows B)
               (fun k t => kron_table A B (i * nrows B + k) t)) at 1.
    pose proof (kron_row A B i (ncols A) HB 0) as Hrow.
    cbn [Nat.mul Nat.add] in Hrow. rewrite Hrow. cbn [bind].
    rewrite tf_concat0_matrix_of. cbn [bind].
    replace (i + S n) with (S i + n) by lia. rewrite <- IH.
    f_equal.
    replace (i * nrows B + nrows B) with (S i * nrows B) by (simpl; lia).
    apply matrix_of_ext. intros s t Hs Ht.
    destruct (Nat.ltb s (i * nrows B)) eqn:E; [reflexivity|].
    apply Nat.ltb_ge in E. f_equal. simpl in Hs. lia.
Qed.

(** [kron] builds the table of the Kronecker product. *)
Lemma kron_matrix_of (A B : matrix) :
  wf_matrix B ->
  kron A B
  = Ok (matrix_of (nrows A * nrows B) (ncols A * ncols B) (kron_table A B)).
Proof.
  intros HB. unfold kron.
  pose proof (kron_rows A B (nrows A) HB 0) as Hrows.
  cbn [Nat.mul Nat.add] in Hrows. exact Hrows.
Qed.

(** X1. [kron(A, B)] returns the Kronecker product: a matrix of
    [rows(A) * rows(B)] rows and [cols(A) * cols(B)] columns whose entry at
    row [i * rows(B) + k] and column [j * cols(B) + l] is
    [A[i, j] * B[k, l]].  It raises nothing, also when a dimension is
    zero. *)
Theorem kron_is_kronecker_product (A B : matrix) :
  wf_matrix B ->
  exists K,
    kron A B = Ok K
    /\ nrows K = nrows A * nrows B
    /\ ncols K = ncols A * ncols B
    /\ wf_matrix K
    /\ forall i j k l,
         i < nrows A -> j < ncols A -> k < nrows B -> l < ncols B ->
         mget K (i * nrows B + k) (j * ncols B + l)
         = (mget A i j * mget B k l)%F.
Proof.
  intros HB. eexists. split; [apply (kron_matrix_of A B HB)|].
  split; [reflexivity|]. split; [reflexivity|].
  split; [apply matrix_of_wf|].
  intros i j k l Hi Hj Hk Hl.
  rewrite mget_matrix_of by nia.
  unfold kron_table.
  replace ((i * nrows B + k) / nrows B) with i
    by (apply Nat.div_unique with k; lia).
  replace ((i * nrows B + k) mod nrows B) with k
    by (apply Nat.mod_unique with i; lia).
  replace ((j * ncols B + l) / ncols B) with j
    by (apply Nat.div_unique with l; lia).
  replace ((j * ncols B + l) mod ncols B) with l
    by (apply Nat.mod_unique with j; lia).
  reflexivity.
Qed.

(** X2. [kron_list] reads [matrices[0]] and [matrices[1]] before anything
    else: on a list of fewer than two matrices it raises [IndexError]. *)
Theorem kron_list_needs_two_matrices (matrices : list matrix) :
  length matrices < 2 -> kron_list matrices = Err IndexError.
Proof.
  intros Hl. destruct matrices as [|A [|B rest]]; simpl in Hl; try lia;
    reflexivity.
Qed.

Lemma kron_fold_shape (rest : list matrix) :
  Forall wf_matrix rest ->
  forall acc, wf_matrix acc ->
  exists K,
    for_each rest (fun mi out => kron out mi) acc = Ok K
    /\ wf_matrix K
    /\ nrows K = nrows acc * dims_product nrows rest
    /\ ncols K = ncols acc * dims_product ncols rest.
Proof.
  induction 1 as [|M rest HM _ IH]; intros acc Hacc.
  - exists acc. split; [reflexivity|]. split; [exact Hacc|].
    unfold dims_product. cbn [map fold_right]. split; lia.
  - cbn [for_each].
    rewrite (kron_matrix_of acc M HM). cbn [bind].
    destruct (IH (matrix_of (nrows acc * nrows M) (ncols acc * ncols M)
                    (kron_table acc M)) (matrix_of_wf _ _ _))
      as (K & HK & Hwf & Hr & Hc).
    exists K. split; [exact HK|]. split; [exact Hwf|].
    rewrite Hr, Hc. unfold dims_product.
    cbn [map fold_right nrows ncols matrix_of].
    split; lia.
Qed.

(** X3. On two or more matrices [kron_list] returns, and its result has
    the product of the numbers of rows as its number of rows and the
    product of the numbers of columns as its number of columns. *)
Theorem kron_list_shape (matrices : list matrix) :
  2 <= length matrices -> Forall wf_matrix matrices ->
  exists K,
    kron_list matrices = Ok K
    /\ wf_matrix K
    /\ nrows K = dims_product nrows matrices
    /\ ncols K = dims_product ncols matrices.
Proof.
  intros Hl Hwf. destruct matrices as [|A [|B rest]]; simpl in Hl; try lia.
  inversion Hwf as [|? ? HA Hwf1]; subst.
  inversion Hwf1 as [|? ? HB Hrest]; subst.
  unfold kron_list. cbn [getitem nth_error bind].
  rewrite (kron_matrix_of A B HB). cbn [bind length].
  replace (S (S (length rest)) - 2) with (length rest) by lia.
  rewrite (for_each_getitem (A :: B :: rest) (fun out mi => kron out mi)
             (length rest) 2) by (cbn [length]; lia).
  cbn [skipn]. rewrite firstn_all.
  destruct (kron_fold_shape rest Hrest
              (matrix_of (nrows A * nrows B) (ncols A * ncols B)
                 (kron_table A B)) (matrix_of_wf _ _ _))
    as (K & HK & HwfK & Hr & Hc).
  exists K. split; [exact HK|]. split; [exact HwfK|].
  rewrite Hr, Hc. unfold dims_product.
  cbn [map fold_right nrows ncols matrix_of].
  split; lia.
Qed.

End KroneckerProduct.

(** ** Kronecker matrix-vector product, in general *)

Section KroneckerMvp.

Context {F : Type} `{Scalar F}.

Local Abbreviation matrix := (matrix F).
Local Abbreviation tensor := (tensor F).

Lemma kron_mvp_pass_fits (V_rows V_cols : nat) (k mvp : matrix) :
  (Nat.eqb (ncols k) (nrows mvp)
   && Nat.eqb (V_rows * V_cols) (ncols mvp * nrows k) = true ->
   exists buf, kron_mvp_pass V_rows V_cols k mvp
               = Ok (mk_matrix V_rows V_cols buf))
  /\ (Nat.eqb (ncols k) (nrows mvp)
      && Nat.eqb (V_rows * V_cols) (ncols mvp * nrows k) = false ->
      kron_mvp_pass V_rows V_cols k mvp = Err InvalidArgumentError).
Proof.
  unfold kron_mvp_pass, tf_matmul.
  destruct (Nat.eqb (ncols k) (nrows mvp)); cbn [bind andb].
  - unfold tf_reshape2, tf_transpose. cbn [nrows ncols matrix_of mdata].
    rewrite rows_length.
    destruct (Nat.eqb (V_rows * V_cols) (ncols mvp * nrows k)).
    + split; [intros _ | discriminate]. eexists. reflexivity.
    + split; [discriminate | reflexivity].
  - split; [discriminate | reflexivity].
Qed.

Lemma kron_mvp_loop_fits (V_rows V_cols : nat) (ks : list matrix) :
  forall mvp,
  (passes_fit V_rows V_cols (nrows mvp) (ncols mvp) ks = true ->
   exists out, for_each ks (kron_mvp_pass V_rows V_cols) mvp = Ok out)
  /\ (passes_fit V_rows V_cols (nrows mvp) (ncols mvp) ks = false ->
      for_each ks (kron_mvp_pass V_rows V_cols) mvp
      = Err InvalidArgumentError).
Proof.
  induction ks as [|k ks IH]; intros mvp.
  - split; [intros _; exists mvp; reflexivity | discriminate].
  - cbn [passes_fit for_each].
    destruct (kron_mvp_pass_fits V_rows V_cols k mvp) as (Hyes & Hno).
    destruct (Nat.eqb (ncols k) (nrows mvp)
              && Nat.eqb (V_rows * V_cols) (ncols mvp * nrows k)).
    + destruct (Hyes eq_refl) as (buf & ->). cbn [bind andb].
      apply (IH (mk_matrix V_rows V_cols buf)).
    + rewrite (Hno eq_refl). cbn [bind andb].
      split; [discriminate | reflexivity].
Qed.

(** X4. [kron_mvp] returns exactly when the shapes fit, whatever the
    values: [Ks] has a first factor, with [V_rows >= 1] rows; [v] is a
    rank-1 tensor whose length is a multiple of [V_rows], [V_cols] times
    it; and every pass of the loop fits, the last factor first: the factor
    has as many columns as [mvp] has rows, and its transposed product with
    [mvp] has [V_rows * V_cols] entries.  Otherwise it raises. *)
Theorem kron_mvp_returns_iff_shapes_fit (Ks_ : list matrix) (v : tensor) :
  (exists r, kron_mvp Ks_ v = Ok r) <-> kron_mvp_fits Ks_ v.
Proof.
  unfold kron_mvp, kron_mvp_fits, getitem. split.
  - intros (r & Hr).
    destruct (nth_error Ks_ 0) as [K0|]; [|discriminate Hr].
    cbn [bind] in Hr. destruct v as [x|l]; [discriminate Hr|].
    cbn [shape0 bind] in Hr. unfold dim_div in Hr.
    destruct (nrows K0) as [|n1] eqn:En; [discriminate Hr|].
    cbn [bind] in Hr. unfold tf_reshape2 at 1 in Hr.
    destruct (Nat.eqb (S n1 * (length l / S n1)) (length l)) eqn:El;
      [|discriminate Hr].
    cbn [bind] in Hr. apply Nat.eqb_eq in El.
    exists K0, l. rewrite En.
    split; [reflexivity|]. split; [reflexivity|].
    split; [discriminate|]. split; [exact El|].
    bind_inv Hr.
    match type of Ha with
    | for_each _ _ ?V = _ =>
        destruct (kron_mvp_loop_fits (S n1) (length l / S n1) (rev Ks_) V)
          as (_ & Hno)
    end.
    cbn [tf_transpose nrows ncols matrix_of] in Hno.
    destruct (passes_fit (S n1) (length l / S n1) (length l / S n1) (S n1)
                (rev Ks_)); [reflexivity|].
    unfold kron_mvp_pass in Hno. rewrite (Hno eq_refl) in Ha. discriminate Ha.
  - intros (K0 & l & -> & -> & Hn & Hl & Hfit).
    cbn [bind shape0]. unfold dim_div.
    destruct (nrows K0) as [|n1] eqn:En; [contradiction|].
    cbn [bind]. unfold tf_reshape2 at 1. rewrite Hl, Nat.eqb_refl.
    cbn [bind].
    match goal with
    | |- exists r, bind (for_each _ _ ?V) _ = _ =>
        destruct (kron_mvp_loop_fits (S n1) (length l / S n1) (rev Ks_) V)
          as (Hyes & _)
    end.
    cbn [tf_transpose nrows ncols matrix_of] in Hyes.
    destruct (Hyes Hfit) as (out & Hout).
    unfold kron_mvp_pass in Hout. rewrite Hout. cbn [bind].
    eexists. reflexivity.
Qed.

Lemma rev_last {A : Type} (l : list A) (d : A) :
  l <> [] -> rev l = last l d :: rev (removelast l).
Proof.
  intros Hl. rewrite (app_removelast_last d Hl) at 1.
  rewrite rev_app_distr. reflexivity.
Qed.

Lemma dims_product_last (ms : list matrix) (d : matrix) :
  ms <> [] -> Forall proper_factor ms ->
  1 <= nrows (last ms d) <= dims_product nrows ms.
Proof.
  intros Hne Hall. induction Hall as [|M ms (_ & HM) Hms IH]; [congruence|].
  destruct ms as [|M' ms].
  - unfold dims_product. cbn. lia.
  - assert (IH' := IH ltac:(discriminate)).
    change (last (M :: M' :: ms) d) with (last (M' :: ms) d).
    unfold dims_product in *. cbn [map fold_right] in *. nia.
Qed.

(** The size of the last factor is not the product of the sizes after the
    first, unless there are exactly two factors. *)
Lemma last_size_is_not_the_rest (K1 : matrix) (rest : list matrix) :
  length rest <> 1 -> Forall proper_factor (K1 :: rest) ->
  nrows (last (K1 :: rest) K1) <> dims_product nrows rest.
Proof.
  intros Hl Hall. inversion Hall as [|? ? (_ & H1) Hrest]; subst.
  destruct rest as [|K2 [|K3 rest]].
  - unfold dims_product. cbn. lia.
  - cbn in Hl. lia.
  - inversion Hrest as [|? ? (_ & H2) Hrest']; subst.
    change (last (K1 :: K2 :: K3 :: rest) K1) with (last (K3 :: rest) K1).
    pose proof (dims_product_last (K3 :: rest) K1 ltac:(discriminate) Hrest')
      as Hlast.
    unfold dims_product in *. cbn [map fold_right] in *. nia.
Qed.

(** X5. [kron_mvp] works for two factors only.  With one factor, or with
    three or more, all square of size at least two, and a vector of the
    length of their Kronecker product, it raises [InvalidArgumentError]:
    the first [tf.matmul] multiplies the last factor with a matrix of
    [len(v) / rows(Ks[0])] rows, which is not the size of the last factor. *)
Theorem kron_mvp_needs_two_factors (Ks_ : list matrix) (l : list F) :
  Ks_ <> [] -> length Ks_ <> 2 -> Forall proper_factor Ks_ ->
  length l = dims_product nrows Ks_ ->
  kron_mvp Ks_ (T1 l) = Err InvalidArgumentError.
Proof.
  intros Hne Hl Hall Hlen.
  destruct Ks_ as [|K1 rest]; [congruence|].
  assert (Hrest : length rest <> 1) by (cbn in Hl; lia).
  pose proof (last_size_is_not_the_rest K1 rest Hrest Hall) as Hlast.
  inversion Hall as [|? ? (Hc1 & H1) _]; subst.
  unfold dims_product in Hlen. cbn [map fold_right] in Hlen.
  fold (dims_product nrows rest) in Hlen.
  assert (Hdiv : length l / nrows K1 = dims_product nrows rest).
  { rewrite Hlen, Nat.mul_comm. apply Nat.div_mul. lia. }
  unfold kron_mvp. cbn [getitem nth_error bind shape0]. unfold dim_div.
  destruct (nrows K1) as [|n1] eqn:En; [lia|]. cbn [bind].
  unfold tf_reshape2 at 1. rewrite Hdiv, <- Hlen, Nat.eqb_refl. cbn [bind].
  match goal with
  | |- bind (for_each _ _ ?V) _ = _ =>
      destruct (kron_mvp_loop_fits (S n1) (dims_product nrows rest)
                  (rev (K1 :: rest)) V) as (_ & Hno)
  end.
  unfold kron_mvp_pass in Hno. rewrite Hno; [reflexivity|].
  rewrite (rev_last (K1 :: rest) K1) by discriminate.
  cbn [passes_fit tf_transpose nrows ncols matrix_of].
  replace (Nat.eqb (ncols (last (K1 :: rest) K1)) (dims_product nrows rest))
    with false; [reflexivity|].
  symmetry. apply Nat.eqb_neq.
  assert (Hin : In (last (K1 :: rest) K1) (K1 :: rest)).
  { destruct (@exists_last _ (K1 :: rest) ltac:(discriminate)) as (l' & a & E).
    rewrite E, last_last. apply in_or_app. right. left. reflexivity. }
  rewrite Forall_forall in Hall. destruct (Hall _ Hin) as (-> & _).
  exact Hlast.
Qed.

(** *** Two factors *)

Lemma kron_mvp_pass_table (V_rows V_cols : nat) (k : matrix) (r c : nat)
  (g : nat -> nat -> F) :
  ncols k = r -> V_rows * V_cols = c * nrows k ->
  kron_mvp_pass V_rows V_cols k (matrix_of r c g)
  = Ok (mk_matrix V_rows V_cols
          (mdata
             (matrix_of c (nrows k)
                (fun j i =>
                   sum_list (map (fun t => (mget k i t * g t j)%F)
                                 (seq 0 (ncols k))))))).
Proof.
  intros Hk Hshape. unfold kron_mvp_pass.
  rewrite (tf_matmul_table k r c g Hk). cbn [bind].
  rewrite tf_transpose_matrix_of.
  apply tf_reshape2_same. exact Hshape.
Qed.

(** The buffer [kron_mvp] returns for two square factors. *)
Lemma kron_mvp_two_factors_table (A B : matrix) (l : list F) :
  ncols A = nrows A -> ncols B = nrows B -> nrows A <> 0 ->
  length l = nrows A * nrows B ->
  kron_mvp [A; B] (T1 l)
  = Ok (tf_squeeze
          (mdata
             (matrix_of (nrows B) (nrows A)
                (fun b a =>
                   kron_mvp_entry A B l ((a * nrows B + b) mod nrows A)
                     ((a * nrows B + b) / nrows A))))).
Proof.
  intros HA HB Hn Hl.
  assert (Hdiv : length l / nrows A = nrows B).
  { rewrite Hl, Nat.mul_comm. apply Nat.div_mul. exact Hn. }
  unfold kron_mvp. cbn [getitem nth_error bind shape0]. unfold dim_div.
  destruct (nrows A) as [|m] eqn:En; [contradiction|]. cbn [bind].
  rewrite <- En in *. rewrite Hdiv.
  unfold tf_reshape2 at 1. rewrite <- Hl, Nat.eqb_refl. cbn [bind].
  change (for_each (rev [A; B])
            (fun k mvp =>
               p <- tf_matmul k mvp ;;
               tf_reshape2 (mdata (tf_transpose p)) (nrows A) (nrows B)))
    with (for_each [B; A] (kron_mvp_pass (nrows A) (nrows B))).
  change (tf_transpose (mk_matrix (nrows A) (nrows B) l))
    with (matrix_of (nrows B) (nrows A)
            (fun j i => mget (mk_matrix (nrows A) (nrows B) l) i j)).
  cbn [for_each].
  rewrite (kron_mvp_pass_table (nrows A) (nrows B) B (nrows B) (nrows A))
    by (try exact HB; lia).
  cbn [bind].
  match goal with
  | |- context [mk_matrix (nrows A) (nrows B) (mdata (matrix_of ?r ?c ?g))] =>
      change (mk_matrix (nrows A) (nrows B) (mdata (matrix_of r c g)))
        with (matrix_of (nrows A) (nrows B) g)
  end.
  rewrite (kron_mvp_pass_table (nrows A) (nrows B) A (nrows A) (nrows B))
    by (try exact HA; lia).
  cbn [bind]. f_equal. f_equal.
  unfold tf_transpose. cbn [nrows ncols]. f_equal.
  apply matrix_of_ext. intros b a Hb Ha.
  unfold mget at 1. cbn [ncols mdata].
  rewrite matrix_of_nth by nia.
  unfold kron_mvp_entry. apply sum_list_ext. intros i' Hi'.
  f_equal. rewrite HB. apply sum_list_ext. intros j' Hj'.
  unfold mget at 2. cbn [ncols mdata]. reflexivity.
Qed.

(** X6. For two square factors of sizes [n1] and [n2] and a vector of
    length [n1 * n2], [kron_mvp] returns [n1 * n2] entries (squeezed), each
    an entry of the product of the Kronecker product with [v]; but the one
    at position [b * n1 + a] is the entry [(i, j)] with
    [j * n1 + i = a * n2 + b], which belongs at position [i * n2 + j]:
    the last pass reshapes an [n2 x n1] buffer as [n1 x n2]. *)
Theorem kron_mvp_two_factors (A B : matrix) (l : list F) :
  ncols A = nrows A -> ncols B = nrows B -> nrows A <> 0 ->
  length l = nrows A * nrows B ->
  exists out,
    kron_mvp [A; B] (T1 l) = Ok (tf_squeeze out)
    /\ length out = nrows A * nrows B
    /\ forall a b, a < nrows A -> b < nrows B ->
         nth (b * nrows A + a) out fzero
         = kron_mvp_entry A B l ((a * nrows B + b) mod nrows A)
             ((a * nrows B + b) / nrows A).
Proof.
  intros HA HB Hn Hl. eexists.
  split; [apply (kron_mvp_two_factors_table A B l HA HB Hn Hl)|].
  cbn [matrix_of mdata]. split.
  - rewrite rows_length. lia.
  - intros a b Ha Hb.
    apply (rows_nth
             (fun b a =>
                kron_mvp_entry A B l ((a * nrows B + b) mod nrows A)
                  ((a * nrows B + b) / nrows A))
             (nrows A) (nrows B) fzero 0 b a Hb Ha).
Qed.

(** The buffer [kron_mvp] returns for two factors of the same size. *)
Lemma kron_mvp_equal_table (A B : matrix) (l : list F) (n : nat) :
  nrows A = n -> ncols A = n -> nrows B = n -> ncols B = n -> n <> 0 ->
  length l = n * n ->
  kron_mvp [A; B] (T1 l)
  = Ok (tf_squeeze (mdata (matrix_of n n (kron_mvp_entry A B l)))).
Proof.
  intros HrA HcA HrB HcB Hn Hl.
  rewrite (kron_mvp_two_factors_table A B l) by congruence.
  rewrite HrA, HrB. f_equal. f_equal. f_equal.
  apply matrix_of_ext. intros b a Hb Ha.
  replace ((a * n + b) mod n) with b by (apply Nat.mod_unique with a; lia).
  replace ((a * n + b) / n) with a by (apply Nat.div_unique with b; lia).
  reflexivity.
Qed.

(** X7. For two factors of the same size [n] and a vector of length
    [n * n], [kron_mvp] returns the product in the right order: the entry
    at position [i * n + j] is
    [sum_i' A[i, i'] * (sum_j' B[j, j'] * v[i' * n + j'])]. *)
Theorem kron_mvp_equal_factors (A B : matrix) (l : list F) (n : nat) :
  nrows A = n -> ncols A = n -> nrows B = n -> ncols B = n -> n <> 0 ->
  length l = n * n ->
  exists out,
    kron_mvp [A; B] (T1 l) = Ok (tf_squeeze out)
    /\ length out = n * n
    /\ forall i j, i < n -> j < n ->
         nth (i * n + j) out fzero = kron_mvp_entry A B l i j.
Proof.
  intros HrA HcA HrB HcB Hn Hl. eexists.
  split; [apply (kron_mvp_equal_table A B l n HrA HcA HrB HcB Hn Hl)|].
  cbn [matrix_of mdata]. split.
  - apply rows_length.
  - intros i j Hi Hj.
    apply (rows_nth (kron_mvp_entry A B l) n n fzero 0 i j Hi Hj).
Qed.

End KroneckerMvp.

(** *** Exact arithmetic *)

Lemma Qc_fold_left_plus (l : list Qc) (a : Qc) :
  fold_left Qcplus l a = (a + fold_left Qcplus l (Q2Qc 0%Q))%Qc.
Proof.
  revert a. induction l as [|x l IH]; intros a; simpl.
  - ring.
  - rewrite IH. rewrite (IH (Q2Qc 0 + x)%Qc). ring.
Qed.

Lemma Qc_sum_list_app (l1 l2 : list Qc) :
  sum_list (l1 ++ l2) = (sum_list l1 + sum_list l2)%Qc.
Proof.
  unfold sum_list. cbn [fadd fzero Qc_Scalar].
  rewrite fold_left_app. apply Qc_fold_left_plus.
Qed.

Lemma Qc_sum_list_cons (x : Qc) (l : list Qc) :
  sum_list (x :: l) = (x + sum_list l)%Qc.
Proof.
  change (x :: l) with ([x] ++ l). rewrite Qc_sum_list_app. f_equal.
  unfold sum_list. cbn. ring.
Qed.

Lemma Qc_sum_list_scale (x : Qc) (g : nat -> Qc) (l : list nat) :
  (x * sum_list (map g l))%Qc = sum_list (map (fun j => (x * g j)%Qc) l).
Proof.
  induction l as [|j l IH]; cbn [map].
  - unfold sum_list. cbn. ring.
  - rewrite !Qc_sum_list_cons, <- IH. ring.
Qed.

(** A sum over [n * m] indices, taken in [n] blocks of [m]. *)
Lemma Qc_sum_list_blocks (g : nat -> Qc) (m n : nat) :
  sum_list (map g (seq 0 (n * m)))
  = sum_list
      (map (fun i => sum_list (map (fun j => g (i * m + j)) (seq 0 m)))
           (seq 0 n)).
Proof.
  induction n as [|n IH].
  - reflexivity.
  - replace (S n * m) with (n * m + m) by (simpl; lia).
    rewrite seq_app, map_app, Qc_sum_list_app, IH.
    rewrite (seq_S n 0), map_app, Qc_sum_list_app. f_equal.
    cbn [map Nat.add]. rewrite map_seq_shift.
    rewrite (Qc_sum_list_cons _ []).
    change (sum_list (@nil Qc)) with (Q2Qc 0%Q). ring.
Qed.

(** X8. In exact arithmetic, for two factors of the same size [n] and a
    vector of length [n * n], [kron_mvp] returns what the dense product
    returns: [tf.matmul(kron(A, B), v)], squeezed. *)
Theorem kron_mvp_is_the_dense_product (A B : matrix Qc) (l : list Qc)
  (n : nat) :
  nrows A = n -> ncols A = n -> nrows B = n -> ncols B = n -> n <> 0 ->
  wf_matrix B -> length l = n * n ->
  exists K d,
    kron A B = Ok K
    /\ dense_mvp K l = Ok d
    /\ kron_mvp [A; B] (T1 l) = Ok (tf_squeeze d).
Proof.
  intros HrA HcA HrB HcB Hn HwfB Hl.
  pose proof (kron_mvp_equal_table A B l n HrA HcA HrB HcB Hn Hl) as Hk.
  pose proof (kron_matrix_of A B HwfB) as HK.
  rewrite HrA, HrB, HcA, HcB in HK.
  set (K := matrix_of (n * n) (n * n) (kron_table A B)) in *.
  assert (Hd : dense_mvp K l
               = Ok (mdata
                       (matrix_of (n * n) 1
                          (fun i j =>
                             sum_list
                               (map (fun k =>
                                       (mget K i k
                                        * mget (tf_expand_dims1 l) k j)%F)
                                    (seq 0 (n * n))))))).
  { unfold dense_mvp.
    rewrite tf_matmul_matrix_of by (cbn; exact (eq_sym Hl)). reflexivity. }
  exists K. eexists. split; [exact HK|]. split; [exact Hd|].
  rewrite Hk. f_equal. f_equal. cbn [matrix_of mdata].
  apply (nth_ext _ _ (Q2Qc 0%Q) (Q2Qc 0%Q)).
  - rewrite !rows_length. lia.
  - intros s Hs. rewrite rows_length in Hs.
    pose proof (matrix_of_nth n n (kron_mvp_entry A B l) s (Q2Qc 0%Q) Hs) as E1.
    cbn [matrix_of mdata] in E1. rewrite E1. clear E1.
    pose proof (matrix_of_nth (n * n) 1
                  (fun i j =>
                     sum_list
                       (map (fun k =>
                               (mget K i k * mget (tf_expand_dims1 l) k j)%F)
                            (seq 0 (n * n))))
                  s (Q2Qc 0%Q) ltac:(lia)) as E2.
    cbn [matrix_of mdata] in E2. rewrite E2. clear E2.
    rewrite Nat.div_1_r, Nat.mod_1_r.
    rewrite Qc_sum_list_blocks.
    unfold kron_mvp_entry. rewrite HcA, HcB.
    apply sum_list_ext. intros i' Hi'.
    change (@fmul Qc Qc_Scalar) with Qcmult.
    rewrite Qc_sum_list_scale.
    apply sum_list_ext. intros j' Hj'.
    unfold K.
    rewrite (mget_matrix_of (n * n) (n * n) (kron_table A B) s (i' * n + j')
               Hs ltac:(nia)).
    unfold kron_table. rewrite HrB, HcB.
    replace ((i' * n + j') / n) with i'
      by (apply Nat.div_unique with j'; lia).
    replace ((i' * n + j') mod n) with j'
      by (apply Nat.mod_unique with i'; lia).
    unfold mget, tf_expand_dims1. cbn [ncols mdata].
    replace ((i' * n + j') * 1 + 0) with (i' * n + j') by lia.
    change (@fzero Qc Qc_Scalar) with (Q2Qc 0%Q).
    change (@fmul Qc Qc_Scalar) with Qcmult.
    ring.
Qed.

(** ** Conjugate gradients with and without a product *)

Section Operator.

Context {F : Type} `{Scalar F}.

Local Abbreviation matrix := (matrix F).
Local Abbreviation tensor := (tensor F).
Local Abbreviation KroneckerSolver := (@KroneckerSolver F).
Local Abbreviation CGOptimizer := (@CGOptimizer F).
Local Abbreviation cg_vars := (@cg_vars F).
Local Abbreviation newton_vars := (@newton_vars F).

Lemma cg_no_product (self : CGOptimizer) (b : tensor) (pre : option tensor) :
  cg_prod self = None ->
  cg self b pre = match b with
                  | T0 _ => Err IndexError
                  | T1 _ => Err TypeError
                  end.
Proof.
  intros Hnone. unfold cg, cg_init, call_cg_prod. rewrite Hnone.
  destruct b; reflexivity.
Qed.

(** X9. An optimizer built as [CGOptimizer()] has no product function:
    [cg] raises [TypeError] on every vector [b], at the first call of
    [self.cg_prod]; on a rank-0 [b] it raises [IndexError] before, at
    [b.get_shape().as_list()[0]]. *)
Theorem cg_without_product_raises (self : CGOptimizer) (b : tensor)
  (pre : option tensor) :
  cg_prod self = None ->
  (forall l, b = T1 l -> cg self b pre = Err TypeError)
  /\ (forall x, b = T0 x -> cg self b pre = Err IndexError).
Proof.
  intros Hnone.
  split; intros ? ->; rewrite (cg_no_product _ _ _ Hnone); reflexivity.
Qed.

Lemma step_direction_reaches_cg (self self1 : KroneckerSolver) (psi : F)
  (delta_alpha : tensor) (step_size : F) :
  step_direction self psi = Ok (self1, delta_alpha, step_size) ->
  exists rhs z, cg (opt self) rhs (k_diag self) = Ok z.
Proof.
  unfold step_direction. intros Hd. repeat bind_inv Hd.
  cbn [opt k_diag set_W set_grads] in Ha8.
  eexists _, _. exact Ha8.
Qed.

(** X10. A solver whose optimizer is [CGOptimizer()], as [__init__] leaves
    it, cannot take a Newton step: [step] never returns, and [run] returns
    only when its loop does not start, with [it = 0] and [alpha]
    untouched. *)
Theorem default_optimizer_blocks_newton (self : KroneckerSolver) :
  cg_prod (opt self) = None ->
  (forall max_it it prev delta v',
     step (mk_newton_vars self max_it it prev delta) <> Ok v')
  /\ forall max_it out,
       run self max_it = Ok out ->
       nv_it out = 0%Z /\ alpha (nv_self out) = alpha self
       /\ conv (newton_init self max_it) = false.
Proof.
  intros Hnone.
  assert (Hstep : forall v v', opt (nv_self v) = opt self -> step v <> Ok v').
  { intros v v' Hopt Hs.
    destruct (step_inv _ _ Hs)
      as (f_ & psi & self1 & da & st & a & _ & _ & Hd & _ & _).
    destruct (step_direction_reaches_cg _ _ _ _ _ Hd) as (rhs & z & Hcg).
    cbn [opt set_f] in Hcg. rewrite Hopt in Hcg.
    rewrite (cg_no_product _ _ _ Hnone) in Hcg.
    destruct rhs; discriminate Hcg. }
  split.
  - intros max_it it prev delta v'. apply Hstep. reflexivity.
  - intros max_it out Hr. unfold run in Hr.
    bind_inv Hr. bind_inv Hr. bind_inv Hr. bind_inv Hr. bind_inv Hr.
    injection Hr as <-. cbn [nv_it nv_self alpha set_f set_grads].
    rewrite (while_loop_unfold newton_measure conv step conv_measure
               step_measure) in Ha.
    fold (newton_init self max_it) in Ha.
    destruct (conv (newton_init self max_it)) eqn:Ec.
    + bind_inv Ha. exfalso.
      exact (Hstep (newton_init self max_it) a4 eq_refl Ha4).
    + injection Ha as <-. repeat split.
Qed.

(** *** The operator of the solver *)

Lemma tmap_vec (g : F -> F) (n : nat) (t : tensor) :
  is_vec n t -> is_vec n (tmap g t).
Proof.
  intros (l & -> & Hl). exists (map g l).
  split; [reflexivity | rewrite length_map; exact Hl].
Qed.

Lemma broadcast_vec_squeezed (op : F -> F -> F) (n : nat) (a : tensor)
  (buf : list F) :
  is_vec n a -> length buf = n ->
  exists c, broadcast op a (tf_squeeze buf) = Ok c /\ is_vec n c.
Proof.
  intros Ha Hb. destruct buf as [|x [|x' buf]].
  - apply broadcast_vec; [exact Ha | exists []; split; [reflexivity | exact Hb]].
  - destruct Ha as (u & -> & Hu). cbn [tf_squeeze broadcast].
    eexists. split; [reflexivity|]. eexists. split; [reflexivity|].
    rewrite length_map. exact Hu.
  - apply broadcast_vec; [exact Ha|].
    eexists. split; [reflexivity | exact Hb].
Qed.

Lemma broadcast_squeezed_vec (op : F -> F -> F) (n : nat) (buf : list F)
  (b : tensor) :
  length buf = n -> is_vec n b ->
  exists c, broadcast op (tf_squeeze buf) b = Ok c /\ is_vec n c.
Proof.
  intros Ha Hb. destruct buf as [|x [|x' buf]].
  - apply broadcast_vec; [exists []; split; [reflexivity | exact Ha] | exact Hb].
  - apply broadcast_scalar_vec. exact Hb.
  - apply broadcast_vec; [|exact Hb].
    eexists. split; [reflexivity | exact Ha].
Qed.

Ltac run_bind E :=
  let c := fresh "c" in
  let Hc := fresh "H" c in
  destruct E as (c & -> & Hc); cbn [bind].

(** On a grid of two square factors the method [cg_prod] maps vectors of
    the size of the grid to vectors of that size. *)
Lemma cg_prod_maps_vec (self : KroneckerSolver) (A B : matrix) :
  Ks self = [A; B] ->
  ncols A = nrows A -> ncols B = nrows B -> nrows A <> 0 ->
  is_vec (nrows A * nrows B) (W self) ->
  (forall d, k_diag self = Some d -> is_vec (nrows A * nrows B) d) ->
  maps_vec (nrows A * nrows B) (KroneckerSolver_cg_prod self).
Proof.
  intros HKs HA HB Hn HW Hd p Hp.
  pose proof (tmap_vec fsqrt _ _ HW) as HsW.
  unfold KroneckerSolver_cg_prod, tmul, tadd. rewrite HKs.
  destruct (k_diag self) as [d|].
  - specialize (Hd d eq_refl).
    run_bind (broadcast_vec fmul _ _ _ HsW Hp).
    destruct Hc as (wp & -> & Hwp).
    rewrite (kron_mvp_two_factors_table A B wp HA HB Hn Hwp). cbn [bind].
    assert (Hwp' : is_vec (nrows A * nrows B) (T1 wp))
      by (eexists; split; [reflexivity | exact Hwp]).
    run_bind (broadcast_vec fmul _ _ _ Hd Hwp').
    match goal with
    | |- context [tf_squeeze ?buf] =>
        assert (Hbuf : length buf = nrows A * nrows B)
          by (cbn [matrix_of mdata]; rewrite rows_length; lia);
        destruct (broadcast_squeezed_vec fadd _ buf _ Hbuf Hc)
          as (c0 & Hc0' & Hc0)
    end.
    rewrite Hc0'. cbn [bind].
    run_bind (broadcast_vec fmul _ _ _ HsW Hc0).
    apply broadcast_vec; assumption.
  - run_bind (broadcast_vec fmul _ _ _ HsW Hp).
    destruct Hc as (wp & -> & Hwp).
    rewrite (kron_mvp_two_factors_table A B wp HA HB Hn Hwp). cbn [bind].
    match goal with
    | |- context [tf_squeeze ?buf] =>
        assert (Hbuf : length buf = nrows A * nrows B)
          by (cbn [matrix_of mdata]; rewrite rows_length; lia);
        destruct (broadcast_vec_squeezed fmul _ _ buf HsW Hbuf)
          as (c0 & Hc0' & Hc0)
    end.
    rewrite Hc0'. cbn [bind].
    apply broadcast_vec; assumption.
Qed.

Lemma cg_body_shapes (self : CGOptimizer) (prod : tensor -> result tensor)
  (n : nat) (v v' : cg_vars) :
  cg_prod self = Some prod -> maps_vec n prod -> cg_shapes n v ->
  cg_body self v = Ok v' -> cg_shapes n v'.
Proof.
  intros Hprod Hmaps Hv Hb.
  destruct (cg_body_total self prod n v Hprod Hmaps Hv) as (v1 & Hv1 & Hsh & _).
  rewrite Hb in Hv1. injection Hv1 as <-. exact Hsh.
Qed.

(** X11. On a grid of two square factors, with [W] (and [k_diag], if
    configured) of the size [N] of the grid, the solver's own [cg_prod] maps
    [N]-vectors to [N]-vectors, and [cg] run with it on an [N]-vector [b]
    returns an [N]-vector: nothing in the chain [cg] - [cg_prod] -
    [kron_mvp] raises. *)
Theorem cg_with_solver_operator_returns (self : KroneckerSolver)
  (A B : matrix) (b : tensor) :
  Ks self = [A; B] ->
  ncols A = nrows A -> ncols B = nrows B -> nrows A <> 0 ->
  is_vec (nrows A * nrows B) (W self) ->
  (forall d, k_diag self = Some d -> is_vec (nrows A * nrows B) d) ->
  is_vec (nrows A * nrows B) b ->
  maps_vec (nrows A * nrows B) (KroneckerSolver_cg_prod self)
  /\ exists x,
       cg (mk_CGOptimizer (Some (KroneckerSolver_cg_prod self))) b
         (k_diag self) = Ok x
       /\ is_vec (nrows A * nrows B) x.
Proof.
  intros HKs HA HB Hn HW Hd Hb.
  pose proof (cg_prod_maps_vec self A B HKs HA HB Hn HW Hd) as Hmaps.
  split; [exact Hmaps|].
  set (o := mk_CGOptimizer (Some (KroneckerSolver_cg_prod self))).
  destruct (cg_init_total o _ _ b (k_diag self) eq_refl Hmaps Hb Hd)
    as (v0 & Hinit & Hsh0 & _).
  destruct (cg_run o _ _ b (k_diag self) eq_refl Hmaps Hb Hd)
    as (v0' & k & fin & Hinit' & _ & _ & Hrun & Hcg).
  rewrite Hinit in Hinit'. injection Hinit' as <-.
  exists (cg_x fin). split; [exact Hcg|].
  assert (Hfin : cg_shapes (nrows A * nrows B) fin).
  { refine (while_run_invariant cg_converged (cg_body o) _ _ _ _ _ Hrun Hsh0).
    intros s s1 _ Hs HP.
    exact (cg_body_shapes o _ _ _ _ eq_refl Hmaps HP Hs). }
  destruct Hfin as (_ & Hx & _). exact Hx.
Qed.

End Operator.

(** *** The residual, in exact arithmetic *)

(** The last of [k + 1] rounds. *)
Lemma iterate_last {St : Type} (body : St -> result St) (k : nat) :
  forall s s', iterate body (S k) s = Ok s' ->
  exists si, iterate body k s = Ok si /\ body si = Ok s'.
Proof.
  induction k as [|k IH]; intros s s' Hk.
  - cbn [iterate] in Hk. bind_inv Hk. injection Hk as <-.
    exists s. split; [reflexivity | exact Ha].
  - change (iterate body (S (S k)) s)
      with (s1 <- body s ;; iterate body (S k) s1) in Hk.
    bind_inv Hk. destruct (IH a s' Hk) as (si & Hsi & Hb).
    exists si. split; [|exact Hb].
    cbn [iterate]. rewrite Ha. exact Hsi.
Qed.

Lemma Qc_residual_update (bl Mx Mp : list Qc) (a : Qc) :
  length Mx = length bl -> length Mp = length bl ->
  zip_with Qcminus bl (zip_with Qcplus Mx (map (Qcmult a) Mp))
  = zip_with Qcminus (zip_with Qcminus bl Mx) (map (Qcmult a) Mp).
Proof.
  revert Mx Mp. induction bl as [|b0 bl IH]; intros [|m Mx] [|q Mp] H1 H2;
    simpl in *; try discriminate; try reflexivity.
  rewrite IH by lia. f_equal. ring.
Qed.

Lemma cg_body_true_residual (self : CGOptimizer)
  (prod : tensor Qc -> result (tensor Qc)) (n : nat) (b : tensor Qc)
  (v v' : cg_vars) :
  cg_prod self = Some prod -> maps_vec n prod -> linear_on n prod ->
  is_vec n b -> cg_shapes n v ->
  cg_body self v = Ok v' ->
  cg_true_residual prod b v -> cg_true_residual prod b v'.
Proof.
  intros Hprod Hmaps Hlin Hb Hsh Hbody (Mx & HMx & Hr).
  destruct (cg_body_inv _ _ _ Hbody)
    as (Bp & nk & dn & ap & aBp & HBp & _ & _ & Hap & Hx & HaBp & Hr' & _).
  unfold call_cg_prod in HBp. rewrite Hprod in HBp.
  destruct Hsh as (Hp & Hxv & Hrv & _).
  destruct Hb as (bl & -> & Hbl).
  destruct Hp as (pl & Ep & Hpl). destruct Hxv as (xl & Ex & Hxl).
  rewrite Ep in *. rewrite Ex in *.
  destruct (Hmaps (T1 pl)) as (q & Hq & (Mp & -> & HMp));
    [eexists; split; [reflexivity | exact Hpl]|].
  rewrite HBp in Hq. injection Hq as ->.
  destruct (Hmaps (T1 xl)) as (q & Hq & (Mxl & -> & HMxl));
    [eexists; split; [reflexivity | exact Hxl]|].
  rewrite HMx in Hq. injection Hq as ->.
  cbn [tmul tadd tsub broadcast] in Hap, HaBp. injection Hap as <-.
  injection HaBp as <-.
  unfold tadd in Hx. cbn [broadcast] in Hx.
  rewrite length_map, Hxl, Hpl, Nat.eqb_refl in Hx. injection Hx as Hx.
  unfold tsub in Hr. cbn [broadcast] in Hr.
  rewrite Hbl, HMxl, Nat.eqb_refl in Hr. injection Hr as Hr.
  rewrite <- Hr in Hr'. unfold cg_true_residual. rewrite <- Hx.
  exists (T1 (zip_with Qcplus Mxl (map (Qcmult (nk / dn)%F) Mp))). split.
  - exact (Hlin xl pl Mxl Mp (nk / dn)%F Hxl Hpl HMx HBp).
  - unfold tsub in Hr' |- *. cbn [broadcast] in Hr' |- *.
    rewrite zip_with_length in Hr' by lia.
    rewrite length_map, Hbl, HMp, Nat.eqb_refl in Hr'.
    rewrite zip_with_length by (rewrite length_map; lia).
    rewrite Hbl, HMxl, Nat.eqb_refl. rewrite <- Hr'. f_equal. f_equal.
    apply Qc_residual_update; lia.
Qed.

(** X12. In exact arithmetic and for a linear product function, the
    residual that [cg] carries and tests is the residual of the iterate it
    carries, [r = b - cg_prod(x)], in every round.  So take the round [k]
    at which the loop of [cg] stops (the test held before every earlier
    round and fails in the final variables [fin]), at most [2N]: [cg]
    returns [x = cg_x fin], the residual variable [cg_r fin] is
    [b - cg_prod(x)], and if [k < 2N] the squared sum of [b - cg_prod(x)]
    is not above [1e-5]. *)
Theorem cg_residual_is_the_true_residual (self : CGOptimizer)
  (prod : tensor Qc -> result (tensor Qc)) (n : nat) (b : tensor Qc)
  (pre : option (tensor Qc)) :
  cg_prod self = Some prod -> maps_vec n prod -> linear_on n prod ->
  is_vec n b -> (forall d, pre = Some d -> is_vec n d) ->
  exists v0 k fin Mx,
    cg_init self b pre = Ok v0
    /\ iterate (cg_body self) k v0 = Ok fin
    /\ (forall j, j < k ->
        exists vj, iterate (cg_body self) j v0 = Ok vj
                   /\ cg_converged vj = true)
    /\ cg_converged fin = false
    /\ cg_count fin = Z.of_nat k
    /\ k <= 2 * n
    /\ cg self b pre = Ok (cg_x fin)
    /\ prod (cg_x fin) = Ok Mx
    /\ tsub b Mx = Ok (cg_r fin)
    /\ (forall j vj, j <= k -> iterate (cg_body self) j v0 = Ok vj ->
        exists Mxj, prod (cg_x vj) = Ok Mxj /\ tsub b Mxj = Ok (cg_r vj))
    /\ (k < 2 * n ->
        exists r, tsub b Mx = Ok r /\ fgt (sum_sq r) lit_1e_5 = false).
Proof.
  intros Hprod Hmaps Hlin Hb Hpre.
  destruct (cg_init_total self prod n b pre Hprod Hmaps Hb Hpre)
    as (v0 & Hinit & Hsh0 & _).
  destruct (cg_run self prod n b pre Hprod Hmaps Hb Hpre)
    as (v0' & k & fin & Hinit' & Hc0 & Hm0 & Hrun & Hcg).
  rewrite Hinit in Hinit'. injection Hinit' as <-.
  assert (Hres0 : cg_true_residual prod b v0).
  { unfold cg_init, call_cg_prod in Hinit. rewrite Hprod in Hinit.
    repeat bind_inv Hinit. destruct a2 as [p z]. injection Hinit as <-.
    exists a0. cbn [cg_x cg_r]. split; assumption. }
  assert (Hrounds : forall j vj, iterate (cg_body self) j v0 = Ok vj ->
            cg_shapes n vj /\ cg_true_residual prod b vj).
  { intros j. induction j as [|j IH]; intros vj Hj.
    - injection Hj as <-. split; assumption.
    - destruct (iterate_last (cg_body self) j v0 vj Hj) as (vi & Hvi & Hbody).
      destruct (IH vi Hvi) as (Hsh & Hres). split.
      + exact (cg_body_shapes self prod n vi vj Hprod Hmaps Hsh Hbody).
      + exact (cg_body_true_residual self prod n b vi vj Hprod Hmaps Hlin Hb
                 Hsh Hbody Hres). }
  destruct (while_run_iterate cg_converged (cg_body self) v0 fin k Hrun)
    as (Hit & Hstop & Hbefore).
  destruct (iterate_count self k v0 fin Hit) as (Hck & Hmk).
  destruct (Hrounds k fin Hit) as (_ & Mx & HMx & Hr).
  assert (Hk : k <= 2 * n).
  { destruct k as [|k]; [lia|].
    destruct (Hbefore k ltac:(lia)) as (vj & Hvj & Hcj).
    destruct (iterate_count self k v0 vj Hvj) as (Hcnt & Hmax).
    unfold cg_converged in Hcj. apply andb_prop in Hcj. destruct Hcj as [_ Hl].
    apply Z.ltb_lt in Hl. lia. }
  exists v0, k, fin, Mx.
  split; [exact Hinit|]. split; [exact Hit|]. split; [exact Hbefore|].
  split; [exact Hstop|]. split; [lia|]. split; [exact Hk|].
  split; [exact Hcg|]. split; [exact HMx|]. split; [exact Hr|].
  split.
  - intros j vj _ Hj. destruct (Hrounds j vj Hj) as (_ & Hres). exact Hres.
  - intros Hlt. exists (cg_r fin). split; [exact Hr|].
    unfold cg_converged in Hstop. apply andb_false_iff in Hstop.
    destruct Hstop as [Hg | Hl]; [exact Hg|].
    apply Z.ltb_ge in Hl. lia.
Qed.

(** ** The Newton loop *)

Section NewtonLoop.

Context {F : Type} `{Scalar F}.

Local Abbreviation tensor := (tensor F).
Local Abbreviation KroneckerSolver := (@KroneckerSolver F).
Local Abbreviation newton_vars := (@newton_vars F).

Lemma same_setup_refl (s : KroneckerSolver) : same_setup s s.
Proof. repeat split. Qed.

Lemma same_setup_trans (s1 s2 s3 : KroneckerSolver) :
  same_setup s1 s2 -> same_setup s2 s3 -> same_setup s1 s3.
Proof.
  unfold same_setup, same_config.
  intros ((? & ? & ? & ? & ? & ?) & ? & ? & ? & ? & ? & ?)
         ((? & ? & ? & ? & ? & ?) & ? & ? & ? & ? & ? & ?).
  repeat split; congruence.
Qed.

Lemma step_same_setup (v v' : newton_vars) :
  step v = Ok v' -> same_setup (nv_self v) (nv_self v').
Proof.
  intros Hs.
  destruct (step_inv _ _ Hs)
    as (f_ & psi & self1 & da & st & a & _ & _ & Hd & _ & ->).
  destruct (step_direction_fields _ _ _ _ _ Hd) as (g & w & ->).
  repeat split.
Qed.

Lemma step_no_nan (v v' : newton_vars) :
  fis_nan (fone * lit_1e_9)%F = false ->
  step v = Ok v' -> no_nan (alpha (nv_self v')).
Proof.
  intros H1 Hs.
  destruct (step_inv _ _ Hs)
    as (f_ & psi & self1 & da & st & a & _ & _ & _ & _ & ->).
  cbn [nv_self alpha set_alpha]. unfold no_nan. rewrite nan_floor_entries.
  apply Forall_forall. intros x Hx.
  apply in_map_iff in Hx. destruct Hx as (x0 & <- & _).
  destruct (fis_nan x0) eqn:E; [exact H1 | exact E].
Qed.

Lemma iterate_step_count (k : nat) :
  forall v v', iterate step k v = Ok v' ->
  nv_it v' = (nv_it v + Z.of_nat k)%Z /\ nv_max_it v' = nv_max_it v.
Proof.
  induction k as [|k IH]; intros v v' Hi; simpl in Hi.
  - injection Hi as <-. split; [lia | reflexivity].
  - bind_inv Hi.
    destruct (step_inv _ _ Ha) as (? & ? & ? & ? & ? & ? & _ & _ & _ & _ & E).
    destruct (IH _ _ Hi) as (-> & ->). rewrite E. cbn.
    split; [lia | reflexivity].
Qed.

(** What [run] does: its loop, then two assignments, to [f] and to
    [grads]; it returns the loop variables. *)
Lemma run_inv (self : KroneckerSolver) (max_it : Z) (out : newton_vars) :
  run self max_it = Ok out ->
  exists k fin f_ g,
    while_run conv step (newton_init self max_it) k fin
    /\ out = mk_newton_vars (set_grads (set_f (nv_self fin) f_) g)
               (nv_max_it fin) (nv_it fin) (nv_prev fin) (nv_delta fin).
Proof.
  unfold run. intros Hr.
  bind_inv Hr. bind_inv Hr. bind_inv Hr. bind_inv Hr. bind_inv Hr.
  injection Hr as <-.
  destruct (while_loop_run _ _ _ conv_measure step_measure _ _ Ha)
    as (k & Hrun).
  exists k, a, a1, a3. split; [exact Hrun | reflexivity].
Qed.

(** X13. When [run] returns, its loop made some number [k] of steps, at
    most [max_it] (none when [max_it <= 0]); [it] is [k]; before each step
    [delta] was above [1e-5]; and if [k < max_it], the loop stopped because
    [delta] was not above [1e-5].  With [k = max_it] the returned variables
    do not tell whether the iteration converged. *)
Theorem run_stops_on_cap_or_small_decrease (self : KroneckerSolver)
  (max_it : Z) (out : newton_vars) :
  run self max_it = Ok out ->
  exists k fin,
    iterate step k (newton_init self max_it) = Ok fin
    /\ nv_it out = Z.of_nat k
    /\ nv_max_it out = max_it
    /\ nv_prev out = nv_prev fin
    /\ nv_delta out = nv_delta fin
    /\ alpha (nv_self out) = alpha (nv_self fin)
    /\ (Z.of_nat k <= Z.max 0 max_it)%Z
    /\ (forall j, j < k ->
        exists vj, iterate step j (newton_init self max_it) = Ok vj
                   /\ nv_it vj = Z.of_nat j
                   /\ fgt (nv_delta vj) lit_1e_5 = true)
    /\ ((Z.of_nat k < max_it)%Z -> fgt (nv_delta out) lit_1e_5 = false).
Proof.
  intros Hr. destruct (run_inv _ _ _ Hr) as (k & fin & f_ & g & Hrun & ->).
  destruct (while_run_iterate conv step _ _ _ Hrun) as (Hit & Hstop & Hbefore).
  destruct (iterate_step_count _ _ _ Hit) as (Hck & Hmk).
  cbn [newton_init nv_it nv_max_it] in Hck, Hmk.
  assert (Hearlier : forall j, j < k ->
            exists vj, iterate step j (newton_init self max_it) = Ok vj
                       /\ nv_it vj = Z.of_nat j
                       /\ fgt (nv_delta vj) lit_1e_5 = true
                       /\ (Z.of_nat j < max_it)%Z).
  { intros j Hj. destruct (Hbefore j Hj) as (vj & Hvj & Hcj).
    destruct (iterate_step_count _ _ _ Hvj) as (Hcnt & Hmax).
    cbn [newton_init nv_it nv_max_it] in Hcnt, Hmax.
    unfold conv in Hcj. apply andb_prop in Hcj. destruct Hcj as [Hl Hg].
    apply Z.ltb_lt in Hl. exists vj. repeat split; try assumption; lia. }
  exists k, fin. cbn [nv_it nv_max_it nv_prev nv_delta nv_self alpha set_f
                      set_grads].
  split; [exact Hit|]. split; [lia|]. split; [exact Hmk|].
  split; [reflexivity|]. split; [reflexivity|]. split; [reflexivity|].
  split; [|split].
  - destruct k as [|k]; [lia|].
    destruct (Hearlier k ltac:(lia)) as (vj & _ & _ & _ & Hlt). lia.
  - intros j Hj. destruct (Hearlier j Hj) as (vj & H1 & H2 & H3 & _).
    exists vj. repeat split; assumption.
  - intros Hlt. unfold conv in Hstop. apply andb_false_iff in Hstop.
    destruct Hstop as [Hl | Hg]; [|exact Hg].
    apply Z.ltb_ge in Hl. lia.
Qed.

(** X14. [run] assigns [alpha], [f], [grads] and [W] and nothing else:
    the factors, the mean, the diagonal, the mask, the observations, the
    likelihood, the kernel, the data, the optimizer, [tau] and the
    derivative functions are those of the solver it was called on.  Where
    [1.0 * 1e-9] is not NaN, an [alpha] without NaN stays without NaN. *)
Theorem run_keeps_the_setup (self : KroneckerSolver) (max_it : Z)
  (out : newton_vars) :
  run self max_it = Ok out ->
  same_setup self (nv_self out)
  /\ (fis_nan (fone * lit_1e_9)%F = false ->
      no_nan (alpha self) -> no_nan (alpha (nv_self out))).
Proof.
  intros Hr. destruct (run_inv _ _ _ Hr) as (k & fin & f_ & g & Hrun & ->).
  cbn [nv_self].
  assert (Hinv : same_setup self (nv_self fin)
                 /\ (fis_nan (fone * lit_1e_9)%F = false ->
                     no_nan (alpha self) -> no_nan (alpha (nv_self fin)))).
  { refine (while_run_invariant conv step
              (fun v => same_setup self (nv_self v)
                        /\ (fis_nan (fone * lit_1e_9)%F = false ->
                            no_nan (alpha self) -> no_nan (alpha (nv_self v))))
              _ _ _ _ Hrun _).
    - intros s s1 _ Hs (Hsetup & _). split.
      + exact (same_setup_trans _ _ _ Hsetup (step_same_setup _ _ Hs)).
      + intros H1 _. exact (step_no_nan _ _ H1 Hs).
    - split; [apply same_setup_refl | intros _ Hn; exact Hn]. }
  destruct Hinv as (Hsetup & Hnan). split.
  - apply (same_setup_trans _ _ _ Hsetup). repeat split.
  - exact Hnan.
Qed.

End NewtonLoop.

(** ** Line search, whatever the candidates do *)

Section LineSearchBounds.

Context {F : Type} `{Scalar F}.

Local Abbreviation tensor := (tensor F).
Local Abbreviation KroneckerSolver := (@KroneckerSolver F).
Local Abbreviation ls_vars := (@ls_vars F).

Lemma search_step_tracks (self : KroneckerSolver)
  (alpha_ delta_alpha y_ mu_ : tensor) (obj_prev : F) (max_it : Z)
  (v v' : ls_vars) :
  converge_cond v = true -> search_step self v = Ok v' ->
  ls_tracks self alpha_ delta_alpha y_ mu_ obj_prev max_it v ->
  ls_tracks self alpha_ delta_alpha y_ mu_ obj_prev max_it v'.
Proof.
  unfold search_step, converge_cond.
  intros Hc Hs (Ha & Hd & Hy & Hm & Hmax & j & Ht & Hsz & Hbest).
  apply andb_prop in Hc. destruct Hc as [Hlt _]. apply Z.ltb_lt in Hlt.
  rewrite Ha, Hd, Hy, Hm, Hsz in Hs. bind_inv Hs. injection Hs as <-.
  unfold ls_tracks. cbn.
  repeat split; try assumption.
  exists (S j). split; [lia|]. split; [reflexivity|].
  destruct (fgt (ls_min_obj v) a).
  - right. exists j. split; [lia|]. split; [reflexivity | exact Ha0].
  - exact Hbest.
Qed.

(** X15. [line_search] counts its iterations from 1: with [max_it <= 1]
    it evaluates no candidate and returns [(obj_prev, 0.0)].  Whenever it
    returns [(m, s)], either [s = 0.0] and [m = obj_prev], or [s] is the
    step size [5.0 * tau^j] of a round [j] with [j + 1 < max_it] and [m] is
    the objective at that candidate. *)
Theorem line_search_returns_a_candidate (self : KroneckerSolver)
  (alpha_ delta_alpha y_ : tensor) (obj_prev : F) (max_it : Z)
  (mu_ : tensor) :
  ((max_it <= 1)%Z ->
   line_search self alpha_ delta_alpha y_ obj_prev max_it mu_
   = Ok (obj_prev, fzero))
  /\ forall m s,
       line_search self alpha_ delta_alpha y_ obj_prev max_it mu_ = Ok (m, s) ->
       (s = fzero /\ m = obj_prev)
       \/ exists j,
            (Z.of_nat j + 1 < max_it)%Z
            /\ s = ls_step self j
            /\ search_objective self alpha_ delta_alpha y_ mu_ (ls_step self j)
               = Ok m.
Proof.
  split.
  - intros Hmax. unfold line_search, while_loop, ls_measure.
    cbn [ls_init ls_max_it ls_t].
    replace (Z.to_nat (max_it - 1)) with 0 by lia. reflexivity.
  - intros m s Hl. unfold line_search in Hl. bind_inv Hl.
    injection Hl as <- <-.
    destruct (while_loop_run ls_measure converge_cond (search_step self)
                (@converge_cond_measure F _) (search_step_measure self) _ _ Ha)
      as (k & Hrun).
    assert (Htr : ls_tracks self alpha_ delta_alpha y_ mu_ obj_prev max_it a).
    { refine (while_run_invariant converge_cond (search_step self) _ _ _ _ _
                Hrun _).
      - intros v v1 Hc Hs HP.
        exact (search_step_tracks _ _ _ _ _ _ _ _ _ Hc Hs HP).
      - unfold ls_tracks, ls_init. cbn.
        repeat split. exists 0. repeat split. left. split; reflexivity. }
    destruct Htr
      as (_ & _ & _ & _ & _ & j & _ & _ & [Hzero | (i & Hi & Hs & Ho)]).
    + left. exact Hzero.
    + right. exists i. repeat split; assumption.
Qed.

(** *** One latent value *)

Lemma search_objective_one_point (self : KroneckerSolver)
  (alpha_ delta_alpha y_ mu_ : tensor) (s : F) :
  length (entries alpha_) = 1 -> length (entries delta_alpha) = 1 ->
  search_objective self alpha_ delta_alpha y_ mu_ s = Err IndexError.
Proof.
  intros Ha Hd. unfold search_objective, kron_mvp, getitem.
  destruct alpha_ as [x|[|x [|x' u]]]; try discriminate Ha;
    destruct delta_alpha as [d|[|d [|d' w]]]; try discriminate Hd;
    cbn; destruct (Ks self); reflexivity.
Qed.

(** X16. With a single latent value the line search cannot evaluate a
    candidate: [tf.squeeze] turns [alpha + step_size * delta_alpha] into a
    rank-0 tensor, and [kron_mvp] reads its [shape[0]].  So [search_step]'s
    objective raises [IndexError] at every step size, and [line_search]
    raises [IndexError] as soon as its test lets the first round start;
    otherwise it returns [(obj_prev, 0.0)]. *)
Theorem line_search_one_point (self : KroneckerSolver)
  (alpha_ delta_alpha y_ : tensor) (obj_prev : F) (max_it : Z)
  (mu_ : tensor) :
  length (entries alpha_) = 1 -> length (entries delta_alpha) = 1 ->
  (forall s, search_objective self alpha_ delta_alpha y_ mu_ s
             = Err IndexError)
  /\ line_search self alpha_ delta_alpha y_ obj_prev max_it mu_
     = if Z.ltb 1 max_it
          && flt (obj_prev - float_info_max)%F (lit_5_0 * of_int 1)%F
       then Err IndexError
       else Ok (obj_prev, fzero).
Proof.
  intros Ha Hd. split.
  - intros s. apply search_objective_one_point; assumption.
  - unfold line_search.
    rewrite (while_loop_unfold ls_measure converge_cond (search_step self)
               (@converge_cond_measure F _) (search_step_measure self)).
    change (converge_cond (ls_init alpha_ delta_alpha y_ obj_prev max_it mu_))
      with (Z.ltb 1 max_it
            && flt (obj_prev - float_info_max)%F (lit_5_0 * of_int 1)%F).
    destruct (Z.ltb 1 max_it
              && flt (obj_prev - float_info_max)%F (lit_5_0 * of_int 1)%F).
    + unfold search_step. cbn [ls_init ls_alpha ls_delta_alpha ls_y ls_mu
                               ls_step_size].
      rewrite search_objective_one_point by assumption. reflexivity.
    + reflexivity.
Qed.

End LineSearchBounds.

(** ** Marginal likelihood on one latent value *)

Section MarginalOnePoint.

Context {F : Type} `{Scalar F}.

Local Abbreviation tensor := (tensor F).
Local Abbreviation matrix := (matrix F).
Local Abbreviation KroneckerSolver := (@KroneckerSolver F).

Variable tf_log : F -> F.
Variable tf_self_adjoint_eig : matrix -> result (list F * matrix).

Lemma tf_boolean_mask_error (t : tensor) (b : list bool) :
  (exists r, tf_boolean_mask t b = Ok r)
  \/ tf_boolean_mask t b = Err ValueError.
Proof.
  unfold tf_boolean_mask. destruct t as [x|l]; [right; reflexivity|].
  destruct (Nat.eqb (length l) (length b));
    [left; eexists; reflexivity | right; reflexivity].
Qed.

(** X17. With a mask and factors whose sizes multiply to one, [marginal]
    raises [ValueError]: [tf.squeeze] makes [eig_K] a rank-0 tensor, which
    [tf.boolean_mask] cannot mask (and every earlier [tf.boolean_mask], if
    it raises, raises [ValueError] too). *)
Theorem marginal_masked_one_point (self : KroneckerSolver)
  (Ks_new : option (list matrix)) (e0 e1 : list F) (rest : list (list F))
  (b : list bool) :
  eigenvalues_of tf_self_adjoint_eig (match Ks_new with
                  | None => Ks self
                  | Some Ks' => Ks'
                  end) (e0 :: e1 :: rest) ->
  length (eig_product e0 e1 rest) = 1 ->
  mask self = Some b ->
  marginal tf_log tf_self_adjoint_eig self Ks_new = Err ValueError.
Proof.
  intros He H1 Hmask. unfold marginal.
  rewrite (marginal_eig_K_product _ _ _ _ _ He). cbn [bind]. rewrite Hmask.
  destruct (eig_product e0 e1 rest) as [|x [|x' ev]]; try discriminate H1.
  cbn [tf_squeeze].
  destruct (tf_boolean_mask_error (y self) b) as [(r1 & ->) | ->];
    [cbn [bind] | reflexivity].
  destruct (tf_boolean_mask_error (f self) b) as [(r2 & ->) | ->];
    [cbn [bind] | reflexivity].
  destruct (tf_boolean_mask_error (alpha self) b) as [(r3 & ->) | ->];
    [cbn [bind] | reflexivity].
  destruct (tf_boolean_mask_error (mu self) b) as [(r4 & ->) | ->];
    [cbn [bind] | reflexivity].
  destruct (tf_boolean_mask_error (W self) b) as [(r5 & ->) | ->];
    [cbn [bind] | reflexivity].
  reflexivity.
Qed.

End MarginalOnePoint.

(** ** Construction and kernel learning *)

Section ConstructionProperties.

Context {F : Type} `{Scalar F}.

Local Abbreviation tensor := (tensor F).
Local Abbreviation matrix := (matrix F).
Local Abbreviation KroneckerSolver := (@KroneckerSolver F).
Local Abbreviation Kernel := (@Kernel F).
Local Abbreviation Likelihood := (@Likelihood F).

Variable tf_log : F -> F.
Variable tf_self_adjoint_eig : matrix -> result (list F * matrix).
Variable np_unique : list F -> list F.
Variable tfe_gradients_function :
  (tensor -> tensor -> result tensor) ->
  tensor -> tensor -> result (list tensor).
Variable tfe_gradients_function_of_list :
  (tensor -> tensor -> result (list tensor)) ->
  tensor -> tensor -> result (list tensor).

Local Abbreviation init :=
  (KroneckerSolver_init tf_self_adjoint_eig np_unique tfe_gradients_function
     tfe_gradients_function_of_list).
Local Abbreviation get_marginal_ :=
  (get_marginal tf_log tf_self_adjoint_eig np_unique tfe_gradients_function
     tfe_gradients_function_of_list).
Local Abbreviation finite_difference_ :=
  (finite_difference tf_log tf_self_adjoint_eig np_unique
     tfe_gradients_function tfe_gradients_function_of_list).
Local Abbreviation gradient_step_ :=
  (gradient_step tf_log tf_self_adjoint_eig np_unique tfe_gradients_function
     tfe_gradients_function_of_list).

(** X18. [KroneckerSolver.__init__] raises [AttributeError] on every
    input: it calls [construct_Ks], which reads [self.X], three statements
    before it assigns [self.X].  On an object that has [kernel] and [X],
    [construct_Ks] does what it does on a solver. *)
Theorem KroneckerSolver_init_raises_AttributeError (mu_ : tensor)
  (kernel_ : Kernel) (likelihood_ : Likelihood) (X_ : matrix) (y_ : tensor)
  (tau_ : F) (k_diag_ : option tensor) (mask_ : option (list bool))
  (verbose_ : bool) :
  init mu_ kernel_ likelihood_ X_ y_ tau_ k_diag_ mask_ verbose_
  = Raises AttributeError
  /\ forall (self : instance_dict) (k : option Kernel) (s : KroneckerSolver),
       getattr self a_kernel = Returns (kernel s) ->
       getattr self a_X = Returns (X s) ->
       construct_Ks_method np_unique self k
       = lift (construct_Ks np_unique s k).
Proof.
  split; [reflexivity|].
  intros self k s Hk HX. unfold construct_Ks_method, construct_Ks.
  rewrite HX. cbn [outcome_bind py_iter lift bind].
  assert (Hk' : match k with
                | Some k' => Returns k'
                | None => getattr self a_kernel
                end = Returns match k with
                              | Some k' => k'
                              | None => kernel s
                              end).
  { destruct k; [reflexivity | exact Hk]. }
  rewrite Hk'. cbn [outcome_bind].
  induction (seq 0 (ncols (X s))) as [|i l IH]; [reflexivity|].
  cbn [outcome_comprehension comprehension outcome_bind].
  destruct (kernel_eval _ _ None) as [K|e]; cbn [lift outcome_bind bind];
    [|reflexivity].
  rewrite IH. destruct (comprehension _ l); reflexivity.
Qed.

(** X19. [KernelLearner] cannot differentiate the marginal likelihood:
    [get_marginal] raises on every parameter list, the kernel class's
    exception or the [AttributeError] of the solver's constructor; so does
    [finite_difference]; and [gradient_step] raises on every non-empty
    parameter list and returns [0] on the empty one. *)
Theorem gradient_step_never_differentiates (self : KernelLearner) :
  (forall params,
     get_marginal_ self params
     = match kl_kernel self params with
       | Ok _ => Raises AttributeError
       | Err e => Raises (Raised e)
       end)
  /\ (forall epsilon params i,
        exists e, finite_difference_ self epsilon params i = Raises e)
  /\ gradient_step_ self [] = Returns 0%Z
  /\ forall p params, exists e, gradient_step_ self (p :: params) = Raises e.
Proof.
  assert (Hm : forall params,
            get_marginal_ self params
            = match kl_kernel self params with
              | Ok _ => Raises AttributeError
              | Err e => Raises (Raised e)
              end).
  { intros params. unfold get_marginal.
    destruct (kl_kernel self params); reflexivity. }
  assert (Hfd : forall epsilon params i,
            exists e, finite_difference_ self epsilon params i = Raises e).
  { intros epsilon params i. unfold finite_difference.
    destruct (getitem params i) as [p|e]; cbn [lift outcome_bind];
      [|eexists; reflexivity].
    destruct (getitem (kl_eps self) i) as [e_i|e]; cbn [lift outcome_bind];
      [|eexists; reflexivity].
    rewrite Hm.
    destruct (kl_kernel self (setitem params i (p + e_i)%F));
      eexists; reflexivity. }
  split; [exact Hm|]. split; [exact Hfd|]. split; [reflexivity|].
  intros p params. unfold gradient_step.
  cbn [length seq outcome_for_each].
  destruct (getitem (kl_eps self) 0) as [e_i|e]; cbn [lift outcome_bind];
    [|eexists; reflexivity].
  destruct (Hfd e_i (p :: params) 0) as (e & ->).
  eexists. reflexivity.
Qed.

End ConstructionProperties.

(** ** The further theorems at work *)

Lemma exact_twice_maps_vec (n : nat) : maps_vec n ExactExamples.twice.
Proof.
  intros p (l & -> & Hl). eexists. split; [reflexivity|].
  eexists. split; [reflexivity|]. rewrite length_map. exact Hl.
Qed.

Lemma exact_twice_linear (n : nat) : linear_on n ExactExamples.twice.
Proof.
  intros xl pl Mx Mp a Hx Hp HMx HMp.
  unfold ExactExamples.twice, tmul in *. cbn [broadcast] in *.
  injection HMx as <-. injection HMp as <-. f_equal. f_equal.
  clear Hx Hp. revert pl. induction xl as [|x xl IH]; intros [|p pl];
    try reflexivity.
  cbn [map zip_with]. rewrite IH. f_equal.
  change (@fmul Qc Qc_Scalar) with Qcmult.
  change (@fadd Qc Qc_Scalar) with Qcplus. ring.
Qed.

Section FurtherWitnesses.

Import FloatExamples.
Local Open Scope float_scope.

Lemma kron_is_kronecker_product_witness :
  wf_matrix K2
  /\ exists K, kron K2 K2 = Ok K /\ nrows K = 4%nat /\ ncols K = 4%nat.
Proof.
  assert (Hwf : wf_matrix K2) by reflexivity.
  split; [exact Hwf|].
  destruct (kron_is_kronecker_product K2 K2 Hwf) as (K & HK & Hr & Hc & _).
  exists K. split; [exact HK|]. split; [exact Hr | exact Hc].
Defined.

Lemma kron_list_needs_two_matrices_witness :
  kron_list [K2] = Err IndexError.
Proof.
  apply kron_list_needs_two_matrices. apply Nat.lt_succ_diag_r.
Defined.

Lemma kron_list_shape_witness :
  exists K, kron_list [K2; K2; K2] = Ok K /\ nrows K = 8%nat /\ ncols K = 8%nat.
Proof.
  destruct (kron_list_shape [K2; K2; K2]) as (K & HK & _ & Hr & Hc).
  - apply le_S. apply le_n.
  - repeat constructor.
  - exists K. split; [exact HK|]. split; [exact Hr | exact Hc].
Defined.

Lemma kron_mvp_needs_two_factors_witness :
  kron_mvp [KronExamples.eye2; KronExamples.eye2; KronExamples.eye2]
    (T1 KronExamples.v8) = Err InvalidArgumentError
  /\ kron_mvp [KronExamples.eye2] (T1 [1; 2]) = Err InvalidArgumentError.
Proof.
  split; apply kron_mvp_needs_two_factors; try discriminate;
    try reflexivity; repeat constructor.
Defined.

Lemma kron_mvp_two_factors_witness :
  exists out,
    kron_mvp [KronExamples.eye2; KronExamples.eye3] (T1 KronExamples.v6)
    = Ok (tf_squeeze out)
    /\ length out = 6%nat.
Proof.
  destruct (kron_mvp_two_factors KronExamples.eye2 KronExamples.eye3
              KronExamples.v6) as (out & Hout & Hlen & _);
    try reflexivity; try discriminate.
  exists out. split; [exact Hout | exact Hlen].
Defined.

Lemma kron_mvp_equal_factors_witness :
  exists out,
    kron_mvp [K2; K2] (T1 [1; 2; 3; 4]) = Ok (tf_squeeze out)
    /\ nth 1%nat out 0 = kron_mvp_entry K2 K2 [1; 2; 3; 4] 0%nat 1%nat.
Proof.
  destruct (kron_mvp_equal_factors K2 K2 [1; 2; 3; 4] 2%nat)
    as (out & Hout & _ & Hentry);
    try reflexivity; try discriminate.
  exists out. split; [exact Hout|].
  apply (Hentry 0%nat 1%nat); [apply Nat.lt_0_succ | apply Nat.lt_succ_diag_r].
Defined.

Lemma kron_mvp_is_the_dense_product_witness :
  exists K d,
    kron RationalExamples.K2 RationalExamples.K2 = Ok K
    /\ dense_mvp K ExactExamples.v4 = Ok d
    /\ kron_mvp [RationalExamples.K2; RationalExamples.K2]
         (T1 ExactExamples.v4) = Ok (tf_squeeze d).
Proof.
  apply (kron_mvp_is_the_dense_product RationalExamples.K2 RationalExamples.K2
           ExactExamples.v4 2%nat); try reflexivity; discriminate.
Defined.

Lemma cg_without_product_raises_witness :
  cg (mk_CGOptimizer None) (T1 [1; 2]) None = Err TypeError.
Proof.
  destruct (cg_without_product_raises (mk_CGOptimizer None) (T1 [1; 2]) None
              eq_refl) as (Hvec & _).
  apply (Hvec [1; 2]). reflexivity.
Defined.

Lemma default_optimizer_blocks_newton_witness :
  cg_prod (opt (bare gaussian y4 None gaussian_grad gaussian_hess)) = None
  /\ exists e,
       step (start (bare gaussian y4 None gaussian_grad gaussian_hess))
       = Err e.
Proof.
  split; [reflexivity|].
  destruct (default_optimizer_blocks_newton
              (bare gaussian y4 None gaussian_grad gaussian_hess) eq_refl)
    as (Hs & _).
  destruct (step (start (bare gaussian y4 None gaussian_grad gaussian_hess)))
    as [v'|e] eqn:E.
  - exfalso. exact (Hs 10%Z 0%Z float_info_max float_info_max v' E).
  - exists e. reflexivity.
Defined.

Lemma cg_with_solver_operator_returns_witness :
  exists x,
    cg (mk_CGOptimizer
          (Some (KroneckerSolver_cg_prod
                   (bare gaussian y4 None gaussian_grad gaussian_hess))))
      y4 None = Ok x
    /\ is_vec 4%nat x.
Proof.
  pose proof (cg_with_solver_operator_returns
                (bare gaussian y4 None gaussian_grad gaussian_hess) K2 K2 y4
                eq_refl eq_refl eq_refl) as Hth.
  assert (H0 : nrows K2 <> 0%nat) by discriminate.
  assert (HW : is_vec (nrows K2 * nrows K2)
                 (W (bare gaussian y4 None gaussian_grad gaussian_hess))).
  { eexists. split; reflexivity. }
  assert (Hd : forall d,
             k_diag (bare gaussian y4 None gaussian_grad gaussian_hess)
             = Some d -> is_vec (nrows K2 * nrows K2) d).
  { intros d Hd. discriminate Hd. }
  assert (Hb : is_vec (nrows K2 * nrows K2) y4).
  { eexists. split; reflexivity. }
  destruct (Hth H0 HW Hd Hb) as (_ & x & Hx & Hv).
  exists x. split; [exact Hx | exact Hv].
Defined.

Lemma cg_residual_is_the_true_residual_witness :
  exists x Mx r,
    cg (mk_CGOptimizer (Some ExactExamples.twice)) ExactExamples.b2 None = Ok x
    /\ ExactExamples.twice x = Ok Mx
    /\ tsub ExactExamples.b2 Mx = Ok r
    /\ fgt (sum_sq r) lit_1e_5 = false.
Proof.
  destruct (cg_residual_is_the_true_residual
              (mk_CGOptimizer (Some ExactExamples.twice)) ExactExamples.twice
              2%nat ExactExamples.b2 None eq_refl (exact_twice_maps_vec 2%nat)
              (exact_twice_linear 2%nat))
    as (v0 & k & fin & Mx & Hinit & _ & Hbefore & _ & _ & _ & Hcg & HMx & _
        & _ & Hsmall).
  - eexists. split; reflexivity.
  - discriminate.
  - assert (Hk : (k < 2 * 2)%nat).
    { destruct (le_lt_dec k 1) as [Hle | Hgt]; [lia | exfalso].
      destruct (Hbefore 1%nat Hgt) as (v1 & Hv1 & Hc1).
      vm_compute in Hinit. injection Hinit as <-.
      vm_compute in Hv1. injection Hv1 as <-.
      vm_compute in Hc1. discriminate Hc1. }
    destruct (Hsmall Hk) as (r & Hr & Hle).
    exists (cg_x fin), Mx, r.
    split; [exact Hcg|]. split; [exact HMx|]. split; [exact Hr | exact Hle].
Defined.

Lemma run_stops_witness :
  run diag 10 = Ok diag_out
  /\ exists k, nv_it diag_out = Z.of_nat k /\ (Z.of_nat k <= 10)%Z.
Proof.
  assert (Hr : run diag 10 = Ok diag_out) by (vm_compute; reflexivity).
  split; [exact Hr|].
  destruct (run_stops_on_cap_or_small_decrease _ _ _ Hr)
    as (k & fin & _ & Hit & _ & _ & _ & _ & Hk & _).
  exists k. split; [exact Hit | exact Hk].
Defined.

Lemma run_keeps_the_setup_witness :
  run diag 10 = Ok diag_out
  /\ same_setup diag (nv_self diag_out)
  /\ no_nan (alpha (nv_self diag_out)).
Proof.
  assert (Hr : run diag 10 = Ok diag_out) by (vm_compute; reflexivity).
  split; [exact Hr|].
  destruct (run_keeps_the_setup _ _ _ Hr) as (Hsetup & Hnan).
  split; [exact Hsetup|].
  apply Hnan; [reflexivity | repeat constructor].
Defined.

Lemma line_search_one_point_witness :
  line_search plain (T1 [1]) (T1 [1]) y4 0 20 zeros4 = Err IndexError.
Proof.
  destruct (line_search_one_point plain (T1 [1]) (T1 [1]) y4 0 20 zeros4
              eq_refl eq_refl) as (_ & E).
  rewrite E. reflexivity.
Defined.

Lemma marginal_masked_one_point_witness :
  marginal log3 OnePointExamples.eig1 OnePointExamples.tiny None
  = Err ValueError.
Proof.
  apply (marginal_masked_one_point log3 OnePointExamples.eig1
           OnePointExamples.tiny None [2] [2] [] [true]).
  - repeat constructor; eexists; reflexivity.
  - reflexivity.
  - reflexivity.
Defined.

End FurtherWitnesses.
